(** * TradeWiz: the sorting and benchmarking engine of the trading dashboard

    A shallow embedding of [src/app/components/TradeWiz.tsx] (and of the
    earlier variant of the same component kept next to it), with the
    properties of its key encoder, its two sorters, its tick handler and
    its statistics.

    Conventions of the embedding.
    - A JavaScript [number] is an IEEE 754 double.  One that holds an
      integer (a timestamp, a sort key, a counter) is a [Z], any other one
      (a price, a value of [Math.random()], a quotient) is a rational [Q],
      and the arithmetic of the key encoder, of the digits of the radix
      sort and of [generateTransaction] is the arithmetic of doubles: the
      exact result, rounded to the nearest double, ties to even
      ([round64]).  The rounding has no upper limit: infinities and [NaN]
      are not modelled, nor is the sign of zero.  The durations, which are
      differences of readings of the clock, are kept as exact rationals.
    - A JavaScript string is a [string]; [charCodeAt] is the code of the
      character, and [<=] on strings is the lexicographic order on codes.
    - React state cells and refs are the fields of one record; the state
      updaters queued during one event are applied in the order they were
      queued, and a variable captured by a closure has the value of the
      last render.
      The second call of an updater that React makes in development
      under StrictMode is not modelled.
    - An exception thrown by the code ([TypeError] on [undefined.push]) is
      the outcome [Thrown]; the state reached before the throw is kept. *)

From Stdlib Require Import String Ascii DecimalString DecimalPos DecimalFacts.
From Stdlib Require Import NArith ZArith QArith Qround Qpower Qabs Bool Arith List.
From Stdlib Require Import Permutation Sorted Lia Lqa.
From Equations Require Import Equations.
Import ListNotations.

Open Scope Z_scope.

(** ** Data model *)

(** [type SortKey = 'price' | 'symbol' | 'timestamp'] *)
Inductive SortKey : Type := Price | Symbol | Timestamp.

(** [interface Transaction]; [sortKey?: number] is an optional field. *)
Record Transaction : Type := mkTransaction {
  id : string;
  symbol : string;
  price : Q;
  timestamp : Z;
  displayTime : string;
  sortKey : option Z
}.

(** [{ ...item, sortKey: key }] *)
Definition withSortKey (item : Transaction) (key : Z) : Transaction :=
  {| id := id item; symbol := symbol item; price := price item;
     timestamp := timestamp item; displayTime := displayTime item;
     sortKey := Some key |}.

(** [item.sortKey ?? 0] *)
Definition sortKeyOr0 (item : Transaction) : Z :=
  match sortKey item with Some k => k | None => 0 end.

(** [const stockSymbols = [...]] *)
Definition stockSymbols : list string :=
  ["AAPL"; "TSLA"; "AMZN"; "GOOGL"; "MSFT"; "NVDA"; "META"; "NFLX"; "AMD"; "INTC"]%string.

(** ** Numbers

    The doubles are the rationals [m * 2^e] with [|m| < 2^53] and
    [e >= -1074]; an operation on doubles returns the double nearest to
    the exact result. *)

(** The exponent of the power of two at or below [x], for [x > 0]. *)
Definition ilog2 (x : Q) : Z :=
  let k := Z.log2 (Qnum x) - Z.log2 (Zpos (Qden x)) in
  if Qle_bool (2 ^ k) x then k else k - 1.

(** The nearest integer, the even one of the two at a tie. *)
Definition roundHalfEven (y : Q) : Z :=
  let f := Qfloor y in
  match (y - inject_Z f ?= 1 # 2)%Q with
  | Lt => f
  | Gt => f + 1
  | Eq => if Z.even f then f else f + 1
  end.

(** The exponent of the unit in the last place of the doubles around [x]:
    53 significant bits, and no exponent below -1074. *)
Definition ulpExponent (x : Q) : Z := Z.max (ilog2 (Qabs x) - 52) (-1074).

(** The double nearest to [x]. *)
Definition round64 (x : Q) : Q :=
  if Qeq_bool x 0 then 0%Q
  else
    let e := ulpExponent x in
    (inject_Z (roundHalfEven (x / 2 ^ e)) * 2 ^ e)%Q.

(** The double nearest to an integer; from 2^53 on it is an integer too. *)
Definition round64Z (z : Z) : Z := Qfloor (round64 (inject_Z z)).

(** ** Key encoder *)

(** [char.charCodeAt(0)] *)
Definition charCodeAt0 (char : ascii) : Z := Z.of_N (N_of_ascii char).

(** [symbol.split('').reduce((acc, char) => acc * 256 + char.charCodeAt(0), 0)] *)
Definition encodeSymbol (s : string) : Z :=
  fold_left (fun acc char => round64Z (round64Z (acc * 256) + charCodeAt0 char))
            (list_ascii_of_string s) 0.

(** The key computed by the body of the [map] in [preprocessForRadix];
    for the price, [Math.floor(item.price * 100)]. *)
Definition encode (sortKey : SortKey) (item : Transaction) : Z :=
  match sortKey with
  | Price => Qfloor (round64 (price item * 100))
  | Symbol => encodeSymbol (symbol item)
  | Timestamp => timestamp item
  end.

Definition preprocessForRadix (data : list Transaction) (sortKey : SortKey)
  : list Transaction :=
  map (fun item => withSortKey item (encode sortKey item)) data.

(** ** Radix sort: the pure part *)

(** [Math.max(...keys)]; the call is only reached with at least two keys,
    the empty case ([-Infinity] in JavaScript) is never evaluated. *)
Definition Math_max (keys : list Z) : Z :=
  match keys with
  | [] => 0
  | k :: ks => fold_left Z.max ks k
  end.

(** The decimal digits of an integer, with a minus sign before those of a
    negative one. *)
Definition decimal (n : Z) : string := NilZero.string_of_int (Z.to_int n).

(** The decimal number that [toString] prints for a double [x] of [n]
    digits is the one with the fewest significant digits among those that
    round to [x]: here the candidates with [k] significant digits, the
    multiple of [10^(n-k)] below [x] and the one above; of two that round
    to [x], the nearer one, and the even one when they are as near. *)
Definition shortestAt (x : Z) (n k : nat) : option Z :=
  let scale := 10 ^ Z.of_nat (n - k) in
  let lo := x / scale * scale in
  let hi := lo + scale in
  match round64Z lo =? x, round64Z hi =? x with
  | true, true =>
      Some (if x - lo <? hi - x then lo
            else if hi - x <? x - lo then hi
            else if Z.even (x / scale) then lo else hi)
  | true, false => Some lo
  | false, true => Some hi
  | false, false => None
  end.

(** The search from [k] significant digits on. *)
Fixpoint shortestFrom (x : Z) (n k fuel : nat) : Z :=
  match fuel with
  | O => x
  | S fuel' =>
      match shortestAt x n k with
      | Some v => v
      | None => shortestFrom x n (S k) fuel'
      end
  end.

Definition shortestDecimal (x : Z) : Z :=
  let n := String.length (decimal x) in shortestFrom x n 1 n.

(** The digits without the zeros at their end. *)
Fixpoint stripZeros (s : string) : string :=
  match s with
  | EmptyString => EmptyString
  | String c r =>
      match stripZeros r with
      | EmptyString => if Ascii.eqb c "0" then EmptyString else String c EmptyString
      | r' => String c r'
      end
  end.

(** The exponent notation: [d.ddde+x]. *)
Definition exponential (v : Z) : string :=
  let digits := decimal v in
  let e := decimal (Z.of_nat (String.length digits) - 1) in
  match stripZeros digits with
  | EmptyString => "0"
  | String d EmptyString => String d ("e+" ++ e)
  | String d rest => String d ("." ++ rest ++ "e+" ++ e)
  end%string.

(** [n.toString()] for a double [n] that is an integer.  Below 2^53 every
    integer is a double and the string is its decimal digits.  From there
    on the string is made of the shortest digits that still round to [n],
    followed by zeros below [1e21] and in the exponent notation from
    [1e21] on. *)
Definition toString (n : Z) : string :=
  if Z.abs n <? 2 ^ 53 then decimal n
  else
    let v := shortestDecimal (Z.abs n) in
    let body := if v <? 10 ^ 21 then decimal v else exponential v in
    if n <? 0 then String "-" body else body.

(** [buckets[digitValue].push(item)]: [buckets[digitValue]] is [undefined]
    outside of the indices [0..9], and [undefined.push] throws. *)
Definition bucketPush (buckets : list (list Transaction)) (digitValue : Z)
    (item : Transaction) : option (list (list Transaction)) :=
  if (0 <=? digitValue) && (digitValue <? Z.of_nat (length buckets)) then
    let i := Z.to_nat digitValue in
    Some (firstn i buckets ++ (nth i buckets [] ++ [item]) :: skipn (S i) buckets)
  else None.

(** [Math.pow(10, digit)]: the power itself up to [10^22], which is a
    double.  A larger one is asked for only when the largest key is
    printed with 24 characters, which takes a negative one; there the
    model takes the double nearest to the power, of which an engine may
    return a neighbour. *)
Definition Math_pow10 (digit : nat) : Q := round64 (inject_Z (10 ^ Z.of_nat digit)).

(** [Math.floor((item.sortKey ?? 0) / divisor) % 10]: the quotient is a
    double, its integer part and the remainder are exact; [%] is the
    remainder of the truncated division. *)
Definition digitValueOf (divisor : Q) (item : Transaction) : Z :=
  Z.rem (Qfloor (round64 (inject_Z (sortKeyOr0 item) / divisor))) 10.

(** [sortedArray.forEach(item => { ... buckets[digitValue].push(item) })] *)
Fixpoint forEachPush (divisor : Q) (items : list Transaction)
    (buckets : list (list Transaction)) : option (list (list Transaction)) :=
  match items with
  | [] => Some buckets
  | item :: rest =>
      match bucketPush buckets (digitValueOf divisor item) item with
      | Some buckets' => forEachPush divisor rest buckets'
      | None => None
      end
  end.

(** One iteration of the loop over [digit]. *)
Definition radixPass (digit : nat) (sortedArray : list Transaction)
  : option (list Transaction) :=
  let buckets := repeat ([] : list Transaction) 10 in
  let divisor := Math_pow10 digit in
  match forEachPush divisor sortedArray buckets with
  | Some buckets' => Some (concat buckets')
  | None => None
  end.

(** [for (let digit = ...; digit < maxDigits; digit++)], with [remaining]
    iterations left. *)
Fixpoint radixLoop (digit remaining : nat) (sortedArray : list Transaction)
  : option (list Transaction) :=
  match remaining with
  | O => Some sortedArray
  | S remaining' =>
      match radixPass digit sortedArray with
      | Some next => radixLoop (S digit) remaining' next
      | None => None
      end
  end.

(** The computation of [radixSort] between its two clock readings. *)
Definition radixCore (preprocessed : list Transaction) : option (list Transaction) :=
  let maxVal := Math_max (map sortKeyOr0 preprocessed) in
  let maxDigits := String.length (toString maxVal) in
  radixLoop 0 maxDigits preprocessed.

(** ** Merge sort: the pure part *)

(** [leftVal <= rightVal] for the values of the field chosen by [sortKey]. *)
Definition fieldLe (sortKey : SortKey) (l r : Transaction) : bool :=
  match sortKey with
  | Price => Qle_bool (price l) (price r)
  | Symbol => String.leb (symbol l) (symbol r)
  | Timestamp => timestamp l <=? timestamp r
  end.

(** [merge]: the [while] loop over [i] and [j] is a recursion on what is
    left of [left] and [right]; once one of them is exhausted the rest of
    the other one is appended. *)
Equations? merge (sortKey : SortKey) (leftArr rightArr : list Transaction)
  : list Transaction by wf (length leftArr + length rightArr)%nat lt :=
  merge sortKey [] rightArr := rightArr;
  merge sortKey leftArr [] := leftArr;
  merge sortKey (l :: ls) (r :: rs) with fieldLe sortKey l r => {
    | true := l :: merge sortKey ls (r :: rs);
    | false := r :: merge sortKey (l :: ls) rs }.
Proof. all: simpl; lia. Qed.

(** [sort]: [slice(0, mid)] is [firstn mid], [slice(mid)] is [skipn mid]. *)
Equations? sort (sortKey : SortKey) (array : list Transaction)
  : list Transaction by wf (length array) lt :=
  sort sortKey array with le_lt_dec (length array) 1 => {
    | left _ := array;
    | right _ :=
        let mid := (length array / 2)%nat in
        merge sortKey (sort sortKey (firstn mid array)) (sort sortKey (skipn mid array)) }.
Proof.
  all: assert (Hlt : (length array / 2 < length array)%nat)
         by (apply Nat.div_lt; lia);
       assert (Hpos : (0 < length array / 2)%nat)
         by (apply Nat.div_str_pos; lia);
       unfold Nat.div in Hlt, Hpos; subst mid;
       rewrite ?length_firstn, ?length_skipn; lia.
Qed.

(** ** The component: state cells, refs and the host *)

Inductive SortMethod : Type := Radix | Merge.

(** The state cell [currentStats]. *)
Record Stats : Type := mkStats {
  totalTransactions : Z;
  avgSortTime : Q;
  radixTime : Q;
  mergeTime : Q
}.

(** An entry of the state cell [performanceData]. *)
Module Sample.
Record t : Type := mk {
  time : string;
  radixTime : Q;
  mergeTime : Q;
  transactions : Z;
  totalTransactions : Z
}.
End Sample.

(** The cells declared with [useState]. *)
Record Cells : Type := mkCells {
  isRunning : bool;
  transactions : list Transaction;
  sortedTransactions : list Transaction;
  sortMethod : SortMethod;
  sortBy : SortKey;
  transactionRate : Z;
  performanceData : list Sample.t;
  preprocessedData : list Transaction;
  currentStats : Stats
}.

(** The cells declared with [useRef]. *)
Record Refs : Type := mkRefs {
  intervalRef : option nat;
  transactionBuffer : list Transaction
}.

(** What the host keeps: the interval timers that are set, each with the
    render whose variables its callback captured; the next timer handle
    (handles are positive numbers, as in a browser, which is why the test
    [if (intervalRef.current)] only asks whether a handle was stored); and
    how many readings of the clock and how many draws of the random source
    were consumed. *)
Record HostState : Type := mkHostState {
  timers : list (nat * Cells);
  nextTimer : nat;
  clockReads : nat;
  generated : nat
}.

Record State : Type := mkState {
  cells : Cells;
  refs : Refs;
  host : HostState
}.

(** What [generateTransaction] obtains from the host in one call: three
    values of [Math.random()], the text made from a fourth one, [Date.now()]
    and [new Date().toLocaleTimeString()]. *)
Record Draw : Type := mkDraw {
  randSymbol : Q;
  randPrice : Q;
  randJitter : Q;
  randId : string;
  dateNow : Z;
  localeTime : string
}.

(** The host's answers: the n-th reading of [performance.now()], the n-th
    draw, and the wall-clock label at a render that follows n readings. *)
Record Host : Type := mkHost {
  performance_now : nat -> Q;
  draw : nat -> Draw;
  toLocaleTimeString : nat -> string
}.

(** [Math.round(x)] *)
Definition Math_round (x : Q) : Z := Qfloor (x + (1 # 2)).

(** The transaction that [generateTransaction] builds from the values [d]
    of the host:
    [stockSymbols[Math.floor(Math.random() * stockSymbols.length)]],
    [Math.round((Math.random() * 1000 + 50) * 100) / 100] and
    [Date.now() * 1000000 + Math.floor(Math.random() * 1000000)]. *)
Definition transactionOf (d : Draw) : Transaction :=
  let symbol :=
    nth (Z.to_nat (Qfloor (round64 (randSymbol d * inject_Z (Z.of_nat (length stockSymbols))))))
        stockSymbols ""%string in
  let price := round64 (round64 (randPrice d * 1000) + 50) in
  let timestamp :=
    round64Z (round64Z (dateNow d * 1000000)
              + Qfloor (round64 (randJitter d * 1000000))) in
  {| id := randId d;
     symbol := symbol;
     price := round64 (inject_Z (Math_round (round64 (price * 100))) / 100);
     timestamp := timestamp;
     displayTime := localeTime d;
     sortKey := None |}.

(** A queued state update: it runs at the next render, where it sees the
    refs as they are then, and the wall-clock label of that moment. *)
Definition Updater : Type := Refs -> string -> Cells -> Cells.

(** The state an event handler runs in: the state, and the updates queued
    so far. *)
Record Pending : Type := mkPending {
  current : State;
  queue : list Updater
}.

Definition set_isRunning (v : bool) (c : Cells) : Cells :=
  let 'mkCells _ a b d e f g h i := c in mkCells v a b d e f g h i.
Definition set_transactions (v : list Transaction) (c : Cells) : Cells :=
  let 'mkCells z _ b d e f g h i := c in mkCells z v b d e f g h i.
Definition set_sortedTransactions (v : list Transaction) (c : Cells) : Cells :=
  let 'mkCells z a _ d e f g h i := c in mkCells z a v d e f g h i.
Definition set_sortMethod (v : SortMethod) (c : Cells) : Cells :=
  let 'mkCells z a b _ e f g h i := c in mkCells z a b v e f g h i.
Definition set_sortBy (v : SortKey) (c : Cells) : Cells :=
  let 'mkCells z a b d _ f g h i := c in mkCells z a b d v f g h i.
Definition set_transactionRate (v : Z) (c : Cells) : Cells :=
  let 'mkCells z a b d e _ g h i := c in mkCells z a b d e v g h i.
Definition set_performanceData (v : list Sample.t) (c : Cells) : Cells :=
  let 'mkCells z a b d e f _ h i := c in mkCells z a b d e f v h i.
Definition set_preprocessedData (v : list Transaction) (c : Cells) : Cells :=
  let 'mkCells z a b d e f g _ i := c in mkCells z a b d e f g v i.
Definition set_currentStats (v : Stats) (c : Cells) : Cells :=
  let 'mkCells z a b d e f g h _ := c in mkCells z a b d e f g h v.

Definition set_transactionBuffer (v : list Transaction) (s : State) : State :=
  mkState (cells s) (mkRefs (intervalRef (refs s)) v) (host s).
Definition set_intervalRef (v : option nat) (s : State) : State :=
  mkState (cells s) (mkRefs v (transactionBuffer (refs s))) (host s).
Definition set_host (v : HostState) (s : State) : State :=
  mkState (cells s) (refs s) v.
Definition set_cells (v : Cells) (s : State) : State :=
  mkState v (refs s) (host s).

(** ** Handlers as computations *)

Inductive Outcome (A : Type) : Type :=
| Returned (a : A)
| Thrown.
Arguments Returned {A} a.
Arguments Thrown {A}.

Definition M (A : Type) : Type := Pending -> Outcome A * Pending.

Definition ret {A} (a : A) : M A := fun p => (Returned a, p).

Definition bind {A B} (m : M A) (k : A -> M B) : M B :=
  fun p => match m p with
           | (Returned a, p') => k a p'
           | (Thrown, p') => (Thrown, p')
           end.

Definition throw {A} : M A := fun p => (Thrown, p).

Notation "x <- m ;; k" := (bind m (fun x => k))
  (at level 61, m at next level, right associativity).
Notation "m ;;; k" := (bind m (fun _ => k))
  (at level 61, right associativity).

(** [setX(...)]: the update is queued. *)
Definition enqueue (u : Updater) : M unit :=
  fun p => (Returned tt, mkPending (current p) (queue p ++ [u])).

Definition getState : M State := fun p => (Returned (current p), p).

Definition modifyState (f : State -> State) : M unit :=
  fun p => (Returned tt, mkPending (f (current p)) (queue p)).

(** A pure computation that may throw. *)
Definition orThrow {A} (o : option A) : M A :=
  match o with Some a => ret a | None => throw end.

Section WithHost.

Variable H : Host.

(** [performance.now()] *)
Definition performanceNow : M Q :=
  fun p =>
    let s := current p in
    let hs := host s in
    (Returned (performance_now H (clockReads hs)),
     mkPending
       (set_host (mkHostState (timers hs) (nextTimer hs) (S (clockReads hs)) (generated hs)) s)
       (queue p)).

(** The values one call of [generateTransaction] gets from the host. *)
Definition nextDraw : M Draw :=
  fun p =>
    let s := current p in
    let hs := host s in
    (Returned (draw H (generated hs)),
     mkPending
       (set_host (mkHostState (timers hs) (nextTimer hs) (clockReads hs) (S (generated hs))) s)
       (queue p)).

(** [generateTransaction]: the record is built from what the host gave to
    this call.  [stockSymbols[...]] is read with an index that is in range
    whenever [Math.random()] is in [[0, 1)]. *)
Definition generateTransaction : M Transaction :=
  d <- nextDraw ;;
  ret (transactionOf d).

(** [Array.from({ length: n }, f)] *)
Fixpoint arrayFrom {A} (n : nat) (f : M A) : M (list A) :=
  match n with
  | O => ret []
  | S n' => x <- f ;; xs <- arrayFrom n' f ;; ret (x :: xs)
  end.

(** The value returned by both sorters. *)
Record SortResult : Type := mkSortResult {
  sorted : list Transaction;
  time : Q
}.

(** [radixSort] *)
Definition radixSort (arr : list Transaction) (sortKey : SortKey) : M SortResult :=
  if (length arr <=? 1)%nat then
    enqueue (fun _ _ => set_preprocessedData []) ;;;
    ret {| sorted := arr; time := 0 |}
  else
    startTime <- performanceNow ;;
    let preprocessed := preprocessForRadix arr sortKey in
    enqueue (fun _ _ => set_preprocessedData (firstn 20 preprocessed)) ;;;
    sortedArray <- orThrow (radixCore preprocessed) ;;
    endTime <- performanceNow ;;
    ret {| sorted := sortedArray; time := endTime - startTime |}.

(** [mergeSort] *)
Definition mergeSort (arr : list Transaction) (sortKey : SortKey) : M SortResult :=
  startTime <- performanceNow ;;
  let sorted := sort sortKey arr in
  endTime <- performanceNow ;;
  let actualTime := (endTime - startTime)%Q in
  let demonstrationTime := (actualTime * (5 # 2))%Q in
  ret {| sorted := sorted; time := demonstrationTime |}.

(** [sortTransactions], created in the render [r]: [sortMethod] and
    [sortBy] are the ones of that render. *)
Definition sortTransactions (r : Cells) (data : list Transaction)
  : M (list Transaction) :=
  results <-
    match sortMethod r with
    | Radix =>
        radixResult <- radixSort data (sortBy r) ;;
        mergeResult <- mergeSort data (sortBy r) ;;
        ret (radixResult, mergeResult)
    | Merge =>
        mergeResult <- mergeSort data (sortBy r) ;;
        radixResult <- radixSort data (sortBy r) ;;
        ret (radixResult, mergeResult)
    end ;;
  let '(radixResult, mergeResult) := results in
  enqueue (fun _ _ c =>
    let prev := currentStats c in
    set_currentStats
      {| totalTransactions := totalTransactions prev;
         avgSortTime := avgSortTime prev;
         radixTime := time radixResult;
         mergeTime := time mergeResult |} c) ;;;
  ret (match sortMethod r with
       | Radix => sorted radixResult
       | Merge => sorted mergeResult
       end).

(** [array.slice(-n)] *)
Definition sliceLast {A} (n : nat) (l : list A) : list A :=
  skipn (length l - n) l.

(** The callback given to [setInterval] by the effect of the render [r]. *)
Definition intervalCallback (r : Cells) : M unit :=
  let batchSize := transactionRate r / 10 in
  newTransactions <- arrayFrom (Z.to_nat batchSize) generateTransaction ;;
  modifyState (fun s =>
    set_transactionBuffer (transactionBuffer (refs s) ++ newTransactions) s) ;;;
  s <- getState ;;
  let buffer := transactionBuffer (refs s) in
  if (500 <=? length buffer)%nat then
    let bufferLength := Z.of_nat (length buffer) in
    sorted <- sortTransactions r buffer ;;
    enqueue (fun refs _ c =>
      set_transactions
        (sliceLast 2000 (sliceLast 1000 (transactions c) ++ transactionBuffer refs)) c) ;;;
    enqueue (fun _ _ => set_sortedTransactions (sliceLast 500 sorted)) ;;;
    enqueue (fun _ label c =>
      let prev := currentStats c in
      let newStats :=
        {| totalTransactions := totalTransactions prev + bufferLength;
           avgSortTime := ((radixTime (currentStats r) + mergeTime (currentStats r)) / 2)%Q;
           radixTime := radixTime prev;
           mergeTime := mergeTime prev |} in
      let prevData := performanceData c in
      set_currentStats newStats
        (set_performanceData
           (sliceLast 20 prevData ++
            [ {| Sample.time := label;
                 Sample.radixTime := radixTime (currentStats r);
                 Sample.mergeTime := mergeTime (currentStats r);
                 Sample.transactions := bufferLength;
                 Sample.totalTransactions := totalTransactions newStats |} ])
           c)) ;;;
    modifyState (set_transactionBuffer [])
  else
    enqueue (fun _ _ c =>
      let prev := currentStats c in
      set_currentStats
        {| totalTransactions := totalTransactions prev + batchSize;
           avgSortTime := avgSortTime prev;
           radixTime := radixTime prev;
           mergeTime := mergeTime prev |} c).

End WithHost.

(** ** Commands, renders and the effect *)

Section Machine.

Variable H : Host.

(** [toggleSimulation], created in the render [r]. *)
Definition toggleSimulation (r : Cells) : M unit :=
  enqueue (fun _ _ => set_isRunning (negb (isRunning r))).

(** [clearInterval(h)] *)
Definition clearInterval (h : nat) (s : State) : State :=
  let hs := host s in
  set_host
    (mkHostState (filter (fun t => negb (fst t =? h)%nat) (timers hs))
                 (nextTimer hs) (clockReads hs) (generated hs)) s.

(** [if (intervalRef.current) clearInterval(intervalRef.current)] *)
Definition clearCurrentInterval (s : State) : State :=
  match intervalRef (refs s) with
  | Some h => clearInterval h s
  | None => s
  end.

(** [resetData] *)
Definition resetData : M unit :=
  enqueue (fun _ _ => set_isRunning false) ;;;
  enqueue (fun _ _ => set_transactions []) ;;;
  enqueue (fun _ _ => set_sortedTransactions []) ;;;
  enqueue (fun _ _ => set_performanceData []) ;;;
  enqueue (fun _ _ =>
    set_currentStats
      {| totalTransactions := 0; avgSortTime := 0; radixTime := 0; mergeTime := 0 |}) ;;;
  modifyState (set_transactionBuffer []) ;;;
  modifyState clearCurrentInterval.

(** The dependency list of the effect: [isRunning], [transactionRate],
    [generateTransaction] (never changes), [sortTransactions] (changes with
    [sortMethod] and [sortBy]), [currentStats.radixTime] and
    [currentStats.mergeTime]. *)
Definition sameDeps (a b : Cells) : bool :=
  Bool.eqb (isRunning a) (isRunning b)
  && (transactionRate a =? transactionRate b)
  && match sortMethod a, sortMethod b with
     | Radix, Radix | Merge, Merge => true
     | _, _ => false
     end
  && match sortBy a, sortBy b with
     | Price, Price | Symbol, Symbol | Timestamp, Timestamp => true
     | _, _ => false
     end
  && Qeq_bool (radixTime (currentStats a)) (radixTime (currentStats b))
  && Qeq_bool (mergeTime (currentStats a)) (mergeTime (currentStats b)).

(** The body of the effect, for the render whose cells are in [s]; the
    callback of the interval captures that render. *)
Definition effectBody (s : State) : State :=
  if isRunning (cells s) then
    let hs := host s in
    let h := nextTimer hs in
    set_intervalRef (Some h)
      (set_host (mkHostState ((h, cells s) :: timers hs) (S h)
                             (clockReads hs) (generated hs)) s)
  else clearCurrentInterval s.

(** The function returned by the effect. *)
Definition effectCleanup (s : State) : State := clearCurrentInterval s.

(** The render that follows an event: the queued updates are applied in
    order; when a dependency changed, the effect of the previous render
    is cleaned up and the effect runs again. *)
Definition render (p : Pending) : State :=
  let s := current p in
  let label := toLocaleTimeString H (clockReads (host s)) in
  let c' := fold_left (fun c (u : Updater) => u (refs s) label c) (queue p) (cells s) in
  let s' := set_cells c' s in
  if sameDeps (cells s) c' then s' else effectBody (effectCleanup s').

(** An event: its handler runs, then the component renders.  Updates
    queued before an exception are still applied. *)
Definition dispatch (handler : M unit) (s : State) : State :=
  render (snd (handler (mkPending s []))).

Inductive Event : Type :=
| Toggle
| Reset
| SetSortMethod (m : SortMethod)
| SetSortBy (k : SortKey)
| SetTransactionRate (rate : Z)
| Tick (h : nat).

(** The controls of the page: the two selectors, the rate slider
    ([min="100" max="10000"]), the two buttons; and the interval timers,
    which only fire while they are set. *)
Definition step (e : Event) (s : State) : option State :=
  match e with
  | Toggle => Some (dispatch (toggleSimulation (cells s)) s)
  | Reset => Some (dispatch resetData s)
  | SetSortMethod m => Some (dispatch (enqueue (fun _ _ => set_sortMethod m)) s)
  | SetSortBy k => Some (dispatch (enqueue (fun _ _ => set_sortBy k)) s)
  | SetTransactionRate rate =>
      if (100 <=? rate) && (rate <=? 10000)
      then Some (dispatch (enqueue (fun _ _ => set_transactionRate rate)) s)
      else None
  | Tick h =>
      match find (fun t => (fst t =? h)%nat) (timers (host s)) with
      | Some (_, r) => Some (dispatch (intervalCallback H r) s)
      | None => None
      end
  end.

(** The component when it is mounted. *)
Definition initialCells : Cells :=
  {| isRunning := false;
     transactions := [];
     sortedTransactions := [];
     sortMethod := Radix;
     sortBy := Price;
     transactionRate := 1000;
     performanceData := [];
     preprocessedData := [];
     currentStats :=
       {| totalTransactions := 0; avgSortTime := 0; radixTime := 0; mergeTime := 0 |} |}.

Definition initialState : State :=
  {| cells := initialCells;
     refs := {| intervalRef := None; transactionBuffer := [] |};
     host := {| timers := []; nextTimer := 1; clockReads := 0; generated := 0 |} |}.

Inductive reachable : State -> Prop :=
| reachable_init : reachable initialState
| reachable_step s e s' : reachable s -> step e s = Some s' -> reachable s'.

(** Runs a list of events; [None] when one of them cannot happen. *)
Fixpoint run (es : list Event) (s : State) : option State :=
  match es with
  | [] => Some s
  | e :: es' => match step e s with Some s' => run es' s' | None => None end
  end.

End Machine.

(** ** The earlier variant of the component

    It differs in [parallelRadixSort] (no preview of the encoded items),
    in [mergeSort] (no amplification), and in the interval callback (flush
    at 100, statistics computed from [prev]). *)
Module Earlier.
Section WithHost.

Variable H : Host.

Definition parallelRadixSort (arr : list Transaction) (sortKey : SortKey) : M SortResult :=
  if (length arr <=? 1)%nat then ret {| sorted := arr; time := 0 |}
  else
    startTime <- performanceNow H ;;
    let preprocessed := preprocessForRadix arr sortKey in
    sortedArray <- orThrow (radixCore preprocessed) ;;
    endTime <- performanceNow H ;;
    ret {| sorted := sortedArray; time := endTime - startTime |}.

Definition mergeSort (arr : list Transaction) (sortKey : SortKey) : M SortResult :=
  startTime <- performanceNow H ;;
  let sorted := sort sortKey arr in
  endTime <- performanceNow H ;;
  ret {| sorted := sorted; time := endTime - startTime |}.

Definition sortTransactions (r : Cells) (data : list Transaction)
  : M (list Transaction) :=
  results <-
    match sortMethod r with
    | Radix =>
        radixResult <- parallelRadixSort data (sortBy r) ;;
        mergeResult <- mergeSort data (sortBy r) ;;
        ret (radixResult, mergeResult)
    | Merge =>
        mergeResult <- mergeSort data (sortBy r) ;;
        radixResult <- parallelRadixSort data (sortBy r) ;;
        ret (radixResult, mergeResult)
    end ;;
  let '(radixResult, mergeResult) := results in
  enqueue (fun _ _ c =>
    let prev := currentStats c in
    set_currentStats
      {| totalTransactions := totalTransactions prev;
         avgSortTime := avgSortTime prev;
         radixTime := time radixResult;
         mergeTime := time mergeResult |} c) ;;;
  ret (match sortMethod r with
       | Radix => sorted radixResult
       | Merge => sorted mergeResult
       end).

Definition intervalCallback (r : Cells) : M unit :=
  let batchSize := transactionRate r / 10 in
  newTransactions <- arrayFrom (Z.to_nat batchSize) (generateTransaction H) ;;
  modifyState (fun s =>
    set_transactionBuffer (transactionBuffer (refs s) ++ newTransactions) s) ;;;
  s <- getState ;;
  let buffer := transactionBuffer (refs s) in
  if (100 <=? length buffer)%nat then
    let bufferLength := Z.of_nat (length buffer) in
    sorted <- sortTransactions r buffer ;;
    enqueue (fun refs _ c =>
      set_transactions
        (sliceLast 2000 (sliceLast 1000 (transactions c) ++ transactionBuffer refs)) c) ;;;
    enqueue (fun _ _ => set_sortedTransactions (sliceLast 500 sorted)) ;;;
    enqueue (fun _ label c =>
      let prev := currentStats c in
      let newStats :=
        {| totalTransactions := totalTransactions prev + bufferLength;
           avgSortTime := ((radixTime prev + mergeTime prev) / 2)%Q;
           radixTime := radixTime prev;
           mergeTime := mergeTime prev |} in
      let prevData := performanceData c in
      set_currentStats newStats
        (set_performanceData
           (sliceLast 20 prevData ++
            [ {| Sample.time := label;
                 Sample.radixTime := radixTime prev;
                 Sample.mergeTime := mergeTime prev;
                 Sample.transactions := bufferLength;
                 Sample.totalTransactions := totalTransactions newStats |} ])
           c)) ;;;
    modifyState (set_transactionBuffer [])
  else
    enqueue (fun _ _ c =>
      let prev := currentStats c in
      set_currentStats
        {| totalTransactions := totalTransactions prev + batchSize;
           avgSortTime := avgSortTime prev;
           radixTime := radixTime prev;
           mergeTime := mergeTime prev |} c).

End WithHost.
End Earlier.

(** * Vocabulary of the properties *)

(** ** Orders and stability *)

(** A number is a double when rounding leaves it as it is. *)
Definition isDouble (x : Q) : Prop := (round64 x == x)%Q.

(** The function folded over the characters of a symbol. *)
Definition encodeStep (acc : Z) (char : ascii) : Z :=
  round64Z (round64Z (acc * 256) + charCodeAt0 char).

(** The characters read as the digits of a number in base 256, without
    any rounding. *)
Definition base256Step (acc : Z) (char : ascii) : Z := acc * 256 + charCodeAt0 char.

Definition base256 (s : string) : Z :=
  fold_left base256Step (list_ascii_of_string s) 0.

(** [fieldLe] as a relation. *)
Definition fieldOrder (sortKey : SortKey) (a b : Transaction) : Prop :=
  fieldLe sortKey a b = true.

(** The two transactions have the same value in the field. *)
Definition sameField (sortKey : SortKey) (a b : Transaction) : bool :=
  match sortKey with
  | Price => Qeq_bool (price a) (price b)
  | Symbol => String.eqb (symbol a) (symbol b)
  | Timestamp => timestamp a =? timestamp b
  end.

(** The digit is the index of one of the ten buckets. *)
Definition digitInRange (divisor : Q) (item : Transaction) : Prop :=
  0 <= digitValueOf divisor item < 10.

(** What a pass computes: for each digit in turn, the items with that
    digit, in the order they had. *)
Definition byDigit (divisor : Q) (items : list Transaction) : list Transaction :=
  flat_map
    (fun j => filter (fun item => digitValueOf divisor item =? Z.of_nat j) items)
    (seq 0 10).

(** The key without its digits from position [k] on. *)
Definition lowKey (k : nat) (item : Transaction) : Z :=
  sortKeyOr0 item mod 10 ^ Z.of_nat k.

(** The order of the [k] lowest digits of the keys. *)
Definition lowOrder (k : nat) (a b : Transaction) : Prop := lowKey k a <= lowKey k b.

(** The order of the encoded keys. *)
Definition keyOrder (a b : Transaction) : Prop := sortKeyOr0 a <= sortKeyOr0 b.

(** The key is not negative. *)
Definition keyNonneg (item : Transaction) : Prop := 0 <= sortKeyOr0 item.

(** The key is not negative and below 2^53: up to there every integer is
    a double, and the quotients of the digit extraction have the integer
    part of the exact quotient. *)
Definition keySmall (item : Transaction) : Prop := 0 <= sortKeyOr0 item < 2 ^ 53.

(** Stability: the items selected by [P], when they all have one key,
    come out in the order they came in. *)
Definition keyStable (out l : list Transaction) : Prop :=
  forall (P : Transaction -> bool) (v : Z),
    (forall x, In x l -> P x = true -> sortKeyOr0 x = v) ->
    filter P out = filter P l.

(** The fields of a transaction other than [sortKey]. *)
Definition payload (t : Transaction) : string * string * Q * Z * string :=
  (id t, symbol t, price t, timestamp t, displayTime t).

(** The order of the keys computed by the encoder. *)
Definition encodedOrder (k : SortKey) (a b : Transaction) : Prop :=
  encode k a <= encode k b.

(** Where the order of the encoded keys is the order of the field: always
    for the timestamp; for the prices when no two different prices have
    one key; for the symbols when they have one length, of at most six
    characters (the key of a longer symbol is rounded). *)
Definition encodedExactly (k : SortKey) (arr : list Transaction) : Prop :=
  match k with
  | Timestamp => True
  | Price =>
      forall a b, In a arr -> In b arr ->
                  encode Price a = encode Price b -> (price a == price b)%Q
  | Symbol =>
      forall a b, In a arr -> In b arr ->
                  String.length (symbol a) = String.length (symbol b)
                  /\ (String.length (symbol a) <= 6)%nat
  end.

(** ** The clock and the results of the sorters *)

(** The [n]-th reading of the clock from the state [p] on. *)
Definition readingAt (H : Host) (p : Pending) (n : nat) : Q :=
  performance_now H (n + clockReads (host (current p))).

(** The state [p] after [n] more readings of the clock. *)
Definition afterReads (n : nat) (p : Pending) : Pending :=
  let s := current p in
  let hs := host s in
  mkPending
    (set_host (mkHostState (timers hs) (nextTimer hs) (n + clockReads hs) (generated hs)) s)
    (queue p).

(** What a computation returned, if it returned. *)
Definition returned {A} (x : Outcome A * Pending) : option A :=
  match fst x with Returned a => Some a | Thrown => None end.

(** ** Inputs of the examples *)

(** A host for the examples: the clock advances by one millisecond at
    each reading, the draws walk through the symbols and some prices; the
    values of [Math.random()] are the doubles nearest to tenths, to
    hundredths and to a third. *)
Definition demoDraw (n : nat) : Draw :=
  {| randSymbol := round64 ((Z.of_nat n mod 10) # 10);
     randPrice := round64 (((Z.of_nat n * 37) mod 100) # 100);
     randJitter := round64 (1 # 3);
     randId := "tx";
     dateNow := 1700000000000 + Z.of_nat n;
     localeTime := "10:00:00" |}.

Definition demoHost : Host :=
  {| performance_now := fun n => inject_Z (Z.of_nat n);
     draw := demoDraw;
     toLocaleTimeString := fun _ => "10:00:00"%string |}.

(** The component as mounted, with no update queued. *)
Definition start : Pending := mkPending initialState [].

(** Three transactions, two of them with the price 100.00. *)
Definition priceBatch : list Transaction :=
  [ mkTransaction "a" "AAPL" 100 30 "10:00:00" None;
    mkTransaction "b" "MSFT" 50 20 "10:00:00" None;
    mkTransaction "c" "AAPL" 100 10 "10:00:01" None ].

(** Two prices that differ in their third decimal, 100.002 and 100.001. *)
Definition fineBatch : list Transaction :=
  [ mkTransaction "a" "AAPL" (round64 (100002 # 1000)) 30 "10:00:00" None;
    mkTransaction "b" "AAPL" (round64 (100001 # 1000)) 20 "10:00:00" None ].

(** The prices 64.07 and 64.06, as the doubles nearest to them. *)
Definition centBatch : list Transaction :=
  [ mkTransaction "a" "AAPL" (round64 (6407 # 100)) 30 "10:00:00" None;
    mkTransaction "b" "AAPL" (round64 (6406 # 100)) 20 "10:00:00" None ].

(** Two timestamps in nanoseconds, as [generateTransaction] makes them:
    two doubles next to each other above 2^53. *)
Definition nanoBatch : list Transaction :=
  [ mkTransaction "a" "AAPL" 100 1700000000000005888 "10:00:00" None;
    mkTransaction "b" "AAPL" 100 1700000000000006144 "10:00:00" None ].


(** Start, rate 5000 (a batch of 500 per tick), one tick: the first pass.
    The timer of the first effect has the handle 1, the one set when the
    rate changed has the handle 2. *)
Definition afterFirstFlush : list Event := [Toggle; SetTransactionRate 5000; Tick 2].

(** ** The host and the ticks *)

(** What the host gives is what the browser gives: [Math.random()] is in
    [[0, 1)] and [Date.now()] is not negative. *)
Definition validDraw (d : Draw) : Prop :=
  (0 <= randSymbol d)%Q /\ (randSymbol d < 1)%Q
  /\ (0 <= randPrice d)%Q /\ (randPrice d < 1)%Q
  /\ (0 <= randJitter d)%Q /\ (randJitter d < 1)%Q
  /\ 0 <= dateNow d.

(** Every draw of the host is valid. *)
Definition validHost (H : Host) : Prop := forall n, validDraw (draw H n).

(** The [n] transactions generated from the state [s] on. *)
Definition batchOf (H : Host) (s : State) (n : nat) : list Transaction :=
  map (fun i => transactionOf (draw H i)) (seq (generated (host s)) n).

(** The state [s] after [n] more draws. *)
Definition afterDraws (n : nat) (s : State) : State :=
  let hs := host s in
  set_host (mkHostState (timers hs) (nextTimer hs) (clockReads hs) (n + generated hs)) s.

(** The buffer once the tick has appended its batch. *)
Definition bufferAfter (H : Host) (r : Cells) (s : State) : list Transaction :=
  transactionBuffer (refs s) ++ batchOf H s (Z.to_nat (transactionRate r / 10)).

(** The state once the tick has appended its batch. *)
Definition afterBatch (H : Host) (r : Cells) (s : State) : State :=
  set_transactionBuffer (bufferAfter H r s)
    (afterDraws (Z.to_nat (transactionRate r / 10)) s).

(** The durations [sortTransactions] obtains for the radix sorter and for
    the merge sorter: the sorter chosen for display runs first. *)
Definition passTimes (H : Host) (m : SortMethod) (p : Pending) : Q * Q :=
  match m with
  | Radix => ((readingAt H p 1 - readingAt H p 0)%Q,
              ((readingAt H p 3 - readingAt H p 2) * (5 # 2))%Q)
  | Merge => ((readingAt H p 3 - readingAt H p 2)%Q,
              ((readingAt H p 1 - readingAt H p 0) * (5 # 2))%Q)
  end.

(** The update of [currentStats] queued by [sortTransactions]. *)
Definition statsOfPass (tr tm : Q) : Updater :=
  fun _ _ c =>
    let prev := currentStats c in
    set_currentStats
      {| totalTransactions := totalTransactions prev;
         avgSortTime := avgSortTime prev;
         radixTime := tr;
         mergeTime := tm |} c.

(** The update queued by a tick that does not flush. *)
Definition smallUpdate (batchSize : Z) : Updater :=
  fun _ _ c =>
    let prev := currentStats c in
    set_currentStats
      {| totalTransactions := totalTransactions prev + batchSize;
         avgSortTime := avgSortTime prev;
         radixTime := radixTime prev;
         mergeTime := mergeTime prev |} c.

(** The update of the statistics and of the history queued by a tick
    that flushes; [r] is the render that created the callback. *)
Definition flushUpdate (r : Cells) (bufferLength : Z) : Updater :=
  fun _ label c =>
    let prev := currentStats c in
    let newStats :=
      {| totalTransactions := totalTransactions prev + bufferLength;
         avgSortTime := ((radixTime (currentStats r) + mergeTime (currentStats r)) / 2)%Q;
         radixTime := radixTime prev;
         mergeTime := mergeTime prev |} in
    set_currentStats newStats
      (set_performanceData
         (sliceLast 20 (performanceData c) ++
          [ {| Sample.time := label;
               Sample.radixTime := radixTime (currentStats r);
               Sample.mergeTime := mergeTime (currentStats r);
               Sample.transactions := bufferLength;
               Sample.totalTransactions := totalTransactions newStats |} ])
         c).

(** ** Renders and reachable states *)

(** The cells after the render: the queued updates, applied in order. *)
Definition renderedCells (H : Host) (p : Pending) : Cells :=
  fold_left
    (fun c (u : Updater) =>
       u (refs (current p)) (toLocaleTimeString H (clockReads (host (current p)))) c)
    (queue p) (cells (current p)).

(** The timers that are set: none, or the one the effect of a render
    with the same dependencies has set while the simulation runs. *)
Definition timersOk (s : State) : Prop :=
  match timers (host s) with
  | [] => True
  | [(h, r)] =>
      intervalRef (refs s) = Some h
      /\ sameDeps r (cells s) = true
      /\ isRunning (cells s) = true
  | _ => False
  end.

(** A transaction whose keys are not negative, whatever the sort field. *)
Definition goodTransaction (t : Transaction) : Prop :=
  (0 <= price t)%Q /\ 0 <= timestamp t.

(** The cells after a tick that flushes the buffer [buffer], when the
    sorter chosen for display returned [out] and the pass measured [tr]
    and [tm]. *)
Definition flushedCells (r : Cells) (label : string) (buffer out : list Transaction)
    (tr tm : Q) (c : Cells) : Cells :=
  let total := totalTransactions (currentStats c) + Z.of_nat (length buffer) in
  {| isRunning := isRunning c;
     transactions := sliceLast 2000 (sliceLast 1000 (transactions c) ++ []);
     sortedTransactions := sliceLast 500 out;
     sortMethod := sortMethod c;
     sortBy := sortBy c;
     transactionRate := transactionRate c;
     performanceData :=
       sliceLast 20 (performanceData c) ++
       [ {| Sample.time := label;
            Sample.radixTime := radixTime (currentStats r);
            Sample.mergeTime := mergeTime (currentStats r);
            Sample.transactions := Z.of_nat (length buffer);
            Sample.totalTransactions := total |} ];
     preprocessedData := firstn 20 (preprocessForRadix buffer (sortBy r));
     currentStats :=
       {| totalTransactions := total;
          avgSortTime := (radixTime (currentStats r) + mergeTime (currentStats r)) / 2;
          radixTime := tr;
          mergeTime := tm |} |}.

(** What holds in every reachable state of a valid host: the timers are
    the ones of the effect, the rate is in the range of the slider, the
    buffered transactions have keys that are not negative, and the
    history holds at most 21 samples. *)
Definition Inv (s : State) : Prop :=
  timersOk s
  /\ 100 <= transactionRate (cells s) <= 10000
  /\ Forall goodTransaction (transactionBuffer (refs s))
  /\ (length (performanceData (cells s)) <= 21)%nat.

(** The two durations recorded by a sample. *)
Definition sampleDurations (x : Sample.t) : Q * Q :=
  (Sample.radixTime x, Sample.mergeTime x).

(** ** Vocabulary of the further properties *)

(** [a] has a price that is not above the one of [b], or the two prices
    have one key. *)
Definition priceOrKey (a b : Transaction) : Prop :=
  (price a <= price b)%Q \/ encode Price a = encode Price b.

(** The values of [Math.random()] are doubles. *)
Definition doubleDraw (d : Draw) : Prop :=
  isDouble (randSymbol d) /\ isDouble (randPrice d) /\ isDouble (randJitter d).

(** A host whose draws are doubles: sixteenths and the like. *)
Definition dyadicDraw (n : nat) : Draw :=
  {| randSymbol := (Z.of_nat n mod 16) # 16;
     randPrice := ((Z.of_nat n * 37) mod 128) # 128;
     randJitter := 1 # 4;
     randId := "tx";
     dateNow := 1700000000001 + Z.of_nat n;
     localeTime := "10:00:00" |}.

Definition dyadicHost : Host :=
  {| performance_now := fun n => inject_Z (Z.of_nat n);
     draw := dyadicDraw;
     toLocaleTimeString := fun _ => "10:00:00"%string |}.

(** The clock never goes back. *)
Definition monotoneClock (H : Host) : Prop :=
  forall n, (performance_now H n <= performance_now H (S n))%Q.

(** The sizes the component keeps, and the cell it never fills. *)
Definition Bounded (s : State) : Prop :=
  (length (transactionBuffer (refs s)) < 500)%nat
  /\ (length (sortedTransactions (cells s)) <= 500)%nat
  /\ (length (preprocessedData (cells s)) <= 20)%nat
  /\ transactions (cells s) = []
  /\ 0 <= totalTransactions (currentStats (cells s)).

(** The durations in the statistics are not negative. *)
Definition durationsNonneg (c : Cells) : Prop :=
  (0 <= radixTime (currentStats c))%Q
  /\ (0 <= mergeTime (currentStats c))%Q
  /\ (0 <= avgSortTime (currentStats c))%Q.

(** The durations the earlier variant obtains for the radix sorter and
    for the merge sorter: the sorter chosen for display runs first, and
    nothing is amplified. *)
Definition earlierPassTimes (H : Host) (m : SortMethod) (p : Pending) : Q * Q :=
  match m with
  | Radix => ((readingAt H p 1 - readingAt H p 0)%Q, (readingAt H p 3 - readingAt H p 2)%Q)
  | Merge => ((readingAt H p 3 - readingAt H p 2)%Q, (readingAt H p 1 - readingAt H p 0)%Q)
  end.

(** The last updater of a flushing tick of the earlier variant: it reads
    the durations from the statistics it is applied to. *)
Definition earlierFlushUpdate (bufferLength : Z) : Updater :=
  fun _ label c =>
    let prev := currentStats c in
    let newStats :=
      {| totalTransactions := totalTransactions prev + bufferLength;
         avgSortTime := ((radixTime prev + mergeTime prev) / 2)%Q;
         radixTime := radixTime prev;
         mergeTime := mergeTime prev |} in
    let prevData := performanceData c in
    set_currentStats newStats
      (set_performanceData
         (sliceLast 20 prevData ++
          [ {| Sample.time := label;
               Sample.radixTime := radixTime prev;
               Sample.mergeTime := mergeTime prev;
               Sample.transactions := bufferLength;
               Sample.totalTransactions := totalTransactions newStats |} ])
         c).

(** * Properties *)

(** ** The sorters on small inputs *)

Example sort_demo :
  map timestamp
    (sort Timestamp
       (map (fun t => mkTransaction "" "" 0 t "" None) [5; 3; 9; 1; 3; 0]))
  = [0; 1; 3; 3; 5; 9].
Proof. vm_compute. reflexivity. Qed.

Example radix_demo :
  option_map (map timestamp)
    (radixCore (preprocessForRadix
       (map (fun t => mkTransaction "" "" 0 t "" None) [51; 3; 907; 1; 3; 0]) Timestamp))
  = Some [0; 1; 3; 3; 51; 907].
Proof. vm_compute. reflexivity. Qed.

(** ** Doubles *)

Lemma inject_Z_sub (a b : Z) : (inject_Z (a - b) == inject_Z a - inject_Z b)%Q.
Proof. unfold Z.sub. rewrite inject_Z_plus, inject_Z_opp. reflexivity. Qed.

(** *** Powers of two *)

Lemma pow2_pos (e : Z) : (0 < 2 ^ e)%Q.
Proof. apply Qpower_0_lt. reflexivity. Qed.

Lemma pow2_add (a b : Z) : (2 ^ (a + b) == 2 ^ a * 2 ^ b)%Q.
Proof. apply Qpower_plus. discriminate. Qed.

Lemma pow2_le (a b : Z) : a <= b -> (2 ^ a <= 2 ^ b)%Q.
Proof. intros Hab. apply Qpower_le_compat_l; [exact Hab | discriminate]. Qed.

Lemma pow2_lt (a b : Z) : a < b -> (2 ^ a < 2 ^ b)%Q.
Proof. intros Hab. apply Qpower_lt_compat_l; [exact Hab | reflexivity]. Qed.

Lemma pow2_Z (a : Z) : 0 <= a -> (2 ^ a == inject_Z (2 ^ a))%Q.
Proof. intros Ha. rewrite Zpower_Qpower by exact Ha. reflexivity. Qed.

Lemma pow2_succ (a : Z) : (2 ^ (a + 1) == 2 * 2 ^ a)%Q.
Proof. rewrite pow2_add. change (2 ^ 1)%Q with 2%Q. ring. Qed.

Lemma pow2_cancel (a : Z) : (2 ^ a * 2 ^ (- a) == 1)%Q.
Proof. rewrite <- pow2_add. replace (a + - a) with 0 by lia. reflexivity. Qed.

(** *** The exponent of a number *)

Lemma ilog2_spec (x : Q) :
  (0 < x)%Q -> (2 ^ ilog2 x <= x)%Q /\ (x < 2 ^ (ilog2 x + 1))%Q.
Proof.
  intros Hx. destruct x as [n d]. unfold ilog2. cbn [Qnum Qden].
  assert (Hn : 0 < n) by (unfold Qlt in Hx; cbn in Hx; lia).
  set (ln := Z.log2 n). set (ld := Z.log2 (Zpos d)).
  assert (Hln : 2 ^ ln <= n < 2 ^ (ln + 1)) by (apply Z.log2_spec; exact Hn).
  assert (Hld : 2 ^ ld <= Zpos d < 2 ^ (ld + 1)) by (apply Z.log2_spec; lia).
  assert (Hln0 : 0 <= ln) by apply Z.log2_nonneg.
  assert (Hld0 : 0 <= ld) by apply Z.log2_nonneg.
  assert (Hx' : (n # d == inject_Z n / inject_Z (Zpos d))%Q) by apply Qmake_Qdiv.
  assert (Hd : (0 < inject_Z (Zpos d))%Q) by (rewrite <- (Zlt_Qlt 0); lia).
  assert (Hn' : (inject_Z (2 ^ ln) <= inject_Z n)%Q /\ (inject_Z n + 1 <= inject_Z (2 ^ (ln + 1)))%Q).
  { change 1%Q with (inject_Z 1). rewrite <- inject_Z_plus, <- !Zle_Qle. lia. }
  assert (Hd' : (inject_Z (2 ^ ld) <= inject_Z (Zpos d))%Q
                /\ (inject_Z (Zpos d) + 1 <= inject_Z (2 ^ (ld + 1)))%Q).
  { change 1%Q with (inject_Z 1). rewrite <- inject_Z_plus, <- !Zle_Qle. lia. }
  rewrite <- !pow2_Z in Hn', Hd' by lia.
  assert (Hup : (n # d < 2 ^ (ln - ld + 1))%Q).
  { rewrite Hx'. apply Qlt_shift_div_r; [exact Hd|].
    assert (E : (2 ^ (ln - ld + 1) * 2 ^ ld == 2 ^ (ln + 1))%Q)
      by (rewrite <- pow2_add; replace (ln - ld + 1 + ld) with (ln + 1) by lia; reflexivity).
    pose proof (pow2_pos (ln - ld + 1)). pose proof (pow2_pos ld).
    set (A := (2 ^ (ln - ld + 1))%Q) in *. set (B := (2 ^ ld)%Q) in *.
    set (C := (2 ^ (ln + 1))%Q) in *. set (D := inject_Z (Zpos d)) in *.
    set (N := inject_Z n) in *. nra. }
  assert (Hlow : (2 ^ (ln - ld - 1) <= n # d)%Q).
  { rewrite Hx'. apply Qle_shift_div_l; [exact Hd|].
    assert (E : (2 ^ (ln - ld - 1) * 2 ^ (ld + 1) == 2 ^ ln)%Q)
      by (rewrite <- pow2_add; replace (ln - ld - 1 + (ld + 1)) with ln by lia; reflexivity).
    pose proof (pow2_pos (ln - ld - 1)). pose proof (pow2_pos (ld + 1)).
    set (A := (2 ^ (ln - ld - 1))%Q) in *. set (B := (2 ^ (ld + 1))%Q) in *.
    set (C := (2 ^ ln)%Q) in *. set (D := inject_Z (Zpos d)) in *.
    set (N := inject_Z n) in *. nra. }
  destruct (Qle_bool (2 ^ (ln - ld)) (n # d)) eqn:Hk.
  - apply Qle_bool_iff in Hk. split; assumption.
  - assert (Hlt : (n # d < 2 ^ (ln - ld))%Q).
    { apply Qnot_le_lt. intros Hle. apply Qle_bool_iff in Hle. congruence. }
    replace (ln - ld - 1 + 1) with (ln - ld) by lia. split; assumption.
Qed.

Lemma ilog2_unique (x : Q) (k : Z) :
  (2 ^ k <= x)%Q -> (x < 2 ^ (k + 1))%Q -> ilog2 x = k.
Proof.
  intros Hlo Hhi.
  assert (Hx : (0 < x)%Q) by (pose proof (pow2_pos k); lra).
  destruct (ilog2_spec x Hx) as [Hl Hh].
  destruct (Z.lt_trichotomy (ilog2 x) k) as [L|[E|G]]; [|exact E|].
  - pose proof (pow2_le (ilog2 x + 1) k ltac:(lia)). lra.
  - pose proof (pow2_le (k + 1) (ilog2 x) ltac:(lia)). lra.
Qed.

Lemma ilog2_compat (x y : Q) : (0 < x)%Q -> (x == y)%Q -> ilog2 x = ilog2 y.
Proof.
  intros Hx E. symmetry. destruct (ilog2_spec x Hx) as [Hl Hh].
  apply ilog2_unique; rewrite <- E; assumption.
Qed.

Lemma ilog2_mono (x y : Q) : (0 < x)%Q -> (x <= y)%Q -> ilog2 x <= ilog2 y.
Proof.
  intros Hx Hxy.
  destruct (ilog2_spec x Hx) as [Hl _].
  destruct (ilog2_spec y ltac:(lra)) as [_ Hh].
  destruct (Z.le_gt_cases (ilog2 x) (ilog2 y)) as [L|G]; [exact L|].
  pose proof (pow2_le (ilog2 y + 1) (ilog2 x) ltac:(lia)). lra.
Qed.

(** *** Rounding to an integer *)

Lemma Qfloor_unique (y : Q) (f : Z) :
  (inject_Z f <= y)%Q -> (y < inject_Z f + 1)%Q -> Qfloor y = f.
Proof.
  intros Hlo Hhi. pose proof (Qfloor_le y) as H1. pose proof (Qlt_floor y) as H2.
  rewrite inject_Z_plus in H2. change (inject_Z 1) with 1%Q in H2.
  assert (L1 : (inject_Z f < inject_Z (Qfloor y) + 1)%Q) by lra.
  assert (L2 : (inject_Z (Qfloor y) < inject_Z f + 1)%Q) by lra.
  change 1%Q with (inject_Z 1) in L1, L2. rewrite <- inject_Z_plus, <- Zlt_Qlt in L1, L2.
  lia.
Qed.

Lemma roundHalfEven_cases (y : Q) :
  let f := Qfloor y in
  ((y - inject_Z f < 1 # 2)%Q /\ roundHalfEven y = f)
  \/ ((1 # 2 < y - inject_Z f)%Q /\ roundHalfEven y = f + 1)
  \/ ((y - inject_Z f == 1 # 2)%Q
      /\ roundHalfEven y = (if Z.even f then f else f + 1)).
Proof.
  intros f. unfold roundHalfEven. fold f.
  destruct (Qcompare_spec (y - inject_Z f) (1 # 2)) as [E|L|G]; auto.
Qed.

Lemma roundHalfEven_close (y : Q) :
  (inject_Z (roundHalfEven y) - (1 # 2) <= y)%Q
  /\ (y <= inject_Z (roundHalfEven y) + (1 # 2))%Q.
Proof.
  pose proof (Qfloor_le y) as H1. pose proof (Qlt_floor y) as H2.
  rewrite inject_Z_plus in H2. change (inject_Z 1) with 1%Q in H2.
  destruct (roundHalfEven_cases y) as [[L ->]|[[G ->]|[E ->]]].
  - lra.
  - rewrite inject_Z_plus. change (inject_Z 1) with 1%Q. lra.
  - destruct (Z.even (Qfloor y)); [lra|].
    rewrite inject_Z_plus. change (inject_Z 1) with 1%Q. lra.
Qed.

Lemma roundHalfEven_compat (y y' : Q) : (y == y')%Q -> roundHalfEven y = roundHalfEven y'.
Proof.
  intros E. unfold roundHalfEven. rewrite <- (Qfloor_comp _ _ E).
  assert (E' : (y - inject_Z (Qfloor y) ?= 1 # 2)%Q = (y' - inject_Z (Qfloor y) ?= 1 # 2)%Q)
    by (apply Qcompare_comp; [apply Qplus_comp; [exact E | reflexivity] | reflexivity]).
  rewrite E'. reflexivity.
Qed.

Lemma roundHalfEven_Z (y : Q) (n : Z) : (y == inject_Z n)%Q -> roundHalfEven y = n.
Proof.
  intros E. rewrite (roundHalfEven_compat _ _ E). unfold roundHalfEven.
  rewrite Qfloor_Z.
  destruct (Qcompare_spec (inject_Z n - inject_Z n) (1 # 2)) as [E'|L|G];
    [exfalso; lra | reflexivity | exfalso; lra].
Qed.

Lemma roundHalfEven_mono (y y' : Q) : (y <= y')%Q -> roundHalfEven y <= roundHalfEven y'.
Proof.
  intros Hyy'. pose proof (Qfloor_resp_le _ _ Hyy') as Hf.
  pose proof (roundHalfEven_cases y) as C. pose proof (roundHalfEven_cases y') as C'.
  cbn zeta in C, C'.
  destruct (Z.eq_dec (Qfloor y) (Qfloor y')) as [E|N].
  - rewrite <- E in C'.
    destruct C as [[L ->]|[[G ->]|[T ->]]]; destruct C' as [[L' ->]|[[G' ->]|[T' ->]]];
      try lia; try lra; destruct (Z.even (Qfloor y)); try lia; lra.
  - assert (Qfloor y + 1 <= Qfloor y') by lia.
    destruct C as [[L ->]|[[G ->]|[T ->]]]; destruct C' as [[L' ->]|[[G' ->]|[T' ->]]];
      try lia; destruct (Z.even (Qfloor y)); destruct (Z.even (Qfloor y')); lia.
Qed.

Lemma roundHalfEven_opp (y : Q) : roundHalfEven (- y) = - roundHalfEven y.
Proof.
  pose proof (Qfloor_le y) as H1. pose proof (Qlt_floor y) as H2.
  rewrite inject_Z_plus in H2. change (inject_Z 1) with 1%Q in H2.
  set (f := Qfloor y) in *.
  destruct (Qeq_dec y (inject_Z f)) as [E|N].
  - rewrite (roundHalfEven_Z y f E). apply roundHalfEven_Z.
    rewrite E, inject_Z_opp. reflexivity.
  - assert (Hf' : Qfloor (- y) = - f - 1).
    { assert (inject_Z f < y)%Q
        by (apply Qle_lteq in H1 as [L|E]; [exact L|]; exfalso; apply N; symmetry; exact E).
      apply Qfloor_unique; rewrite inject_Z_sub, inject_Z_opp;
        change (inject_Z 1) with 1%Q; lra. }
    pose proof (roundHalfEven_cases y) as C. pose proof (roundHalfEven_cases (- y)) as C'.
    cbn zeta in C, C'. fold f in C. rewrite Hf' in C'.
    rewrite inject_Z_sub, inject_Z_opp in C'.
    change (inject_Z 1) with 1%Q in C'.
    assert (Hev : Z.even (- f - 1) = negb (Z.even f)).
    { replace (- f - 1) with (- (f + 1)) by lia. rewrite Z.even_opp.
      replace (f + 1) with (Z.succ f) by lia. rewrite Z.even_succ, <- Z.negb_even.
      reflexivity. }
    rewrite Hev in C'.
    destruct C as [[L ->]|[[G ->]|[T ->]]]; destruct C' as [[L' ->]|[[G' ->]|[T' ->]]];
      try lia; try lra; destruct (Z.even f); cbn [negb]; lia.
Qed.

(** *** Rounding to a double *)

Lemma Qdiv_pow2 (x : Q) (e : Z) : (x / 2 ^ e == x * 2 ^ (- e))%Q.
Proof. unfold Qdiv. rewrite Qpower_opp. reflexivity. Qed.

Lemma Qabs_pos_iff (x : Q) : ~ (x == 0)%Q -> (0 < Qabs x)%Q.
Proof.
  intros N. apply Qabs_case; intros Hx.
  - apply Qle_lteq in Hx as [L|E]; [exact L | exfalso; apply N; symmetry; exact E].
  - apply Qle_lteq in Hx as [L|E]; [lra | exfalso; apply N; exact E].
Qed.

Lemma ulpExponent_compat (x y : Q) :
  ~ (x == 0)%Q -> (x == y)%Q -> ulpExponent x = ulpExponent y.
Proof.
  intros N E. unfold ulpExponent.
  rewrite (ilog2_compat (Qabs x) (Qabs y)); [reflexivity | apply Qabs_pos_iff; exact N |].
  rewrite E. reflexivity.
Qed.

Lemma round64_zero (x : Q) : (x == 0)%Q -> round64 x = 0%Q.
Proof. intros E. unfold round64. apply Qeq_bool_iff in E. rewrite E. reflexivity. Qed.

Lemma round64_nonzero (x : Q) :
  ~ (x == 0)%Q ->
  round64 x = (inject_Z (roundHalfEven (x / 2 ^ ulpExponent x)) * 2 ^ ulpExponent x)%Q.
Proof.
  intros N. unfold round64.
  destruct (Qeq_bool x 0) eqn:E; [apply Qeq_bool_iff in E; contradiction | reflexivity].
Qed.

Lemma round64_compat (x y : Q) : (x == y)%Q -> round64 x = round64 y.
Proof.
  intros E. destruct (Qeq_dec x 0) as [Z|N].
  - rewrite (round64_zero x Z). rewrite round64_zero; [reflexivity|]. rewrite <- E. exact Z.
  - rewrite (round64_nonzero x N), (round64_nonzero y) by (rewrite <- E; exact N).
    rewrite <- (ulpExponent_compat x y N E).
    set (e := ulpExponent x).
    rewrite (roundHalfEven_compat (x / 2 ^ e) (y / 2 ^ e)); [reflexivity|].
    rewrite E. reflexivity.
Qed.

#[global] Instance round64_Proper : Proper (Qeq ==> Qeq) round64.
Proof. intros x y E. rewrite (round64_compat x y E). reflexivity. Qed.

(** The value is between the multiples of the unit that surround [x]. *)
Lemma round64_above (x : Q) (m : Z) :
  ~ (x == 0)%Q ->
  (inject_Z m * 2 ^ ulpExponent x <= x)%Q ->
  (inject_Z m * 2 ^ ulpExponent x <= round64 x)%Q.
Proof.
  intros N Hm. rewrite (round64_nonzero x N).
  set (e := ulpExponent x) in *. pose proof (pow2_pos e) as He.
  apply Qmult_le_compat_r; [|lra]. rewrite <- Zle_Qle.
  rewrite <- (roundHalfEven_Z (inject_Z m) m) by reflexivity.
  apply roundHalfEven_mono. apply Qle_shift_div_l; assumption.
Qed.

Lemma round64_below (x : Q) (m : Z) :
  ~ (x == 0)%Q ->
  (x <= inject_Z m * 2 ^ ulpExponent x)%Q ->
  (round64 x <= inject_Z m * 2 ^ ulpExponent x)%Q.
Proof.
  intros N Hm. rewrite (round64_nonzero x N).
  set (e := ulpExponent x) in *. pose proof (pow2_pos e) as He.
  apply Qmult_le_compat_r; [|lra]. rewrite <- Zle_Qle.
  rewrite <- (roundHalfEven_Z (inject_Z m) m) by reflexivity.
  apply roundHalfEven_mono. apply Qle_shift_div_r; assumption.
Qed.

Lemma round64_nonneg (x : Q) : (0 <= x)%Q -> (0 <= round64 x)%Q.
Proof.
  intros Hx. destruct (Qeq_dec x 0) as [Z|N].
  - rewrite (round64_zero x Z). lra.
  - pose proof (round64_above x 0 N) as H. rewrite Qmult_0_l in H. apply H. exact Hx.
Qed.

Lemma round64_nonpos (x : Q) : (x <= 0)%Q -> (round64 x <= 0)%Q.
Proof.
  intros Hx. destruct (Qeq_dec x 0) as [Z|N].
  - rewrite (round64_zero x Z). lra.
  - pose proof (round64_below x 0 N) as H. rewrite Qmult_0_l in H. apply H. exact Hx.
Qed.

Lemma ulpExponent_opp (x : Q) : ulpExponent (- x) = ulpExponent x.
Proof.
  unfold ulpExponent. destruct (Qeq_dec x 0) as [Z|N].
  - f_equal. f_equal. unfold ilog2. destruct x as [n d]. unfold Qeq in Z. cbn in Z.
    assert (n = 0) by lia. subst n. reflexivity.
  - rewrite (ilog2_compat (Qabs (- x)) (Qabs x)); [reflexivity | |apply Qabs_opp].
    apply Qabs_pos_iff. intros E. apply N. lra.
Qed.

Lemma round64_opp (x : Q) : (round64 (- x) == - round64 x)%Q.
Proof.
  destruct (Qeq_dec x 0) as [Z|N].
  - rewrite (round64_zero x Z), round64_zero; [reflexivity | lra].
  - rewrite (round64_nonzero x N), round64_nonzero by (intros E; apply N; lra).
    rewrite ulpExponent_opp.
    rewrite (roundHalfEven_compat (- x / 2 ^ ulpExponent x) (- (x / 2 ^ ulpExponent x)))
      by (unfold Qdiv; ring).
    rewrite roundHalfEven_opp, inject_Z_opp. ring.
Qed.

(** A multiple of its own unit is a double. *)
Lemma round64_fixed (x : Q) (m : Z) :
  (x == inject_Z m * 2 ^ ulpExponent x)%Q -> (round64 x == x)%Q.
Proof.
  intros E. destruct (Qeq_dec x 0) as [Z|N].
  - rewrite (round64_zero x Z). symmetry. exact Z.
  - apply Qle_antisym.
    + rewrite E at 2. apply round64_below; [exact N | rewrite <- E; apply Qle_refl].
    + rewrite E at 1. apply round64_above; [exact N | rewrite <- E; apply Qle_refl].
Qed.

Lemma ulpExponent_pos (x : Q) :
  (0 < x)%Q -> ulpExponent x = Z.max (ilog2 x - 52) (-1074).
Proof.
  intros Hx. unfold ulpExponent.
  rewrite (ilog2_compat (Qabs x) x); [reflexivity | |apply Qabs_pos; lra].
  rewrite Qabs_pos; lra.
Qed.

Lemma round64_mono_pos (x y : Q) : (0 < x)%Q -> (x <= y)%Q -> (round64 x <= round64 y)%Q.
Proof.
  intros Hx Hxy.
  assert (Nx : ~ (x == 0)%Q) by lra. assert (Ny : ~ (y == 0)%Q) by lra.
  pose proof (ulpExponent_pos x Hx) as Ex. pose proof (ulpExponent_pos y ltac:(lra)) as Ey.
  pose proof (ilog2_mono x y Hx Hxy) as Hlog.
  destruct (Z.eq_dec (ulpExponent x) (ulpExponent y)) as [E|NE].
  - rewrite (round64_nonzero x Nx), (round64_nonzero y Ny), <- E.
    pose proof (pow2_pos (ulpExponent x)) as He.
    apply Qmult_le_compat_r; [|lra]. rewrite <- Zle_Qle.
    apply roundHalfEven_mono. apply Qle_shift_div_l; [exact He|].
    unfold Qdiv. rewrite <- Qmult_assoc, (Qmult_comm (/ _)), Qmult_inv_r, Qmult_1_r; lra.
  - assert (Hlt : ulpExponent x < ulpExponent y) by lia.
    assert (Hey : ulpExponent y = ilog2 y - 52) by lia.
    destruct (ilog2_spec x Hx) as [_ Hxh]. destruct (ilog2_spec y ltac:(lra)) as [Hyl _].
    set (B := (2 ^ (ulpExponent y + 52))%Q).
    assert (HxB : (x <= B)%Q).
    { pose proof (pow2_le (ilog2 x + 1) (ulpExponent y + 52) ltac:(lia)). unfold B. lra. }
    assert (HBy : (B <= y)%Q).
    { unfold B. replace (ulpExponent y + 52) with (ilog2 y) by lia. exact Hyl. }
    apply Qle_trans with (y := B).
    + assert (EB : (B == inject_Z (2 ^ (ulpExponent y + 52 - ulpExponent x))
                         * 2 ^ ulpExponent x)%Q).
      { rewrite <- pow2_Z by lia. rewrite <- pow2_add. unfold B.
        replace (ulpExponent y + 52 - ulpExponent x + ulpExponent x)
          with (ulpExponent y + 52) by lia. reflexivity. }
      rewrite EB. apply round64_below; [exact Nx | rewrite <- EB; exact HxB].
    + assert (EB : (B == inject_Z (2 ^ 52) * 2 ^ ulpExponent y)%Q).
      { rewrite <- pow2_Z by lia. rewrite <- pow2_add. unfold B.
        replace (52 + ulpExponent y) with (ulpExponent y + 52) by lia. reflexivity. }
      rewrite EB. apply round64_above; [exact Ny | rewrite <- EB; exact HBy].
Qed.

Lemma round64_mono (x y : Q) : (x <= y)%Q -> (round64 x <= round64 y)%Q.
Proof.
  intros Hxy. destruct (Qlt_le_dec 0 x) as [Hx|Hx].
  - apply round64_mono_pos; assumption.
  - destruct (Qlt_le_dec y 0) as [Hy|Hy].
    + pose proof (round64_mono_pos (- y) (- x) ltac:(lra) ltac:(lra)) as H.
      rewrite !round64_opp in H. lra.
    + pose proof (round64_nonpos x Hx). pose proof (round64_nonneg y Hy). lra.
Qed.

Lemma ilog2_range (x : Q) (lo hi : Z) :
  (2 ^ lo <= x)%Q -> (x < 2 ^ hi)%Q -> lo <= ilog2 x < hi.
Proof.
  intros Hlo Hhi.
  assert (Hx : (0 < x)%Q) by (pose proof (pow2_pos lo); lra).
  destruct (ilog2_spec x Hx) as [Hl Hh]. split.
  - destruct (Z.le_gt_cases lo (ilog2 x)) as [L|G]; [exact L|].
    pose proof (pow2_le (ilog2 x + 1) lo ltac:(lia)). lra.
  - destruct (Z.lt_ge_cases (ilog2 x) hi) as [L|G]; [exact L|].
    pose proof (pow2_le hi (ilog2 x) ltac:(lia)). lra.
Qed.

(** Every integer up to 2^53 is a double. *)
Lemma round64_Z_small_pos (z : Z) :
  0 < z < 2 ^ 53 -> (round64 (inject_Z z) == inject_Z z)%Q.
Proof.
  intros Hz.
  assert (Hx : (0 < inject_Z z)%Q) by (rewrite <- (Zlt_Qlt 0); lia).
  assert (HL : 0 <= ilog2 (inject_Z z) < 53).
  { apply ilog2_range.
    - change (2 ^ 0)%Q with (inject_Z 1). rewrite <- Zle_Qle. lia.
    - rewrite pow2_Z by lia. rewrite <- Zlt_Qlt. lia. }
  pose proof (ulpExponent_pos _ Hx) as He.
  apply round64_fixed with (m := z * 2 ^ (- ulpExponent (inject_Z z))).
  set (e := ulpExponent (inject_Z z)) in *.
  rewrite inject_Z_mult, <- pow2_Z by lia.
  rewrite <- Qmult_assoc, (Qmult_comm (2 ^ (- e))), pow2_cancel. ring.
Qed.

Lemma round64_Z_small (z : Z) :
  Z.abs z <= 2 ^ 53 -> (round64 (inject_Z z) == inject_Z z)%Q.
Proof.
  intros Hz.
  assert (H53 : (round64 (inject_Z (2 ^ 53)) == inject_Z (2 ^ 53))%Q)
    by (vm_compute; reflexivity).
  destruct (Z.lt_trichotomy z 0) as [L|[E|G]].
  - assert (Hp : (round64 (inject_Z (- z)) == inject_Z (- z))%Q).
    { destruct (Z.eq_dec (- z) (2 ^ 53)) as [E|N]; [rewrite E; exact H53|].
      apply round64_Z_small_pos. lia. }
    rewrite inject_Z_opp, round64_opp in Hp. lra.
  - subst z. reflexivity.
  - destruct (Z.eq_dec z (2 ^ 53)) as [E|N]; [rewrite E; exact H53|].
    apply round64_Z_small_pos. lia.
Qed.

Lemma round64Z_small (z : Z) : Z.abs z <= 2 ^ 53 -> round64Z z = z.
Proof.
  intros Hz. unfold round64Z. rewrite (Qfloor_comp _ _ (round64_Z_small z Hz)).
  apply Qfloor_Z.
Qed.

(** The quotient of two integers below 2^53, rounded to a double, has the
    integer part of the exact quotient. *)
Lemma floor_round64_div (a b : Z) :
  0 <= a < 2 ^ 53 -> 0 < b < 2 ^ 53 ->
  Qfloor (round64 (inject_Z a / inject_Z b)) = a / b.
Proof.
  intros Ha Hb.
  assert (HB : (0 < inject_Z b)%Q) by (rewrite <- (Zlt_Qlt 0); lia).
  destruct (Z.eq_dec a 0) as [->|Na].
  - rewrite round64_zero by (unfold Qdiv; ring). reflexivity.
  - set (x := (inject_Z a / inject_Z b)%Q).
    assert (HA : (1 <= inject_Z a)%Q) by (change 1%Q with (inject_Z 1); rewrite <- Zle_Qle; lia).
    assert (HA' : (inject_Z a + 1 <= 2 ^ 53)%Q).
    { rewrite pow2_Z by lia. change 1%Q with (inject_Z 1).
      rewrite <- inject_Z_plus, <- Zle_Qle. lia. }
    assert (HB' : (inject_Z b + 1 <= 2 ^ 53)%Q).
    { rewrite pow2_Z by lia. change 1%Q with (inject_Z 1).
      rewrite <- inject_Z_plus, <- Zle_Qle. lia. }
    assert (ExB : (x * inject_Z b == inject_Z a)%Q).
    { unfold x, Qdiv. rewrite <- Qmult_assoc, (Qmult_comm (/ _)), Qmult_inv_r; lra. }
    assert (Hx : (0 < x)%Q) by (apply Qlt_shift_div_l; lra).
    assert (Nx : ~ (x == 0)%Q) by lra.
    clearbody x.
    assert (HL : -53 <= ilog2 x < 53).
    { assert (HB1 : (1 <= inject_Z b)%Q)
        by (change 1%Q with (inject_Z 1); rewrite <- Zle_Qle; lia).
      pose proof (pow2_cancel 53) as Hc. cbn [Z.opp] in Hc. pose proof (pow2_pos (-53)) as Hu.
      set (u := (2 ^ (-53))%Q) in *. set (v := (2 ^ 53)%Q) in *.
      set (B := inject_Z b) in *. set (A := inject_Z a) in *.
      apply ilog2_range; fold u; fold v.
      - assert (H1 : (u * B <= u * v)%Q) by (apply Qmult_le_l; lra).
        assert (H2 : (u * B * x <= 1 * x)%Q)
          by (apply Qmult_le_compat_r; lra).
        assert (H3 : (u * (x * B) == u * B * x)%Q) by ring.
        assert (H4 : (u * (x * B) >= u * 1)%Q) by (apply Qmult_le_l; lra).
        lra.
      - assert (H1 : (x * 1 <= x * B)%Q) by (apply Qmult_le_l; lra). lra. }
    pose proof (ulpExponent_pos x Hx) as He.
    set (e := ulpExponent x) in *. set (L := ilog2 x) in *.
    assert (HeL : e = L - 52) by lia.
    destruct (ilog2_spec x Hx) as [HxL _]. fold L in HxL.
    set (q := a / b).
    assert (Hq : b * q <= a /\ a + 1 <= b * q + b).
    { pose proof (Z.div_mod a b ltac:(lia)). pose proof (Z.mod_pos_bound a b ltac:(lia)).
      fold q in H. lia. }
    assert (Hq0 : 0 <= q) by (apply Z.div_pos; lia).
    assert (HqQ : (inject_Z b * inject_Z q <= inject_Z a)%Q
                  /\ (inject_Z a + 1 <= inject_Z b * inject_Z q + inject_Z b)%Q).
    { change 1%Q with (inject_Z 1).
      rewrite <- !inject_Z_mult, <- !inject_Z_plus, <- !Zle_Qle. exact Hq. }
    pose proof (pow2_pos e) as HE. pose proof (pow2_pos (- e)) as HP.
    pose proof (pow2_cancel e) as HEP.
    apply Qfloor_unique.
    + assert (Em : (inject_Z q == inject_Z (q * 2 ^ (- e)) * 2 ^ e)%Q).
      { rewrite inject_Z_mult, <- pow2_Z by lia.
        rewrite <- Qmult_assoc, (Qmult_comm (2 ^ (- e))), HEP. ring. }
      assert (Hqx : (inject_Z q <= x)%Q).
      { set (B := inject_Z b) in *. set (A := inject_Z a) in *.
        set (Qq := inject_Z q) in *. nra. }
      rewrite Em at 1. apply round64_above; [exact Nx|]. fold e.
      rewrite <- Em. exact Hqx.
    + rewrite (round64_nonzero x Nx). fold e.
      destruct (roundHalfEven_close (x / 2 ^ e)) as [Hc _].
      set (R := inject_Z (roundHalfEven (x / 2 ^ e))) in *. clearbody R.
      rewrite Qdiv_pow2 in Hc.
      assert (HT : (2 ^ L * (2 * 2 ^ (- e)) == 2 ^ 53)%Q).
      { rewrite <- pow2_succ, <- pow2_add. replace (L + (- e + 1)) with 53 by lia.
        reflexivity. }
      pose proof (pow2_pos L) as HLp.
      set (E := (2 ^ e)%Q) in *. set (P := (2 ^ (- e))%Q) in *.
      set (TL := (2 ^ L)%Q) in *. set (T := (2 ^ 53)%Q) in *.
      set (B := inject_Z b) in *. set (A := inject_Z a) in *.
      set (Qq := inject_Z q) in *.
      assert (HB2 : (B < 2 * P)%Q).
      { destruct (Qlt_le_dec B (2 * P)) as [ok|bad]; [exact ok|]. exfalso.
        assert (TL * (2 * P) <= TL * B)%Q by (apply Qmult_le_l; lra).
        assert (B * TL <= B * x)%Q by (apply Qmult_le_l; lra). lra. }
      assert (HBE : (B * E < 2)%Q).
      { assert (B * E < 2 * P * E)%Q by (apply Qmult_lt_compat_r; lra). lra. }
      assert (HxPE : (x * P * E == x)%Q)
        by (rewrite <- Qmult_assoc, (Qmult_comm P), HEP; ring).
      assert (HR : (R * E <= x + E * (1 # 2))%Q).
      { assert ((R - (1 # 2)) * E <= x * P * E)%Q by (apply Qmult_le_compat_r; lra). lra. }
      assert (Hx1 : (x * B + 1 <= (Qq + 1) * B)%Q) by lra.
      destruct (Qlt_le_dec (R * E) (Qq + 1)) as [ok|bad]; [exact ok|]. exfalso.
      assert ((Qq + 1) * B <= R * E * B)%Q by (apply Qmult_le_compat_r; lra).
      assert (R * E * B <= (x + E * (1 # 2)) * B)%Q by (apply Qmult_le_compat_r; lra).
      lra.
Qed.

(** The relative error of a rounding, at least for numbers from 1 on. *)
Lemma round64_error (x : Q) :
  (1 <= x)%Q ->
  (x - x * 2 ^ (-53) <= round64 x)%Q /\ (round64 x <= x + x * 2 ^ (-53))%Q.
Proof.
  intros Hx1. assert (Hx : (0 < x)%Q) by lra. assert (Nx : ~ (x == 0)%Q) by lra.
  assert (HL : 0 <= ilog2 x).
  { destruct (ilog2_spec x Hx) as [_ Hh].
    destruct (Z.le_gt_cases 0 (ilog2 x)) as [L|G]; [exact L|].
    pose proof (pow2_le (ilog2 x + 1) 0 ltac:(lia)) as Hp.
    change (2 ^ 0)%Q with 1%Q in Hp. lra. }
  pose proof (ulpExponent_pos x Hx) as He.
  destruct (ilog2_spec x Hx) as [HxL _].
  rewrite (round64_nonzero x Nx).
  set (e := ulpExponent x) in *. set (L := ilog2 x) in *.
  destruct (roundHalfEven_close (x / 2 ^ e)) as [Hc1 Hc2].
  set (R := inject_Z (roundHalfEven (x / 2 ^ e))) in *. clearbody R.
  rewrite Qdiv_pow2 in Hc1, Hc2.
  pose proof (pow2_pos e) as HE. pose proof (pow2_pos (- e)) as HP.
  pose proof (pow2_cancel e) as HEP.
  assert (HT : (2 ^ e == 2 * (2 ^ L * 2 ^ (-53)))%Q).
  { rewrite <- pow2_add, <- pow2_succ. replace (L + -53 + 1) with e by lia. reflexivity. }
  pose proof (pow2_pos (-53)) as HU. pose proof (pow2_pos L) as HLp.
  set (E := (2 ^ e)%Q) in *. set (P := (2 ^ (- e))%Q) in *.
  set (TL := (2 ^ L)%Q) in *. set (U := (2 ^ (-53))%Q) in *.
  assert (H1 : (TL * U <= x * U)%Q) by (apply Qmult_le_compat_r; lra).
  assert (HxPE : (x * P * E == x)%Q)
    by (rewrite <- Qmult_assoc, (Qmult_comm P), HEP; ring).
  assert (H2 : (R * E <= x + E * (1 # 2))%Q).
  { assert ((R - (1 # 2)) * E <= x * P * E)%Q by (apply Qmult_le_compat_r; lra). lra. }
  assert (H3 : (x - E * (1 # 2) <= R * E)%Q).
  { assert (x * P * E <= (R + (1 # 2)) * E)%Q by (apply Qmult_le_compat_r; lra). lra. }
  split; lra.
Qed.

(** A double below 1 is at most [1 - 2^-53]. *)
Lemma double_below_one (r : Q) :
  isDouble r -> (r < 1)%Q -> (r <= 1 - 2 ^ (-53))%Q.
Proof.
  intros Hd Hr. destruct (Qlt_le_dec (1 - 2 ^ (-53)) r) as [G|L]; [|exact L].
  exfalso.
  assert (Hhalf : (2 ^ (-1) <= r)%Q).
  { assert ((2 ^ (-53) <= 2 ^ (-1))%Q) by (apply pow2_le; lia).
    change (2 ^ (-1))%Q with (1 # 2)%Q in *. lra. }
  assert (Hx : (0 < r)%Q) by (change (2 ^ (-1))%Q with (1 # 2)%Q in Hhalf; lra).
  assert (EL : ilog2 r = -1) by (apply ilog2_unique; [exact Hhalf | exact Hr]).
  pose proof (ulpExponent_pos r Hx) as He. rewrite EL in He.
  change (Z.max (-1 - 52) (-1074)) with (-53) in He.
  unfold isDouble in Hd. rewrite (round64_nonzero r) in Hd by lra. rewrite He in Hd.
  set (m := roundHalfEven (r / 2 ^ (-53))) in *.
  pose proof (pow2_cancel 53) as Hc. cbn [Z.opp] in Hc. pose proof (pow2_pos (-53)) as HU.
  assert (Hm : (inject_Z m < inject_Z (2 ^ 53))%Q).
  { rewrite <- pow2_Z by lia. set (U := (2 ^ (-53))%Q) in *. set (T := (2 ^ 53)%Q) in *.
    set (M := inject_Z m) in *. clearbody M.
    destruct (Qlt_le_dec M T) as [ok|bad]; [exact ok|]. exfalso.
    assert (T * U <= M * U)%Q by (apply Qmult_le_compat_r; lra). lra. }
  rewrite <- Zlt_Qlt in Hm.
  assert (Hm' : (inject_Z m <= inject_Z (2 ^ 53) - 1)%Q).
  { change 1%Q with (inject_Z 1). rewrite <- inject_Z_sub, <- Zle_Qle. lia. }
  rewrite <- pow2_Z in Hm' by lia.
  set (U := (2 ^ (-53))%Q) in *. set (T := (2 ^ 53)%Q) in *.
  set (M := inject_Z m) in *. clearbody M.
  assert (M * U <= (T - 1) * U)%Q by (apply Qmult_le_compat_r; lra). lra.
Qed.

Lemma Qfloor_nonneg (x : Q) : (0 <= x)%Q -> 0 <= Qfloor x.
Proof.
  intros Hx. rewrite <- (Qfloor_Z 0). apply Qfloor_resp_le. exact Hx.
Qed.

(** The double nearest to an integer is an integer. *)
Lemma round64Z_spec (z : Z) : (round64 (inject_Z z) == inject_Z (round64Z z))%Q.
Proof.
  destruct (Z.le_gt_cases (Z.abs z) (2 ^ 53)) as [Hs|Hl].
  - rewrite (round64Z_small z Hs). apply round64_Z_small. exact Hs.
  - assert (Nz : ~ (inject_Z z == 0)%Q).
    { intros E. change 0%Q with (inject_Z 0) in E.
      apply (proj1 (inject_Z_injective z 0)) in E.
      change (2 ^ 53) with 9007199254740992 in Hl. lia. }
    assert (Habs : (Qabs (inject_Z z) == inject_Z (Z.abs z))%Q)
      by (unfold Qabs, inject_Z; reflexivity).
    assert (HL : 53 <= ilog2 (Qabs (inject_Z z))).
    { assert (E53 : ilog2 (2 ^ 53) = 53)
        by (apply ilog2_unique; [apply Qle_refl | apply pow2_lt; lia]).
      rewrite <- E53. apply ilog2_mono; [apply pow2_pos|].
      rewrite Habs, pow2_Z by lia. rewrite <- Zle_Qle. lia. }
    assert (He : 0 <= ulpExponent (inject_Z z)) by (unfold ulpExponent; lia).
    unfold round64Z. rewrite (round64_nonzero _ Nz).
    set (e := ulpExponent (inject_Z z)) in *.
    set (m := roundHalfEven (inject_Z z / 2 ^ e)).
    assert (E : (inject_Z m * 2 ^ e == inject_Z (m * 2 ^ e))%Q)
      by (rewrite inject_Z_mult, pow2_Z by exact He; reflexivity).
    rewrite (Qfloor_comp _ _ E), Qfloor_Z. exact E.
Qed.

(** The relative error of the rounding of an integer. *)
Lemma round64Z_error (z : Z) : 0 <= z -> Z.abs (round64Z z - z) * 2 ^ 53 <= z.
Proof.
  intros Hz. destruct (Z.eq_dec z 0) as [->|Nz]; [vm_compute; discriminate|].
  assert (Hx : (1 <= inject_Z z)%Q)
    by (change 1%Q with (inject_Z 1); rewrite <- Zle_Qle; lia).
  destruct (round64_error (inject_Z z) Hx) as [H1 H2].
  rewrite round64Z_spec in H1, H2.
  pose proof (pow2_cancel 53) as Hc. cbn [Z.opp] in Hc.
  rewrite (pow2_Z 53) in Hc by lia.
  set (a := round64Z z) in *.
  assert (Hlow : (z - a) * 2 ^ 53 <= z).
  { rewrite Zle_Qle, inject_Z_mult, inject_Z_sub.
    set (T := inject_Z (2 ^ 53)) in *. set (U := (2 ^ (-53))%Q) in *.
    assert (HT : (0 <= T)%Q) by (unfold T; rewrite <- (Zle_Qle 0); lia).
    assert ((inject_Z z - inject_Z a) * T <= inject_Z z * U * T)%Q
      by (apply Qmult_le_compat_r; lra).
    assert (inject_Z z * U * T == inject_Z z)%Q
      by (rewrite <- Qmult_assoc, (Qmult_comm U), Hc; ring).
    lra. }
  assert (Hhigh : (a - z) * 2 ^ 53 <= z).
  { rewrite Zle_Qle, inject_Z_mult, inject_Z_sub.
    set (T := inject_Z (2 ^ 53)) in *. set (U := (2 ^ (-53))%Q) in *.
    assert (HT : (0 <= T)%Q) by (unfold T; rewrite <- (Zle_Qle 0); lia).
    assert ((inject_Z a - inject_Z z) * T <= inject_Z z * U * T)%Q
      by (apply Qmult_le_compat_r; lra).
    assert (inject_Z z * U * T == inject_Z z)%Q
      by (rewrite <- Qmult_assoc, (Qmult_comm U), Hc; ring).
    lra. }
  lia.
Qed.

Lemma round64Z_nonneg (z : Z) : 0 <= z -> 0 <= round64Z z.
Proof.
  intros Hz. unfold round64Z. apply Qfloor_nonneg, round64_nonneg.
  rewrite <- (Zle_Qle 0). exact Hz.
Qed.

(** ** The symbol encoder *)

Lemma charCodeAt0_range (c : ascii) : 0 <= charCodeAt0 c < 256.
Proof.
  unfold charCodeAt0. pose proof (N_ascii_bounded c). lia.
Qed.

Lemma base256_fold_shift (l : list ascii) (acc : Z) :
  fold_left base256Step l acc
  = acc * 256 ^ Z.of_nat (length l) + fold_left base256Step l 0.
Proof.
  revert acc. induction l as [|c l IH]; intros acc; cbn [fold_left length].
  - change (256 ^ Z.of_nat 0) with 1. lia.
  - rewrite IH. rewrite (IH (base256Step 0 c)). unfold base256Step.
    rewrite Nat2Z.inj_succ, Z.pow_succ_r by lia. ring.
Qed.

Lemma base256_fold_range (l : list ascii) :
  0 <= fold_left base256Step l 0 < 256 ^ Z.of_nat (length l).
Proof.
  induction l as [|c l IH]; cbn [fold_left length].
  - change (256 ^ Z.of_nat 0) with 1. lia.
  - rewrite base256_fold_shift.
    rewrite Nat2Z.inj_succ, Z.pow_succ_r by lia.
    pose proof (charCodeAt0_range c) as Hc.
    assert (E : base256Step 0 c = charCodeAt0 c) by (unfold base256Step; lia).
    rewrite E.
    set (P := 256 ^ Z.of_nat (length l)) in *.
    set (F := fold_left base256Step l 0) in *.
    assert (charCodeAt0 c * P <= 255 * P) by (apply Z.mul_le_mono_nonneg_r; lia).
    assert (0 <= charCodeAt0 c * P) by (apply Z.mul_nonneg_nonneg; lia).
    lia.
Qed.

Lemma length_list_ascii_of_string (s : string) :
  length (list_ascii_of_string s) = String.length s.
Proof. induction s as [|c s IH]; simpl; congruence. Qed.

Lemma base256_String (c : ascii) (s : string) :
  base256 (String c s)
  = charCodeAt0 c * 256 ^ Z.of_nat (String.length s) + base256 s.
Proof.
  unfold base256. cbn [list_ascii_of_string fold_left].
  rewrite base256_fold_shift. unfold base256Step.
  rewrite length_list_ascii_of_string. ring.
Qed.

Lemma base256_range (s : string) :
  0 <= base256 s < 256 ^ Z.of_nat (String.length s).
Proof.
  unfold base256.
  rewrite <- length_list_ascii_of_string. apply base256_fold_range.
Qed.

Lemma base256_compare (s t : string) :
  String.length s = String.length t ->
  (base256 s ?= base256 t) = String.compare s t.
Proof.
  revert t. induction s as [|a s IH]; intros [|b t] Hlen; simpl in Hlen;
    try discriminate; [reflexivity|].
  injection Hlen as Hlen.
  rewrite !base256_String. simpl String.compare.
  unfold Ascii.compare. rewrite <- N2Z.inj_compare.
  fold (charCodeAt0 a). fold (charCodeAt0 b).
  rewrite <- Hlen.
  pose proof (base256_range s) as Hs.
  pose proof (base256_range t) as Ht. rewrite <- Hlen in Ht.
  specialize (IH t Hlen).
  set (P := 256 ^ Z.of_nat (String.length s)) in *.
  destruct (Z.compare_spec (charCodeAt0 a) (charCodeAt0 b)) as [E|L|G].
  - rewrite E, <- IH.
    destruct (Z.compare_spec (base256 s) (base256 t));
      [apply Z.compare_eq_iff | apply Z.compare_lt_iff | apply Z.compare_gt_iff]; lia.
  - apply Z.compare_lt_iff. nia.
  - apply Z.compare_gt_iff. nia.
Qed.

Lemma encodeSymbol_fold (s : string) :
  encodeSymbol s = fold_left encodeStep (list_ascii_of_string s) 0.
Proof. reflexivity. Qed.

(** The key is never negative, rounded or not. *)
Lemma encodeSymbol_nonneg (s : string) : 0 <= encodeSymbol s.
Proof.
  rewrite encodeSymbol_fold.
  assert (Hfold : forall l acc, 0 <= acc -> 0 <= fold_left encodeStep l acc).
  { induction l as [|c l IH]; intros acc Hacc; cbn [fold_left]; [exact Hacc|].
    apply IH. unfold encodeStep. apply round64Z_nonneg.
    pose proof (round64Z_nonneg (acc * 256) ltac:(lia)).
    pose proof (charCodeAt0_range c). lia. }
  apply Hfold. lia.
Qed.

(** While the number stays below 2^53 no step rounds. *)
Lemma encodeStep_fold_exact (l : list ascii) :
  forall acc,
    0 <= acc -> (acc + 1) * 256 ^ Z.of_nat (length l) <= 2 ^ 53 ->
    fold_left encodeStep l acc = fold_left base256Step l acc.
Proof.
  induction l as [|c l IH]; intros acc Hacc Hb; cbn [fold_left]; [reflexivity|].
  cbn [length] in Hb. rewrite Nat2Z.inj_succ, Z.pow_succ_r in Hb by lia.
  pose proof (charCodeAt0_range c) as Hc.
  assert (HP : 0 < 256 ^ Z.of_nat (length l)) by (apply Z.pow_pos_nonneg; lia).
  assert (Hstep : encodeStep acc c = base256Step acc c).
  { unfold encodeStep, base256Step.
    rewrite (round64Z_small (acc * 256)) by nia. apply round64Z_small. nia. }
  rewrite Hstep. apply IH; unfold base256Step; nia.
Qed.

(** Up to six characters the key is the number in base 256. *)
Lemma encodeSymbol_exact (s : string) :
  (String.length s <= 6)%nat -> encodeSymbol s = base256 s.
Proof.
  intros Hlen. rewrite encodeSymbol_fold. unfold base256.
  apply encodeStep_fold_exact; [lia|]. rewrite length_list_ascii_of_string.
  assert (256 ^ Z.of_nat (String.length s) <= 256 ^ 6)
    by (apply Z.pow_le_mono_r; lia).
  change (256 ^ 6) with (2 ^ 48) in H. change (2 ^ 53) with (32 * 2 ^ 48). lia.
Qed.

Lemma encodeSymbol_compare (s t : string) :
  String.length s = String.length t -> (String.length s <= 6)%nat ->
  (encodeSymbol s ?= encodeSymbol t) = String.compare s t.
Proof.
  intros Hlen H6. rewrite !encodeSymbol_exact by lia. apply base256_compare. exact Hlen.
Qed.

Lemma encodeSymbol_inj_same_length (s t : string) :
  String.length s = String.length t -> (String.length s <= 6)%nat ->
  encodeSymbol s = encodeSymbol t -> s = t.
Proof.
  intros Hlen H6 Heq. apply String.compare_eq_iff.
  rewrite <- encodeSymbol_compare by assumption.
  apply Z.compare_eq_iff. assumption.
Qed.

Lemma encodeSymbol_inj_stockSymbols (s t : string) :
  In s stockSymbols -> In t stockSymbols ->
  encodeSymbol s = encodeSymbol t -> s = t.
Proof.
  intros Hs Ht. assert (H6 : forall u, In u stockSymbols -> (String.length u <= 6)%nat).
  { intros u Hu. unfold stockSymbols in Hu. simpl in Hu.
    repeat (destruct Hu as [<- | Hu]; [simpl; lia|]). contradiction. }
  rewrite !encodeSymbol_exact by (apply H6; assumption).
  unfold stockSymbols in Hs, Ht. simpl in Hs, Ht.
  repeat (destruct Hs as [<- | Hs]; [| ]); try contradiction;
    repeat (destruct Ht as [<- | Ht]; [| ]); try contradiction;
    vm_compute; intros E; try reflexivity; discriminate E.
Qed.

(** The encoding does not follow the order of strings of different
    lengths, as with these two symbols of the list. *)
Example encodeSymbol_shorter_first :
  String.ltb "AAPL" "AMD" = true /\ encodeSymbol "AMD" < encodeSymbol "AAPL".
Proof. split; vm_compute; reflexivity. Qed.

(** From seven characters on the key is beyond 2^53 and is rounded: two
    symbols that differ in their last character can have one key. *)
Example encodeSymbol_rounded_at_seven :
  encodeSymbol "AAAAAAA" = 18367622009667904
  /\ encodeSymbol "AAAAAAB" = 18367622009667904
  /\ base256 "AAAAAAA" = 18367622009667905.
Proof. repeat split; vm_compute; reflexivity. Qed.

(** C8. The symbol key is never negative; two symbols of the fixed list
    with the same key are the same symbol; for two strings of the same
    length, of at most six characters (as all the symbols of the list
    are: a longer one has a key beyond 2^53, which is rounded), the order
    of the keys is the lexicographic order of the strings, so equal keys
    mean equal strings; and the key of AAPL is below the key of AAPM. *)
Theorem encodeSymbol_sound (s t : string) :
  0 <= encodeSymbol s
  /\ (In s stockSymbols -> In t stockSymbols ->
      encodeSymbol s = encodeSymbol t -> s = t)
  /\ (String.length s = String.length t -> (String.length s <= 6)%nat ->
      (encodeSymbol s ?= encodeSymbol t) = String.compare s t
      /\ (encodeSymbol s < encodeSymbol t <-> String.ltb s t = true)
      /\ (encodeSymbol s <= encodeSymbol t <-> String.leb s t = true)
      /\ (encodeSymbol s = encodeSymbol t -> s = t))
  /\ encodeSymbol "AAPL" < encodeSymbol "AAPM".
Proof.
  split; [apply encodeSymbol_nonneg|].
  split; [apply encodeSymbol_inj_stockSymbols|].
  split; [|vm_compute; reflexivity].
  intros Hlen H6. pose proof (encodeSymbol_compare s t Hlen H6) as Hc.
  split; [exact Hc|].
  unfold String.ltb, String.leb. rewrite <- Hc.
  repeat split.
  - intros L. apply Z.compare_lt_iff in L. rewrite L. reflexivity.
  - destruct (Z.compare_spec (encodeSymbol s) (encodeSymbol t)); try discriminate; lia.
  - intros L. destruct (Z.compare_spec (encodeSymbol s) (encodeSymbol t)); try reflexivity; lia.
  - destruct (Z.compare_spec (encodeSymbol s) (encodeSymbol t)); try discriminate; lia.
  - apply encodeSymbol_inj_same_length; assumption.
Qed.

Lemma encodeSymbol_sound_witness :
  0 <= encodeSymbol "MSFT"
  /\ (encodeSymbol "MSFT" < encodeSymbol "NVDA" <-> String.ltb "MSFT" "NVDA" = true).
Proof.
  destruct (encodeSymbol_sound "MSFT" "NVDA") as (Hpos & _ & Hord & _).
  split; [exact Hpos|].
  destruct (Hord eq_refl ltac:(simpl; lia)) as (_ & Hlt & _). exact Hlt.
Defined.

(** ** The order of a field *)

Lemma fieldLe_total (k : SortKey) (a b : Transaction) :
  fieldLe k a b = false -> fieldLe k b a = true.
Proof.
  destruct k; simpl; intros Hf.
  - apply Qle_bool_iff.
    destruct (Qlt_le_dec (price b) (price a)) as [L|L].
    + apply Qlt_le_weak. exact L.
    + apply Qle_bool_iff in L. congruence.
  - destruct (String.leb_total (symbol a) (symbol b)) as [E|E]; congruence.
  - lia.
Qed.

Lemma String_leb_trans (a b c : string) :
  String.leb a b = true -> String.leb b c = true -> String.leb a c = true.
Proof.
  unfold String.leb.
  revert b c. induction a as [|x a IH]; intros [|y b] [|z c]; simpl; try congruence.
  unfold Ascii.compare.
  destruct (N.compare_spec (N_of_ascii x) (N_of_ascii y)) as [E|L|G];
    destruct (N.compare_spec (N_of_ascii y) (N_of_ascii z)) as [E'|L'|G'];
    try congruence.
  - rewrite E, E', N.compare_refl. apply IH.
  - rewrite E. apply N.compare_lt_iff in L'. rewrite L'. reflexivity.
  - rewrite <- E'. apply N.compare_lt_iff in L. rewrite L. reflexivity.
  - assert (N_of_ascii x < N_of_ascii z)%N as L2 by lia.
    apply N.compare_lt_iff in L2. rewrite L2. reflexivity.
Qed.

Lemma fieldLe_trans (k : SortKey) (a b c : Transaction) :
  fieldLe k a b = true -> fieldLe k b c = true -> fieldLe k a c = true.
Proof.
  destruct k; simpl.
  - rewrite !Qle_bool_iff. apply Qle_trans.
  - apply String_leb_trans.
  - lia.
Qed.

Lemma sameField_fieldLe (k : SortKey) (a b : Transaction) :
  sameField k a b = fieldLe k a b && fieldLe k b a.
Proof.
  destruct k; simpl.
  - apply eq_true_iff_eq. rewrite andb_true_iff, !Qle_bool_iff, Qeq_bool_iff.
    split.
    + intros E. rewrite E. split; apply Qle_refl.
    + intros [L1 L2]. apply Qle_antisym; assumption.
  - apply eq_true_iff_eq. rewrite andb_true_iff, String.eqb_eq. split.
    + intros ->. unfold String.leb.
      assert (String.compare (symbol b) (symbol b) = Eq) as ->; [|auto].
      induction (symbol b) as [|c s IH]; simpl; [reflexivity|].
      unfold Ascii.compare. rewrite N.compare_refl. exact IH.
    + intros [L1 L2]. apply String.leb_antisym; assumption.
  - lia.
Qed.

(** ** Merge sort *)

Lemma merge_nil_r (k : SortKey) (l : list Transaction) : merge k l [] = l.
Proof. destruct l; simp merge; reflexivity. Qed.

Lemma merge_cons (k : SortKey) (a b : Transaction) (l r : list Transaction) :
  merge k (a :: l) (b :: r)
  = if fieldLe k a b then a :: merge k l (b :: r) else b :: merge k (a :: l) r.
Proof. simp merge. destruct (fieldLe k a b); reflexivity. Qed.

Lemma merge_perm (k : SortKey) (l r : list Transaction) :
  Permutation (merge k l r) (l ++ r).
Proof.
  revert r. induction l as [|a l IHl]; intros r.
  - simp merge. reflexivity.
  - induction r as [|b r IHr].
    + rewrite merge_nil_r, app_nil_r. reflexivity.
    + rewrite merge_cons. destruct (fieldLe k a b).
      * simpl. constructor. apply IHl.
      * rewrite IHr. apply Permutation_middle.
Qed.

Lemma merge_Forall (k : SortKey) (P : Transaction -> Prop) (l r : list Transaction) :
  Forall P l -> Forall P r -> Forall P (merge k l r).
Proof.
  intros Hl Hr. rewrite merge_perm.
  apply Forall_app. split; assumption.
Qed.

Lemma merge_sorted (k : SortKey) (l r : list Transaction) :
  StronglySorted (fieldOrder k) l -> StronglySorted (fieldOrder k) r ->
  StronglySorted (fieldOrder k) (merge k l r).
Proof.
  revert r. induction l as [|a l IHl]; intros r Hl Hr.
  - simp merge.
  - induction r as [|b r IHr].
    + rewrite merge_nil_r. exact Hl.
    + rewrite merge_cons. destruct (fieldLe k a b) eqn:Hab.
      * inversion Hl as [|? ? Hl' Ha]; subst. constructor.
        -- apply IHl; assumption.
        -- apply merge_Forall; [assumption|].
           inversion Hr as [|? ? Hr' Hb]; subst. constructor; [exact Hab|].
           eapply Forall_impl; [|exact Hb]. intros c Hc.
           eapply fieldLe_trans; eassumption.
      * inversion Hr as [|? ? Hr' Hb]; subst. constructor.
        -- apply IHr; assumption.
        -- apply fieldLe_total in Hab.
           apply merge_Forall; [|assumption].
           inversion Hl as [|? ? Hl' Ha]; subst. constructor; [exact Hab|].
           eapply Forall_impl; [|exact Ha]. intros c Hc.
           eapply fieldLe_trans; eassumption.
Qed.

(** A merge keeps, among the transactions with one value of the field,
    those of the left part first, each part in its order. *)
Lemma merge_filter (k : SortKey) (x : Transaction) (l r : list Transaction) :
  StronglySorted (fieldOrder k) l ->
  filter (sameField k x) (merge k l r)
  = filter (sameField k x) l ++ filter (sameField k x) r.
Proof.
  revert r. induction l as [|a l IHl]; intros r Hl.
  - simp merge. reflexivity.
  - induction r as [|b r IHr].
    + rewrite merge_nil_r, app_nil_r. reflexivity.
    + rewrite merge_cons. destruct (fieldLe k a b) eqn:Hab.
      * inversion Hl; subst. cbn [filter]. rewrite IHl by assumption.
        destruct (sameField k x a); reflexivity.
      * cbn [filter] in *. rewrite IHr.
        destruct (sameField k x b) eqn:Hxb; [|reflexivity].
        assert (Hnone : filter (sameField k x) (a :: l) = []).
        { assert (Hall : Forall (fun c => fieldLe k c b = false) (a :: l)).
          { inversion Hl as [|? ? Hl' Ha]; subst. constructor; [exact Hab|].
            eapply Forall_impl; [|exact Ha]. intros c Hc.
            destruct (fieldLe k c b) eqn:Hcb; [|reflexivity].
            unfold fieldOrder in Hc.
            rewrite (fieldLe_trans k a c b Hc Hcb) in Hab. discriminate. }
          clear - Hall Hxb. induction Hall as [|c l' Hc _ IH]; [reflexivity|].
          cbn [filter]. rewrite IH.
          destruct (sameField k x c) eqn:Hxc; [|reflexivity].
          rewrite sameField_fieldLe in Hxb, Hxc.
          apply andb_true_iff in Hxb as [Hxb1 Hxb2].
          apply andb_true_iff in Hxc as [Hxc1 Hxc2].
          rewrite (fieldLe_trans k c x b Hxc2 Hxb1) in Hc. discriminate. }
        cbn [filter] in Hnone. rewrite Hnone. reflexivity.
Qed.

Lemma sort_short (k : SortKey) (l : list Transaction) :
  (length l <= 1)%nat -> sort k l = l.
Proof.
  intros Hl. rewrite sort_equation_1.
  destruct (le_lt_dec (length l) 1); [reflexivity|lia].
Qed.

Lemma sort_long (k : SortKey) (l : list Transaction) :
  (1 < length l)%nat ->
  sort k l = merge k (sort k (firstn (length l / 2) l)) (sort k (skipn (length l / 2) l)).
Proof.
  intros Hl. rewrite sort_equation_1.
  destruct (le_lt_dec (length l) 1); [lia|reflexivity].
Qed.

(** Induction on the length of the array, which is how [sort] recurses. *)
Lemma sort_ind (k : SortKey) (P : list Transaction -> Prop) :
  (forall l, (length l <= 1)%nat -> P l) ->
  (forall l, (1 < length l)%nat ->
     P (firstn (length l / 2) l) -> P (skipn (length l / 2) l) -> P l) ->
  forall l, P l.
Proof.
  intros Hbase Hstep l.
  remember (length l) as n eqn:Hn. revert l Hn.
  induction n as [n IHn] using lt_wf_ind. intros l ->.
  assert (IH : forall l', (length l' < length l)%nat -> P l')
    by (intros l' Hl'; exact (IHn _ Hl' l' eq_refl)).
  destruct (le_lt_dec (length l) 1) as [Hs|Hl].
  - apply Hbase. exact Hs.
  - assert (length l / 2 < length l)%nat by (apply Nat.div_lt; lia).
    assert (0 < length l / 2)%nat by (apply Nat.div_str_pos; lia).
    apply Hstep; [exact Hl| |]; apply IH.
    + rewrite length_firstn. lia.
    + rewrite length_skipn. lia.
Qed.

Lemma sort_perm (k : SortKey) (l : list Transaction) : Permutation (sort k l) l.
Proof.
  induction l as [l Hs | l Hl IH1 IH2] using (sort_ind k).
  - rewrite sort_short by assumption. reflexivity.
  - rewrite sort_long by assumption. rewrite merge_perm, IH1, IH2.
    rewrite firstn_skipn. reflexivity.
Qed.

Lemma sort_sorted (k : SortKey) (l : list Transaction) :
  StronglySorted (fieldOrder k) (sort k l).
Proof.
  induction l as [l Hs | l Hl IH1 IH2] using (sort_ind k).
  - rewrite sort_short by assumption.
    destruct l as [|a [|b l]]; simpl in Hs; try lia; repeat constructor.
  - rewrite sort_long by assumption. apply merge_sorted; assumption.
Qed.

Lemma sort_stable (k : SortKey) (x : Transaction) (l : list Transaction) :
  filter (sameField k x) (sort k l) = filter (sameField k x) l.
Proof.
  induction l as [l Hs | l Hl IH1 IH2] using (sort_ind k).
  - rewrite sort_short by assumption. reflexivity.
  - rewrite sort_long by assumption.
    rewrite merge_filter by apply sort_sorted.
    rewrite IH1, IH2, <- filter_app, firstn_skipn. reflexivity.
Qed.

(** ** Radix sort: one pass *)

Lemma nth_bucket_update (b : list (list Transaction)) (i j : nat) (v : list Transaction) :
  (i < length b)%nat ->
  nth j (firstn i b ++ v :: skipn (S i) b) [] = if (j =? i)%nat then v else nth j b [].
Proof.
  intros Hi.
  assert (Hlen : length (firstn i b) = i) by (rewrite length_firstn; lia).
  destruct (Nat.eqb_spec j i) as [->|Hne].
  - rewrite app_nth2 by lia. rewrite Hlen, Nat.sub_diag. reflexivity.
  - destruct (Nat.lt_ge_cases j i) as [Hlt|Hge].
    + rewrite app_nth1 by lia. rewrite nth_firstn.
      destruct (Nat.ltb_spec j i); [reflexivity|lia].
    + rewrite app_nth2 by lia. rewrite Hlen.
      destruct (j - i)%nat as [|m] eqn:Hm; [lia|]. cbn [nth].
      rewrite nth_skipn. f_equal. lia.
Qed.

Lemma length_bucket_update (b : list (list Transaction)) (i : nat) (v : list Transaction) :
  (i < length b)%nat -> length (firstn i b ++ v :: skipn (S i) b) = length b.
Proof.
  intros Hi. rewrite length_app, length_firstn. cbn [length]. rewrite length_skipn. lia.
Qed.

Lemma forEachPush_spec (divisor : Q) (items : list Transaction) :
  forall b, length b = 10%nat ->
  match forEachPush divisor items b with
  | Some b' =>
      length b' = 10%nat
      /\ Forall (digitInRange divisor) items
      /\ forall j, (j < 10)%nat ->
           nth j b' [] =
           nth j b [] ++ filter (fun item => digitValueOf divisor item =? Z.of_nat j) items
  | None => ~ Forall (digitInRange divisor) items
  end.
Proof.
  induction items as [|item items IH]; intros b Hb; cbn [forEachPush].
  - split; [exact Hb|]. split; [constructor|]. intros j _. cbn [filter].
    rewrite app_nil_r. reflexivity.
  - unfold bucketPush. rewrite Hb.
    destruct ((0 <=? digitValueOf divisor item) && (digitValueOf divisor item <? Z.of_nat 10))
      eqn:Hd.
    + apply andb_true_iff in Hd as [Hd1 Hd2].
      apply Z.leb_le in Hd1. apply Z.ltb_lt in Hd2.
      set (i := Z.to_nat (digitValueOf divisor item)) in *.
      assert (Hi : (i < length b)%nat) by (subst i; lia).
      specialize (IH (firstn i b ++ (nth i b [] ++ [item]) :: skipn (S i) b)).
      rewrite length_bucket_update in IH by exact Hi. specialize (IH Hb).
      destruct (forEachPush divisor items _) as [b'|].
      * destruct IH as (Hlen & Hall & Hnth). split; [exact Hlen|].
        split; [constructor; [split; lia | exact Hall]|].
        intros j Hj. rewrite (Hnth j Hj), nth_bucket_update by exact Hi.
        cbn [filter].
        destruct (Nat.eqb_spec j i) as [->|Hne].
        -- assert ((digitValueOf divisor item =? Z.of_nat i) = true) as ->
             by (apply Z.eqb_eq; subst i; lia).
           rewrite <- app_assoc. reflexivity.
        -- assert ((digitValueOf divisor item =? Z.of_nat j) = false) as ->
             by (apply Z.eqb_neq; subst i; lia).
           reflexivity.
      * intros Hall. inversion Hall; subst. contradiction.
    + intros Hall. inversion Hall as [|? ? [H1 H2] _]; subst.
      apply andb_false_iff in Hd as [Hd|Hd];
        [apply Z.leb_gt in Hd | apply Z.ltb_ge in Hd]; lia.
Qed.

Lemma concat_ten (b : list (list Transaction)) :
  length b = 10%nat -> concat b = flat_map (fun j => nth j b []) (seq 0 10).
Proof.
  intros Hb. do 11 (destruct b as [|? b]; try discriminate Hb).
  cbn. rewrite !app_nil_r. reflexivity.
Qed.

(** A pass returns exactly when every digit is the index of a bucket,
    and then it returns the items bucket after bucket. *)
Lemma radixPass_spec (digit : nat) (items : list Transaction) :
  match radixPass digit items with
  | Some out =>
      Forall (digitInRange (Math_pow10 digit)) items
      /\ out = byDigit (Math_pow10 digit) items
  | None => ~ Forall (digitInRange (Math_pow10 digit)) items
  end.
Proof.
  unfold radixPass.
  pose proof (forEachPush_spec (Math_pow10 digit) items (repeat [] 10) eq_refl) as Hs.
  destruct (forEachPush _ items _) as [b'|]; [|exact Hs].
  destruct Hs as (Hlen & Hall & Hnth). split; [exact Hall|].
  rewrite concat_ten by exact Hlen. unfold byDigit.
  cbn [seq flat_map]. rewrite !Hnth by lia. reflexivity.
Qed.

Lemma filter_flat_map_comm {A B} (P : B -> bool) (f : A -> list B) (l : list A) :
  filter P (flat_map f l) = flat_map (fun x => filter P (f x)) l.
Proof.
  induction l as [|x l IH]; cbn [flat_map]; [reflexivity|].
  rewrite filter_app, IH. reflexivity.
Qed.

Lemma flat_map_unchanged {B} (f g : nat -> list B) (js : list nat) :
  (forall j, In j js -> f j = g j) -> flat_map f js = flat_map g js.
Proof.
  induction js as [|j js IH]; intros Hfg; cbn [flat_map]; [reflexivity|].
  rewrite Hfg by (left; reflexivity). rewrite IH; [reflexivity|].
  intros j' Hj'. apply Hfg. right. exact Hj'.
Qed.

(** Adding an item to one bucket adds it to the items. *)
Lemma flat_map_insert_perm {B} (f : nat -> list B) (a : B) (i : nat) (js : list nat) :
  NoDup js -> In i js ->
  Permutation (flat_map (fun j => if (j =? i)%nat then a :: f j else f j) js)
              (a :: flat_map f js).
Proof.
  induction js as [|j js IH]; intros Hnd Hin; [destruct Hin|].
  inversion Hnd as [|? ? Hnotin Hnd']; subst. cbn [flat_map].
  destruct (Nat.eqb_spec j i) as [->|Hne].
  - rewrite (flat_map_unchanged _ f js); [reflexivity|].
    intros j Hj. destruct (Nat.eqb_spec j i) as [->|_]; [contradiction|reflexivity].
  - destruct Hin as [->|Hin]; [congruence|].
    rewrite IH by assumption. symmetry. apply Permutation_middle.
Qed.

Lemma byDigit_cons (divisor : Q) (a : Transaction) (l : list Transaction) :
  0 <= digitValueOf divisor a ->
  byDigit divisor (a :: l)
  = flat_map
      (fun j =>
         if (j =? Z.to_nat (digitValueOf divisor a))%nat
         then a :: filter (fun item => digitValueOf divisor item =? Z.of_nat j) l
         else filter (fun item => digitValueOf divisor item =? Z.of_nat j) l)
      (seq 0 10).
Proof.
  intros Ha. unfold byDigit. apply flat_map_ext. intros j. cbn [filter].
  destruct (Nat.eqb_spec j (Z.to_nat (digitValueOf divisor a))) as [->|Hne].
  - rewrite Z2Nat.id by exact Ha. rewrite Z.eqb_refl. reflexivity.
  - destruct (Z.eqb_spec (digitValueOf divisor a) (Z.of_nat j)) as [E|_];
      [|reflexivity].
    rewrite E, Nat2Z.id in Hne. congruence.
Qed.

Lemma byDigit_perm (divisor : Q) (l : list Transaction) :
  Forall (digitInRange divisor) l -> Permutation (byDigit divisor l) l.
Proof.
  induction 1 as [|a l [Ha1 Ha2] Hall IH].
  - reflexivity.
  - rewrite byDigit_cons by exact Ha1.
    rewrite flat_map_insert_perm.
    + constructor. exact IH.
    + apply seq_NoDup.
    + apply in_seq. lia.
Qed.

(** Among the items of one key, hence of one digit, a pass changes
    nothing. *)
Lemma filter_bucket (divisor : Q) (P : Transaction -> bool) (v : Z)
    (l : list Transaction) (j : nat) :
  (forall x, In x l -> P x = true -> sortKeyOr0 x = v) ->
  filter P (filter (fun item => digitValueOf divisor item =? Z.of_nat j) l)
  = if Z.rem (Qfloor (round64 (inject_Z v / divisor))) 10 =? Z.of_nat j
    then filter P l else [].
Proof.
  induction l as [|a l IH]; intros HP.
  - cbn [filter]. destruct (_ =? _); reflexivity.
  - assert (HP' : forall x, In x l -> P x = true -> sortKeyOr0 x = v)
      by (intros x Hx; apply HP; right; exact Hx).
    specialize (IH HP'). cbn [filter].
    destruct (P a) eqn:HPa.
    + assert (Hav : sortKeyOr0 a = v) by (apply HP; [left; reflexivity | exact HPa]).
      unfold digitValueOf at 1. rewrite Hav.
      destruct (Z.rem (Qfloor (round64 (inject_Z v / divisor))) 10 =? Z.of_nat j).
      * cbn [filter]. rewrite HPa, IH. reflexivity.
      * exact IH.
    + destruct (digitValueOf divisor a =? Z.of_nat j).
      * cbn [filter]. rewrite HPa. exact IH.
      * exact IH.
Qed.

Lemma flat_map_pick {B} (X : list B) (dv : Z) :
  flat_map (fun j => if dv =? Z.of_nat j then X else []) (seq 0 10)
  = if (0 <=? dv) && (dv <? 10) then X else [].
Proof.
  assert (Hcases : dv = 0 \/ dv = 1 \/ dv = 2 \/ dv = 3 \/ dv = 4 \/ dv = 5 \/ dv = 6
                   \/ dv = 7 \/ dv = 8 \/ dv = 9 \/ (dv < 0 \/ 10 <= dv)) by lia.
  repeat (destruct Hcases as [-> | Hcases];
          [cbn; rewrite ?app_nil_r; reflexivity|]).
  cbn [seq flat_map].
  repeat match goal with
         | |- context [dv =? ?k] =>
             let E := fresh in
             destruct (Z.eqb_spec dv k) as [E|_]; [cbn in E; lia|]
         end.
  destruct (Z.leb_spec 0 dv); destruct (Z.ltb_spec dv 10); try reflexivity; lia.
Qed.

Lemma byDigit_filter (divisor : Q) (P : Transaction -> bool) (v : Z)
    (l : list Transaction) :
  Forall (digitInRange divisor) l ->
  (forall x, In x l -> P x = true -> sortKeyOr0 x = v) ->
  filter P (byDigit divisor l) = filter P l.
Proof.
  intros Hall HP. unfold byDigit. rewrite filter_flat_map_comm.
  set (dv := Z.rem (Qfloor (round64 (inject_Z v / divisor))) 10).
  rewrite (flat_map_ext _ (fun j => if dv =? Z.of_nat j then filter P l else []))
    by (intros j; apply filter_bucket; exact HP).
  rewrite flat_map_pick.
  destruct ((0 <=? dv) && (dv <? 10)) eqn:Hr; [reflexivity|].
  symmetry. clear - Hall HP Hr. induction Hall as [|a l Ha Hall IH]; [reflexivity|].
  cbn [filter]. destruct (P a) eqn:HPa.
  - exfalso. assert (Hav : sortKeyOr0 a = v) by (apply HP; [left; reflexivity | exact HPa]).
    unfold digitInRange, digitValueOf in Ha. rewrite Hav in Ha. fold dv in Ha.
    apply andb_false_iff in Hr as [Hr|Hr];
      [apply Z.leb_gt in Hr | apply Z.ltb_ge in Hr]; lia.
  - apply IH. intros x Hx. apply HP. right. exact Hx.
Qed.

(** ** Radix sort: the order after each pass *)

Lemma pow10_pos (k : nat) : 0 < 10 ^ Z.of_nat k.
Proof. apply Z.pow_pos_nonneg; lia. Qed.

Lemma Math_pow10_pos (k : nat) : (0 < Math_pow10 k)%Q.
Proof.
  unfold Math_pow10.
  apply Qlt_le_trans with (y := round64 (inject_Z 1)); [vm_compute; reflexivity|].
  apply round64_mono. rewrite <- Zle_Qle. pose proof (pow10_pos k). lia.
Qed.

(** Up to [10^15] the power is below 2^53, hence a double. *)
Lemma Math_pow10_exact (k : nat) :
  (k <= 15)%nat -> (Math_pow10 k == inject_Z (10 ^ Z.of_nat k))%Q.
Proof.
  intros Hk. unfold Math_pow10. apply round64_Z_small.
  assert (10 ^ Z.of_nat k <= 10 ^ 15) by (apply Z.pow_le_mono_r; lia).
  pose proof (pow10_pos k). change (10 ^ 15) with 1000000000000000 in H.
  change (2 ^ 53) with 9007199254740992. lia.
Qed.

(** From [10^16] on the power, rounded or not, is above every key below
    2^53. *)
Lemma Math_pow10_large (k : nat) :
  (16 <= k)%nat -> (inject_Z (2 ^ 53) <= Math_pow10 k)%Q.
Proof.
  intros Hk. unfold Math_pow10.
  apply Qle_trans with (y := round64 (inject_Z (2 ^ 53))); [vm_compute; discriminate|].
  apply round64_mono. rewrite <- Zle_Qle.
  assert (10 ^ 16 <= 10 ^ Z.of_nat k) by (apply Z.pow_le_mono_r; lia).
  change (10 ^ 16) with 10000000000000000 in H.
  change (2 ^ 53) with 9007199254740992. lia.
Qed.

(** The digits of a key below 2^53 are its decimal digits: the quotient
    is rounded, but never up to the next integer. *)
Lemma digit_exact (k : nat) (key : Z) :
  0 <= key < 2 ^ 53 ->
  Z.rem (Qfloor (round64 (inject_Z key / Math_pow10 k))) 10
  = (key / 10 ^ Z.of_nat k) mod 10.
Proof.
  intros Hkey. pose proof (pow10_pos k) as Hpow.
  assert (Hfloor : Qfloor (round64 (inject_Z key / Math_pow10 k)) = key / 10 ^ Z.of_nat k).
  { destruct (le_lt_dec k 15) as [Hk|Hk].
    - rewrite (round64_compat _ (inject_Z key / inject_Z (10 ^ Z.of_nat k)))
        by (rewrite (Math_pow10_exact k Hk); reflexivity).
      apply floor_round64_div; [exact Hkey|].
      assert (10 ^ Z.of_nat k <= 10 ^ 15) by (apply Z.pow_le_mono_r; lia).
      change (10 ^ 15) with 1000000000000000 in H.
      change (2 ^ 53) with 9007199254740992. lia.
    - assert (Hdiv : key / 10 ^ Z.of_nat k = 0).
      { apply Z.div_small.
        assert (10 ^ 16 <= 10 ^ Z.of_nat k) by (apply Z.pow_le_mono_r; lia).
        change (10 ^ 16) with 10000000000000000 in H.
        change (2 ^ 53) with 9007199254740992 in Hkey. lia. }
      rewrite Hdiv. pose proof (Math_pow10_large k ltac:(lia)) as HD.
      pose proof (Math_pow10_pos k) as HD0.
      set (D := Math_pow10 k) in *.
      assert (Hx0 : (0 <= inject_Z key / D)%Q).
      { apply Qle_shift_div_l; [exact HD0|]. rewrite Qmult_0_l, <- (Zle_Qle 0). lia. }
      assert (Hx1 : (inject_Z key / D <= inject_Z (2 ^ 53 - 1) / inject_Z (2 ^ 53))%Q).
      { apply Qle_shift_div_r; [exact HD0|].
        assert (Hk1 : (inject_Z key <= inject_Z (2 ^ 53 - 1))%Q) by (rewrite <- Zle_Qle; lia).
        assert (Hpos : (0 < inject_Z (2 ^ 53 - 1) / inject_Z (2 ^ 53))%Q)
          by (vm_compute; reflexivity).
        assert (Hone : (inject_Z (2 ^ 53 - 1) / inject_Z (2 ^ 53) * inject_Z (2 ^ 53)
                        == inject_Z (2 ^ 53 - 1))%Q) by (vm_compute; reflexivity).
        set (c := (inject_Z (2 ^ 53 - 1) / inject_Z (2 ^ 53))%Q) in *.
        assert (c * inject_Z (2 ^ 53) <= c * D)%Q by (apply Qmult_le_l; assumption).
        lra. }
      apply Qfloor_unique.
      + apply round64_nonneg. exact Hx0.
      + apply Qle_lt_trans
          with (y := round64 (inject_Z (2 ^ 53 - 1) / inject_Z (2 ^ 53)));
          [apply round64_mono; exact Hx1 | vm_compute; reflexivity]. }
  rewrite Hfloor. apply Z.rem_mod_nonneg; [|lia].
  apply Z.div_pos; lia.
Qed.

Lemma digit_of_small (k : nat) (item : Transaction) :
  keySmall item ->
  digitValueOf (Math_pow10 k) item = (sortKeyOr0 item / 10 ^ Z.of_nat k) mod 10.
Proof. intros Hk. unfold digitValueOf. apply digit_exact. exact Hk. Qed.

(** A key that is not negative has a digit that is the index of a
    bucket, whatever the rounding. *)
Lemma nonneg_digitInRange (k : nat) (item : Transaction) :
  keyNonneg item -> digitInRange (Math_pow10 k) item.
Proof.
  intros Hk. unfold digitInRange, digitValueOf.
  assert (Hf : 0 <= Qfloor (round64 (inject_Z (sortKeyOr0 item) / Math_pow10 k))).
  { apply Qfloor_nonneg, round64_nonneg.
    apply Qle_shift_div_l; [apply Math_pow10_pos|].
    rewrite Qmult_0_l, <- (Zle_Qle 0). exact Hk. }
  set (f := Qfloor _) in *.
  pose proof (Z.rem_bound_pos f 10 Hf ltac:(lia)). lia.
Qed.

Lemma lowKey_range (k : nat) (item : Transaction) : 0 <= lowKey k item < 10 ^ Z.of_nat k.
Proof. apply Z.mod_pos_bound, pow10_pos. Qed.

Lemma lowKey_succ (k : nat) (item : Transaction) :
  keySmall item ->
  lowKey (S k) item = lowKey k item + 10 ^ Z.of_nat k * digitValueOf (Math_pow10 k) item.
Proof.
  intros Hk. rewrite digit_of_small by exact Hk. unfold lowKey.
  rewrite Nat2Z.inj_succ, Z.pow_succ_r by lia.
  rewrite (Z.mul_comm 10). apply Z.rem_mul_r; [|lia].
  pose proof (pow10_pos k). lia.
Qed.

Lemma StronglySorted_app_intro {A} (R : A -> A -> Prop) (l1 l2 : list A) :
  StronglySorted R l1 -> StronglySorted R l2 ->
  (forall a b, In a l1 -> In b l2 -> R a b) ->
  StronglySorted R (l1 ++ l2).
Proof.
  induction 1 as [|a l1 Hs IH Ha]; intros H2 Hcross; cbn [app]; [exact H2|].
  constructor.
  - apply IH; [exact H2|]. intros x y Hx Hy. apply Hcross; [right; exact Hx | exact Hy].
  - apply Forall_app. split; [exact Ha|].
    apply Forall_forall. intros y Hy. apply Hcross; [left; reflexivity | exact Hy].
Qed.

Lemma StronglySorted_filter_impl {A} (R R' : A -> A -> Prop) (p : A -> bool) (l : list A) :
  StronglySorted R l ->
  (forall a b, In a l -> In b l -> p a = true -> p b = true -> R a b -> R' a b) ->
  StronglySorted R' (filter p l).
Proof.
  induction 1 as [|a l Hs IH Ha]; intros Himp; cbn [filter]; [constructor|].
  assert (Htail : StronglySorted R' (filter p l)).
  { apply IH. intros x y Hx Hy. apply Himp; right; assumption. }
  destruct (p a) eqn:Hpa; [|exact Htail].
  constructor; [exact Htail|].
  apply Forall_forall. intros y Hy. apply filter_In in Hy as [Hy Hpy].
  apply Himp; [left; reflexivity | right; exact Hy | exact Hpa | exact Hpy |].
  rewrite Forall_forall in Ha. apply Ha. exact Hy.
Qed.

Lemma StronglySorted_impl_in {A} (R R' : A -> A -> Prop) (l : list A) :
  StronglySorted R l ->
  (forall a b, In a l -> In b l -> R a b -> R' a b) ->
  StronglySorted R' l.
Proof.
  intros Hs Himp.
  rewrite <- (filter_true l) at 1.
  - apply StronglySorted_filter_impl with (R := R); [exact Hs|].
    intros a b Ha Hb _ _. apply Himp; assumption.
Qed.

Lemma StronglySorted_flat_map {A} (R : A -> A -> Prop) (f : nat -> list A) (js : list nat) :
  StronglySorted lt js ->
  (forall j, In j js -> StronglySorted R (f j)) ->
  (forall j j' a b, In j js -> In j' js -> (j < j')%nat ->
                    In a (f j) -> In b (f j') -> R a b) ->
  StronglySorted R (flat_map f js).
Proof.
  induction 1 as [|j js Hs IH Hj]; intros Heach Hcross; cbn [flat_map]; [constructor|].
  apply StronglySorted_app_intro.
  - apply Heach. left. reflexivity.
  - apply IH.
    + intros j0 Hj0. apply Heach. right. exact Hj0.
    + intros j0 j' a b Hj0 Hj'. apply Hcross; right; assumption.
  - intros a b Ha Hb. apply in_flat_map in Hb as (j' & Hj' & Hb).
    apply (Hcross j j'); [left; reflexivity | right; exact Hj' | | exact Ha | exact Hb].
    rewrite Forall_forall in Hj. apply Hj. exact Hj'.
Qed.

Lemma seq_StronglySorted (start len : nat) : StronglySorted lt (seq start len).
Proof.
  revert start. induction len as [|len IH]; intros start; cbn [seq]; constructor.
  - apply IH.
  - apply Forall_forall. intros j Hj. apply in_seq in Hj. lia.
Qed.

(** After the pass on the digit [k], the items are in the order of their
    [k + 1] lowest digits. *)
Lemma byDigit_sorted (k : nat) (l : list Transaction) :
  Forall keySmall l ->
  StronglySorted (lowOrder k) l ->
  StronglySorted (lowOrder (S k)) (byDigit (Math_pow10 k) l).
Proof.
  intros Hnn Hs. rewrite Forall_forall in Hnn. unfold byDigit.
  apply StronglySorted_flat_map.
  - apply seq_StronglySorted.
  - intros j _. apply StronglySorted_filter_impl with (R := lowOrder k); [exact Hs|].
    intros a b Ha Hb Hda Hdb Hab. apply Z.eqb_eq in Hda, Hdb.
    unfold lowOrder in *. rewrite !lowKey_succ by (apply Hnn; assumption).
    rewrite Hda, Hdb. lia.
  - intros j j' a b _ _ Hjj' Ha Hb.
    apply filter_In in Ha as [Ha Hda]. apply filter_In in Hb as [Hb Hdb].
    apply Z.eqb_eq in Hda, Hdb.
    unfold lowOrder. rewrite !lowKey_succ by (apply Hnn; assumption).
    rewrite Hda, Hdb.
    pose proof (lowKey_range k a). pose proof (lowKey_range k b).
    pose proof (pow10_pos k). nia.
Qed.

(** ** The number of digits of the largest key *)

Lemma of_lu_bound (d : Decimal.uint) :
  (Unsigned.of_lu d < 10 ^ N.of_nat (Decimal.nb_digits d))%N.
Proof.
  induction d; cbn [Unsigned.of_lu Decimal.nb_digits];
    rewrite ?Nat2N.inj_succ, ?N.pow_succ_r'; try (cbn; lia); lia.
Qed.

Lemma length_string_of_uint (d : Decimal.uint) :
  String.length (NilEmpty.string_of_uint d) = Decimal.nb_digits d.
Proof.
  induction d; cbn [NilEmpty.string_of_uint String.length Decimal.nb_digits];
    congruence.
Qed.

Lemma decimal_bound (n : Z) :
  0 <= n -> n < 10 ^ Z.of_nat (String.length (decimal n)).
Proof.
  intros Hn. destruct n as [|p|p]; [cbn; lia| |lia].
  unfold decimal. cbn [Z.to_int NilZero.string_of_int].
  assert (Hnil : Pos.to_uint p <> Decimal.Nil) by apply Unsigned.to_uint_nonnil.
  assert (Hlen : String.length (NilZero.string_of_uint (Pos.to_uint p))
                 = Decimal.nb_digits (Pos.to_little_uint p)).
  { unfold NilZero.string_of_uint.
    destruct (Pos.to_uint p) eqn:E; try congruence;
      rewrite <- E, length_string_of_uint; unfold Pos.to_uint;
      apply nb_digits_rev. }
  rewrite Hlen.
  pose proof (of_lu_bound (Pos.to_little_uint p)) as Hb.
  rewrite <- Unsigned.of_lu_rev in Hb. fold (Pos.to_uint p) in Hb.
  rewrite Unsigned.of_to in Hb.
  apply N2Z.inj_lt in Hb. rewrite N2Z.inj_pow in Hb.
  rewrite nat_N_Z in Hb. exact Hb.
Qed.

Lemma decimal_nonempty (n : Z) : (1 <= String.length (decimal n))%nat.
Proof.
  unfold decimal. destruct n as [|q|q]; cbn [Z.to_int NilZero.string_of_int].
  - cbn. lia.
  - unfold NilZero.string_of_uint.
    destruct (Pos.to_uint q); cbn [NilEmpty.string_of_uint String.length]; lia.
  - cbn [String.length]. lia.
Qed.

(** Below 2^53 the string is the decimal digits. *)
Lemma toString_small (n : Z) : Z.abs n < 2 ^ 53 -> toString n = decimal n.
Proof.
  intros Hn. unfold toString.
  destruct (Z.ltb_spec (Z.abs n) (2 ^ 53)); [reflexivity | lia].
Qed.

Lemma toString_bound (n : Z) :
  0 <= n < 2 ^ 53 -> n < 10 ^ Z.of_nat (String.length (toString n)).
Proof.
  intros Hn. rewrite toString_small by lia. apply decimal_bound. lia.
Qed.

Lemma exponential_nonempty (v : Z) : (1 <= String.length (exponential v))%nat.
Proof.
  unfold exponential. destruct (stripZeros (decimal v)) as [|d [|c rest]];
    cbn [String.length]; lia.
Qed.

Lemma toString_nonempty (n : Z) : (1 <= String.length (toString n))%nat.
Proof.
  unfold toString. destruct (Z.abs n <? 2 ^ 53); [apply decimal_nonempty|].
  set (v := shortestDecimal (Z.abs n)).
  assert (Hbody : (1 <= String.length (if (v <? 10 ^ 21)%Z then decimal v
                                       else exponential v))%nat)
    by (destruct (v <? 10 ^ 21)%Z; [apply decimal_nonempty | apply exponential_nonempty]).
  destruct (n <? 0); [cbn [String.length]; lia | exact Hbody].
Qed.

Lemma fold_max_lt (ks : list Z) (k0 bound : Z) :
  k0 < bound -> Forall (fun k => k < bound) ks -> fold_left Z.max ks k0 < bound.
Proof.
  revert k0. induction ks as [|k ks IH]; intros k0 H0 Hall; cbn [fold_left]; [exact H0|].
  inversion Hall; subst. apply IH; [lia | assumption].
Qed.

Lemma Math_max_lt (keys : list Z) (bound : Z) :
  0 < bound -> Forall (fun k => k < bound) keys -> Math_max keys < bound.
Proof.
  intros Hb Hall. destruct keys as [|k ks]; [exact Hb|]. cbn [Math_max].
  inversion Hall; subst. apply fold_max_lt; assumption.
Qed.

Lemma fold_max_ge (ks : list Z) (k0 : Z) :
  k0 <= fold_left Z.max ks k0 /\ Forall (fun k => k <= fold_left Z.max ks k0) ks.
Proof.
  revert k0. induction ks as [|k ks IH]; intros k0; cbn [fold_left].
  - split; [lia | constructor].
  - destruct (IH (Z.max k0 k)) as [H1 H2]. split; [lia|].
    constructor; [lia | exact H2].
Qed.

Lemma Math_max_ge (keys : list Z) : Forall (fun k => k <= Math_max keys) keys.
Proof.
  destruct keys as [|k ks]; [constructor|]. cbn [Math_max].
  destruct (fold_max_ge ks k) as [H1 H2]. constructor; assumption.
Qed.

Lemma Math_max_nonneg (keys : list Z) :
  Forall (fun k => 0 <= k) keys -> 0 <= Math_max keys.
Proof.
  intros Hall. destruct keys as [|k ks]; [cbn; lia|].
  inversion Hall as [|? ? Hk _]; subst. cbn [Math_max].
  destruct (fold_max_ge ks k) as [Hge _]. lia.
Qed.

(** ** Radix sort: the loop *)

Lemma radixPass_nonneg (digit : nat) (l : list Transaction) :
  Forall keyNonneg l -> radixPass digit l = Some (byDigit (Math_pow10 digit) l).
Proof.
  intros Hnn. pose proof (radixPass_spec digit l) as Hs.
  destruct (radixPass digit l) as [out|].
  - destruct Hs as [_ ->]. reflexivity.
  - exfalso. apply Hs. eapply Forall_impl; [|exact Hnn].
    intros a. apply nonneg_digitInRange.
Qed.

(** Whenever the loop returns, it returns a stable rearrangement. *)
Lemma radixLoop_returned (remaining : nat) :
  forall digit l out,
    radixLoop digit remaining l = Some out ->
    Permutation out l /\ keyStable out l.
Proof.
  induction remaining as [|remaining IH]; intros digit l out Hrun; cbn [radixLoop] in Hrun.
  - injection Hrun as <-. split; [reflexivity|]. intros P v _. reflexivity.
  - pose proof (radixPass_spec digit l) as Hs.
    destruct (radixPass digit l) as [next|]; [|discriminate].
    destruct Hs as [Hall ->].
    destruct (IH _ _ _ Hrun) as [Hperm Hst].
    pose proof (byDigit_perm _ _ Hall) as Hp. split.
    + rewrite Hperm. exact Hp.
    + intros P v HP. rewrite (Hst P v).
      * apply byDigit_filter with (v := v); assumption.
      * intros x Hx. apply HP. eapply Permutation_in; eassumption.
Qed.

Lemma keySmall_nonneg (l : list Transaction) : Forall keySmall l -> Forall keyNonneg l.
Proof. apply Forall_impl. intros a [Ha _]. exact Ha. Qed.

(** With keys that are not negative the loop returns. *)
Lemma radixLoop_returns (remaining : nat) :
  forall digit l,
    Forall keyNonneg l -> exists out, radixLoop digit remaining l = Some out.
Proof.
  induction remaining as [|remaining IH]; intros digit l Hnn; cbn [radixLoop].
  - exists l. reflexivity.
  - rewrite radixPass_nonneg by exact Hnn. apply IH.
    eapply Permutation_Forall; [|exact Hnn]. symmetry. apply byDigit_perm.
    eapply Forall_impl; [|exact Hnn]. intros a. apply nonneg_digitInRange.
Qed.

(** With keys that are not negative and below 2^53, each pass extends
    the order by one digit. *)
Lemma radixLoop_sorted (remaining : nat) :
  forall digit l,
    Forall keySmall l ->
    StronglySorted (lowOrder digit) l ->
    exists out,
      radixLoop digit remaining l = Some out
      /\ StronglySorted (lowOrder (digit + remaining)) out.
Proof.
  induction remaining as [|remaining IH]; intros digit l Hsm Hs; cbn [radixLoop].
  - exists l. rewrite Nat.add_0_r. split; [reflexivity | exact Hs].
  - pose proof (keySmall_nonneg l Hsm) as Hnn.
    rewrite radixPass_nonneg by exact Hnn.
    destruct (IH (S digit) (byDigit (Math_pow10 digit) l)) as (out & Hrun & Hout).
    + eapply Permutation_Forall; [|exact Hsm]. symmetry. apply byDigit_perm.
      eapply Forall_impl; [|exact Hnn]. intros a. apply nonneg_digitInRange.
    + apply byDigit_sorted; assumption.
    + exists out. split; [exact Hrun|].
      replace (digit + S remaining)%nat with (S digit + remaining)%nat by lia.
      exact Hout.
Qed.

Lemma lowOrder_zero (l : list Transaction) : StronglySorted (lowOrder 0) l.
Proof.
  induction l as [|a l IH]; constructor; [exact IH|].
  apply Forall_forall. intros b _. unfold lowOrder, lowKey.
  change (10 ^ Z.of_nat 0) with 1. rewrite !Z.mod_1_r. lia.
Qed.

Lemma radixCore_returned (l out : list Transaction) :
  radixCore l = Some out -> Permutation out l /\ keyStable out l.
Proof. unfold radixCore. apply radixLoop_returned. Qed.

(** With keys that are not negative, the radix core returns. *)
Lemma radixCore_returns (l : list Transaction) :
  Forall keyNonneg l -> exists out, radixCore l = Some out.
Proof. intros Hnn. unfold radixCore. apply radixLoop_returns. exact Hnn. Qed.

Lemma radixCore_sorted (l : list Transaction) :
  Forall keySmall l ->
  exists out, radixCore l = Some out /\ StronglySorted keyOrder out.
Proof.
  intros Hsm. pose proof (keySmall_nonneg l Hsm) as Hnn. unfold radixCore.
  set (maxVal := Math_max (map sortKeyOr0 l)).
  set (maxDigits := String.length (toString maxVal)).
  destruct (radixLoop_sorted maxDigits 0 l Hsm (lowOrder_zero l)) as (out & Hrun & Hs).
  exists out. split; [exact Hrun|].
  destruct (radixLoop_returned _ _ _ _ Hrun) as [Hperm _].
  assert (Hmax : 0 <= maxVal < 2 ^ 53).
  { split.
    - apply Math_max_nonneg. apply Forall_map. exact Hnn.
    - apply Math_max_lt; [reflexivity|]. apply Forall_map.
      eapply Forall_impl; [|exact Hsm]. intros a [_ Ha]. exact Ha. }
  pose proof (toString_bound maxVal Hmax) as Hbound. fold maxDigits in Hbound.
  assert (Hsmall : forall a, In a out -> lowKey maxDigits a = sortKeyOr0 a).
  { intros a Ha. apply (Permutation_in _ Hperm) in Ha.
    unfold lowKey. apply Z.mod_small. split.
    - rewrite Forall_forall in Hnn. apply Hnn. exact Ha.
    - pose proof (Math_max_ge (map sortKeyOr0 l)) as Hge.
      rewrite Forall_forall in Hge.
      specialize (Hge (sortKeyOr0 a) (in_map _ _ _ Ha)). fold maxVal in Hge. lia. }
  apply StronglySorted_impl_in with (R := lowOrder (0 + maxDigits)); [exact Hs|].
  intros a b Ha Hb. unfold lowOrder, keyOrder. cbn [Nat.add].
  rewrite !Hsmall by assumption. auto.
Qed.

(** A negative key is pushed to no bucket: the sorter throws. *)
Example radixCore_negative_key :
  radixCore (preprocessForRadix
    [mkTransaction "a" "AAPL" 100 (-5) "" None;
     mkTransaction "b" "MSFT" 100 3 "" None] Timestamp) = None.
Proof. vm_compute. reflexivity. Qed.

(** ** Radix sort on the encoded transactions *)

Lemma sortKeyOr0_withSortKey (item : Transaction) (k : Z) :
  sortKeyOr0 (withSortKey item k) = k.
Proof. reflexivity. Qed.

Lemma preprocess_keyNonneg (k : SortKey) (arr : list Transaction) :
  Forall (fun item => 0 <= encode k item) arr ->
  Forall keyNonneg (preprocessForRadix arr k).
Proof.
  intros Hall. unfold preprocessForRadix. apply Forall_map.
  eapply Forall_impl; [|exact Hall]. intros a Ha. exact Ha.
Qed.

Lemma preprocess_keySmall (k : SortKey) (arr : list Transaction) :
  Forall (fun item => 0 <= encode k item < 2 ^ 53) arr ->
  Forall keySmall (preprocessForRadix arr k).
Proof.
  intros Hall. unfold preprocessForRadix. apply Forall_map.
  eapply Forall_impl; [|exact Hall]. intros a Ha. exact Ha.
Qed.


(** ** The two sorters as they are called *)

Lemma mergeSort_run (H : Host) (arr : list Transaction) (k : SortKey) (p : Pending) :
  mergeSort H arr k p
  = (Returned {| sorted := sort k arr;
                 time := (readingAt H p 1 - readingAt H p 0) * (5 # 2) |},
     afterReads 2 p).
Proof. reflexivity. Qed.

Lemma earlier_mergeSort_run (H : Host) (arr : list Transaction) (k : SortKey) (p : Pending) :
  Earlier.mergeSort H arr k p
  = (Returned {| sorted := sort k arr; time := readingAt H p 1 - readingAt H p 0 |},
     afterReads 2 p).
Proof. reflexivity. Qed.

Lemma radixSort_short (H : Host) (arr : list Transaction) (k : SortKey) (p : Pending) :
  (length arr <= 1)%nat ->
  radixSort H arr k p
  = (Returned {| sorted := arr; time := 0 |},
     mkPending (current p) (queue p ++ [fun _ _ => set_preprocessedData []])).
Proof.
  intros Hlen. unfold radixSort.
  destruct (Nat.leb_spec (length arr) 1); [reflexivity|lia].
Qed.

Lemma radixSort_long (H : Host) (arr : list Transaction) (k : SortKey) (p : Pending) :
  (1 < length arr)%nat ->
  radixSort H arr k p
  = match radixCore (preprocessForRadix arr k) with
    | Some out =>
        (Returned {| sorted := out; time := readingAt H p 1 - readingAt H p 0 |},
         mkPending (current (afterReads 2 p))
           (queue p ++ [fun _ _ => set_preprocessedData
                                     (firstn 20 (preprocessForRadix arr k))]))
    | None =>
        (Thrown,
         mkPending (current (afterReads 1 p))
           (queue p ++ [fun _ _ => set_preprocessedData
                                     (firstn 20 (preprocessForRadix arr k))]))
    end.
Proof.
  intros Hlen. unfold radixSort.
  destruct (Nat.leb_spec (length arr) 1); [lia|].
  unfold bind, performanceNow, enqueue. cbn.
  destruct (radixCore (preprocessForRadix arr k)); reflexivity.
Qed.

Lemma earlier_radixSort_short (H : Host) (arr : list Transaction) (k : SortKey) (p : Pending) :
  (length arr <= 1)%nat ->
  Earlier.parallelRadixSort H arr k p = (Returned {| sorted := arr; time := 0 |}, p).
Proof.
  intros Hlen. unfold Earlier.parallelRadixSort.
  destruct (Nat.leb_spec (length arr) 1); [reflexivity|lia].
Qed.

(** What [radixSort] returns, when it returns. *)
Lemma radixSort_returned (H : Host) (arr : list Transaction) (k : SortKey)
    (p p' : Pending) (r : SortResult) :
  radixSort H arr k p = (Returned r, p') ->
  ((length arr <= 1)%nat /\ sorted r = arr /\ time r = 0%Q)
  \/ ((1 < length arr)%nat
      /\ radixCore (preprocessForRadix arr k) = Some (sorted r)
      /\ time r = (readingAt H p 1 - readingAt H p 0)%Q).
Proof.
  intros Hrun. destruct (le_lt_dec (length arr) 1) as [Hs|Hl].
  - left. rewrite radixSort_short in Hrun by exact Hs.
    injection Hrun as <- _. auto.
  - right. rewrite radixSort_long in Hrun by exact Hl.
    destruct (radixCore (preprocessForRadix arr k)) as [out|]; [|discriminate].
    injection Hrun as <- _. auto.
Qed.

(** With keys that are not negative, [radixSort] returns. *)
Lemma radixSort_returns (H : Host) (arr : list Transaction) (k : SortKey) (p : Pending) :
  Forall (fun item => 0 <= encode k item) arr ->
  exists r p', radixSort H arr k p = (Returned r, p').
Proof.
  intros Hnn. destruct (le_lt_dec (length arr) 1) as [Hs|Hl].
  - rewrite radixSort_short by exact Hs. eauto.
  - rewrite radixSort_long by exact Hl.
    destruct (radixCore_returns _ (preprocess_keyNonneg k arr Hnn)) as (out & ->).
    eauto.
Qed.

Lemma encode_withSortKey (k : SortKey) (a : Transaction) (v : Z) :
  encode k (withSortKey a v) = encode k a.
Proof. destruct k; reflexivity. Qed.

Lemma fieldLe_withSortKey (k : SortKey) (a b : Transaction) (v w : Z) :
  fieldLe k (withSortKey a v) (withSortKey b w) = fieldLe k a b.
Proof. destruct k; reflexivity. Qed.

Lemma sameField_withSortKey (k : SortKey) (x a : Transaction) (v : Z) :
  sameField k x (withSortKey a v) = sameField k x a.
Proof. destruct k; reflexivity. Qed.

Lemma in_preprocess (k : SortKey) (arr : list Transaction) (x : Transaction) :
  In x (preprocessForRadix arr k) ->
  exists a, In a arr /\ x = withSortKey a (encode k a).
Proof.
  unfold preprocessForRadix. intros Hx. apply in_map_iff in Hx as (a & <- & Ha).
  exists a. split; [exact Ha | reflexivity].
Qed.

Lemma preprocess_payload (k : SortKey) (arr : list Transaction) :
  map payload (preprocessForRadix arr k) = map payload arr.
Proof. unfold preprocessForRadix. rewrite map_map. reflexivity. Qed.

Lemma preprocess_filter (k : SortKey) (P : Transaction -> bool) (arr : list Transaction) :
  (forall a v, P (withSortKey a v) = P a) ->
  filter P (preprocessForRadix arr k) = preprocessForRadix (filter P arr) k.
Proof.
  intros HP. unfold preprocessForRadix.
  induction arr as [|a arr IH]; cbn [map filter]; [reflexivity|].
  rewrite HP, IH. destruct (P a); reflexivity.
Qed.

Lemma sameField_encode (k : SortKey) (x a : Transaction) :
  sameField k x a = true -> encode k a = encode k x.
Proof.
  destruct k; cbn [sameField encode]; intros E.
  - apply Qeq_bool_iff in E.
    rewrite (round64_compat (price a * 100) (price x * 100)) by (rewrite E; reflexivity).
    reflexivity.
  - apply String.eqb_eq in E. rewrite E. reflexivity.
  - lia.
Qed.

(** The key of a price grows with the price: the product is rounded to
    the nearest double, and its integer part is taken. *)
Lemma encode_price_mono (a b : Transaction) :
  (price a <= price b)%Q -> encode Price a <= encode Price b.
Proof.
  intros Hab. cbn [encode]. apply Qfloor_resp_le, round64_mono.
  apply Qmult_le_compat_r; [exact Hab | discriminate].
Qed.

(** Where the order of the keys is the order of the field. *)
Lemma encodedExactly_fieldLe (k : SortKey) (arr : list Transaction) (a b : Transaction) :
  encodedExactly k arr -> In a arr -> In b arr ->
  encode k a <= encode k b -> fieldLe k a b = true.
Proof.
  destruct k; cbn [encodedExactly fieldLe]; intros Hex Ha Hb Hle.
  - apply Qle_bool_iff.
    destruct (Qlt_le_dec (price b) (price a)) as [L|L]; [|exact L].
    pose proof (encode_price_mono b a (Qlt_le_weak _ _ L)) as Hba.
    rewrite (Hex a b Ha Hb) by lia. apply Qle_refl.
  - destruct (Hex a b Ha Hb) as [Hlen H6]. cbn [encode] in Hle. unfold String.leb.
    rewrite <- (encodeSymbol_compare _ _ Hlen H6).
    destruct (Z.compare_spec (encodeSymbol (symbol a)) (encodeSymbol (symbol b)));
      try reflexivity; lia.
  - cbn [encode] in Hle. lia.
Qed.

Lemma short_StronglySorted {A} (R : A -> A -> Prop) (l : list A) :
  (length l <= 1)%nat -> StronglySorted R l.
Proof.
  destruct l as [|a [|b l]]; cbn [length]; intros Hl; try lia; repeat constructor.
Qed.

(** The output of the radix core on the encoded items of [arr]. *)
Lemma radixCore_preprocess (k : SortKey) (arr out : list Transaction) :
  Forall (fun item => 0 <= encode k item < 2 ^ 53) arr ->
  radixCore (preprocessForRadix arr k) = Some out ->
  Permutation out (preprocessForRadix arr k)
  /\ StronglySorted (encodedOrder k) out
  /\ (encodedExactly k arr -> StronglySorted (fieldOrder k) out).
Proof.
  intros Hsm Hrun.
  destruct (radixCore_returned _ _ Hrun) as [Hperm _].
  destruct (radixCore_sorted _ (preprocess_keySmall k arr Hsm)) as (out' & Hrun' & Hs).
  rewrite Hrun in Hrun'. injection Hrun' as <-.
  assert (Hin : forall x, In x out -> exists a, In a arr /\ x = withSortKey a (encode k a)).
  { intros x Hx. apply in_preprocess. eapply Permutation_in; eassumption. }
  assert (Henc : StronglySorted (encodedOrder k) out).
  { apply StronglySorted_impl_in with (R := keyOrder); [exact Hs|].
    intros x y Hx Hy. unfold keyOrder, encodedOrder.
    destruct (Hin x Hx) as (a & _ & ->). destruct (Hin y Hy) as (b & _ & ->).
    rewrite !sortKeyOr0_withSortKey, !encode_withSortKey. auto. }
  split; [exact Hperm|]. split; [exact Henc|].
  intros Hex. apply StronglySorted_impl_in with (R := encodedOrder k); [exact Henc|].
  intros x y Hx Hy. unfold encodedOrder, fieldOrder.
  destruct (Hin x Hx) as (a & Ha & ->). destruct (Hin y Hy) as (b & Hb & ->).
  rewrite !encode_withSortKey, fieldLe_withSortKey.
  apply encodedExactly_fieldLe with (arr := arr); assumption.
Qed.





(** Beyond what the amended C1 states.  Two timestamps in nanoseconds are
    above 2^53: the quotients by the powers of ten are rounded, the digits
    extracted are not the decimal digits, and the later timestamp comes
    out first, in whichever order the two came in. *)
Example radixSort_timestamp_order_fails :
  option_map (fun r => map timestamp (sorted r))
             (returned (radixSort demoHost nanoBatch Timestamp start))
  = Some [1700000000000006144; 1700000000000005888]
  /\ option_map (fun r => map timestamp (sorted r))
                (returned (radixSort demoHost (rev nanoBatch) Timestamp start))
     = Some [1700000000000006144; 1700000000000005888].
Proof. split; vm_compute; reflexivity. Qed.

(** Two prices with two decimals can have one key: the product of the
    double nearest to 64.07 by 100 is rounded to a double just below 6407.
    They come out in the order they came in. *)
Example radixSort_price_order_fails :
  map (encode Price) centBatch = [6406; 6406]
  /\ option_map (fun r => map id (sorted r))
                (returned (radixSort demoHost centBatch Price start))
     = Some ["a"; "b"]%string
  /\ fieldLe Price (nth 0 centBatch (mkTransaction "" "" 0 0 "" None))
                   (nth 1 centBatch (mkTransaction "" "" 0 0 "" None)) = false.
Proof. repeat split; vm_compute; reflexivity. Qed.

Lemma returned_inv {A} (x : Outcome A * Pending) (a : A) :
  returned x = Some a -> exists p', x = (Returned a, p').
Proof.
  destruct x as [[a'|] p']; unfold returned; cbn [fst]; intros E;
    [injection E as ->; eauto | discriminate].
Qed.

(** Items selected by a test that does not read [sortKey], and that all
    have one encoded key, come out of the radix core in their order. *)
Lemma radixCore_keeps_order (k : SortKey) (arr out : list Transaction)
    (P : Transaction -> bool) (v : Z) :
  radixCore (preprocessForRadix arr k) = Some out ->
  (forall a w, P (withSortKey a w) = P a) ->
  (forall a, P a = true -> encode k a = v) ->
  map payload (filter P out) = map payload (filter P arr).
Proof.
  intros Hrun Hignore Hkey.
  destruct (radixCore_returned _ _ Hrun) as [_ Hst].
  rewrite (Hst P v).
  - rewrite preprocess_filter by exact Hignore. apply preprocess_payload.
  - intros y Hy HPy. apply in_preprocess in Hy as (a & _ & ->).
    rewrite sortKeyOr0_withSortKey. apply Hkey. rewrite <- (Hignore a (encode k a)).
    exact HPy.
Qed.

(** C2. Both sorters are stable.  The transactions that have one value
    of the field come out of [mergeSort] in the order they came in; the
    transactions that have one value of the field, or one encoded key,
    come out of [radixSort] in the order they came in (they are compared
    on all their fields but [sortKey], which [radixSort] fills in), and
    [radixSort] does return when no key is negative.  The batch of prices
    100.00, 50.00, 100.00 comes out as 50.00, 100.00, 100.00 with keys
    5000, 10000, 10000 and the two 100.00 entries in their order. *)
Theorem sorters_stable (H : Host) (arr : list Transaction) (k : SortKey) (p : Pending)
    (x : Transaction) :
  (exists r,
     returned (mergeSort H arr k p) = Some r
     /\ filter (sameField k x) (sorted r) = filter (sameField k x) arr)
  /\ (forall r,
        returned (radixSort H arr k p) = Some r ->
        map payload (filter (sameField k x) (sorted r))
        = map payload (filter (sameField k x) arr)
        /\ forall v,
             map payload (filter (fun t => encode k t =? v) (sorted r))
             = map payload (filter (fun t => encode k t =? v) arr))
  /\ (Forall (fun item => 0 <= encode k item) arr ->
      exists r, returned (radixSort H arr k p) = Some r)
  /\ (exists r,
        returned (radixSort demoHost priceBatch Price start) = Some r
        /\ map (fun t => (id t, price t, sortKey t)) (sorted r)
           = [("b"%string, 50%Q, Some 5000); ("a"%string, 100%Q, Some 10000);
              ("c"%string, 100%Q, Some 10000)]).
Proof.
  split; [|split; [|split]].
  - rewrite mergeSort_run. eexists. split; [reflexivity|]. apply sort_stable.
  - intros r Hr. apply returned_inv in Hr as (p' & Hr).
    apply radixSort_returned in Hr as [(Hs & -> & _) | (Hl & Hrun & _)].
    + split; [reflexivity | intros v; reflexivity].
    + split; [|intros v].
      * apply radixCore_keeps_order with (k := k) (v := encode k x); [exact Hrun| |].
        -- intros a w. apply sameField_withSortKey.
        -- intros a. apply sameField_encode.
      * apply radixCore_keeps_order with (k := k) (v := v); [exact Hrun| |].
        -- intros a w. rewrite encode_withSortKey. reflexivity.
        -- intros a Ha. apply Z.eqb_eq. exact Ha.
  - intros Hnn. destruct (radixSort_returns H arr k p Hnn) as (r & p' & Hr).
    exists r. rewrite Hr. reflexivity.
  - eexists. split; vm_compute; reflexivity.
Qed.

Lemma sorters_stable_witness :
  exists r,
    returned (radixSort demoHost priceBatch Price start) = Some r
    /\ map payload (filter (sameField Price (mkTransaction "" "" 100 0 "" None)) (sorted r))
       = map payload
           [ mkTransaction "a" "AAPL" 100 30 "10:00:00" None;
             mkTransaction "c" "AAPL" 100 10 "10:00:01" None ].
Proof.
  destruct (sorters_stable demoHost priceBatch Price start
              (mkTransaction "" "" 100 0 "" None)) as (_ & Hst & Hret & _).
  destruct Hret as (r & Hr).
  - repeat constructor; vm_compute; discriminate.
  - exists r. split; [exact Hr|]. destruct (Hst r Hr) as [Hsame _]. exact Hsame.
Defined.

(** C3 (as amended). The duration returned by [mergeSort] is two and a
    half times the time between its two readings of the clock; in the
    earlier variant of the component it is that time itself. *)
Theorem mergeSort_duration (H : Host) (arr : list Transaction) (k : SortKey) (p : Pending) :
  (exists r,
     returned (mergeSort H arr k p) = Some r
     /\ sorted r = sort k arr
     /\ time r = ((readingAt H p 1 - readingAt H p 0) * (5 # 2))%Q)
  /\ (exists r,
        returned (Earlier.mergeSort H arr k p) = Some r
        /\ sorted r = sort k arr
        /\ time r = (readingAt H p 1 - readingAt H p 0)%Q).
Proof.
  split.
  - rewrite mergeSort_run. eexists. repeat split.
  - rewrite earlier_mergeSort_run. eexists. repeat split.
Qed.

(** Against C3 as stated: one millisecond is measured, two and a half
    are reported. *)
Lemma mergeSort_duration_amplified :
  (readingAt demoHost start 1 - readingAt demoHost start 0 == 1)%Q
  /\ exists r,
       returned (mergeSort demoHost priceBatch Price start) = Some r
       /\ (time r == 5 # 2)%Q
       /\ ~ (time r == readingAt demoHost start 1 - readingAt demoHost start 0)%Q.
Proof.
  split; [vm_compute; reflexivity|].
  eexists. split; [reflexivity|]. split; [vm_compute; reflexivity|].
  vm_compute. discriminate.
Qed.

(** C7 (as amended). On an input of length 0 or 1, [radixSort] returns
    the input itself with the duration 0, and [mergeSort] returns the
    input unchanged with the duration it measured (amplified as for
    longer inputs), which is 0 only when the clock did not advance. *)
Theorem short_batch (H : Host) (arr : list Transaction) (k : SortKey) (p : Pending) :
  (length arr <= 1)%nat ->
  returned (radixSort H arr k p) = Some {| sorted := arr; time := 0 |}
  /\ returned (Earlier.parallelRadixSort H arr k p) = Some {| sorted := arr; time := 0 |}
  /\ returned (mergeSort H arr k p)
     = Some {| sorted := arr; time := (readingAt H p 1 - readingAt H p 0) * (5 # 2) |}
  /\ returned (Earlier.mergeSort H arr k p)
     = Some {| sorted := arr; time := readingAt H p 1 - readingAt H p 0 |}.
Proof.
  intros Hlen.
  rewrite radixSort_short, earlier_radixSort_short by exact Hlen.
  rewrite mergeSort_run, earlier_mergeSort_run.
  rewrite sort_short by exact Hlen. repeat split.
Qed.

Lemma short_batch_witness :
  returned (radixSort demoHost [mkTransaction "a" "AAPL" 100 30 "10:00:00" None] Price start)
  = Some {| sorted := [mkTransaction "a" "AAPL" 100 30 "10:00:00" None]; time := 0 |}.
Proof.
  apply (short_batch demoHost [mkTransaction "a" "AAPL" 100 30 "10:00:00" None] Price start).
  simpl. lia.
Defined.

(** Against C7 as stated: [mergeSort] on one transaction reports the
    time it measured, not 0. *)
Lemma mergeSort_single_duration_nonzero :
  exists r,
    returned (mergeSort demoHost [mkTransaction "a" "AAPL" 100 30 "10:00:00" None]
                        Price start) = Some r
    /\ sorted r = [mkTransaction "a" "AAPL" 100 30 "10:00:00" None]
    /\ ~ (time r == 0)%Q.
Proof.
  eexists. split; [reflexivity|]. split; [vm_compute; reflexivity|].
  vm_compute. discriminate.
Qed.

(** C9 (as amended). The transactions returned by [radixSort] on two or
    more transactions are the input transactions with [sortKey] set to
    the key encoded for the sort field, all other fields unchanged; on
    fewer it returns the input itself.  [mergeSort] returns the input
    transactions themselves. *)
Theorem sorted_output_elements (H : Host) (arr : list Transaction) (k : SortKey)
    (p : Pending) :
  (forall r,
     returned (radixSort H arr k p) = Some r ->
     Permutation (map payload (sorted r)) (map payload arr)
     /\ ((1 < length arr)%nat ->
         Permutation (sorted r) (preprocessForRadix arr k)
         /\ Forall (fun t => exists a, In a arr /\ t = withSortKey a (encode k a)
                                       /\ sortKey t = Some (encode k a)
                                       /\ payload t = payload a) (sorted r))
     /\ ((length arr <= 1)%nat -> sorted r = arr))
  /\ (exists r, returned (mergeSort H arr k p) = Some r /\ Permutation (sorted r) arr).
Proof.
  split.
  - intros r Hr. apply returned_inv in Hr as (p' & Hr).
    apply radixSort_returned in Hr as [(Hs & -> & _) | (Hl & Hrun & _)].
    + split; [reflexivity|]. split; [lia | reflexivity].
    + destruct (radixCore_returned _ _ Hrun) as [Hperm _].
      split; [|split; [|lia]].
      * rewrite <- (preprocess_payload k arr). apply Permutation_map. exact Hperm.
      * intros _. split; [exact Hperm|].
        apply Forall_forall. intros t Ht.
        apply (Permutation_in _ Hperm) in Ht.
        apply in_preprocess in Ht as (a & Ha & ->). exists a. repeat split. exact Ha.
  - rewrite mergeSort_run. eexists. split; [reflexivity|]. apply sort_perm.
Qed.

Lemma sorted_output_elements_witness :
  exists r,
    returned (radixSort demoHost priceBatch Price start) = Some r
    /\ Permutation (sorted r) (preprocessForRadix priceBatch Price).
Proof.
  destruct (sorted_output_elements demoHost priceBatch Price start) as [Hradix _].
  eexists. split; [vm_compute; reflexivity|].
  refine (proj1 (proj1 (proj2 (Hradix _ _)) _)).
  - vm_compute. reflexivity.
  - simpl. lia.
Defined.

(** ** The interval callback *)

Lemma arrayFrom_generate (H : Host) (n : nat) :
  forall p,
    arrayFrom n (generateTransaction H) p
    = (Returned (batchOf H (current p) n), mkPending (afterDraws n (current p)) (queue p)).
Proof.
  induction n as [|n IH]; intros [[c rf [t nt cr g]] q].
  - reflexivity.
  - cbn [arrayFrom]. unfold bind at 1. unfold generateTransaction at 1.
    unfold bind at 1, nextDraw at 1, ret at 1. cbn [current host queue generated].
    unfold bind at 1. rewrite IH. unfold ret, batchOf, afterDraws, set_host.
    cbn [current host queue generated timers nextTimer clockReads cells refs seq map].
    rewrite Nat.add_succ_r. reflexivity.
Qed.

Lemma bind_run {A B} (m : M A) (k : A -> M B) (p : Pending) :
  bind m k p = match m p with
               | (Returned a, p') => k a p'
               | (Thrown, p') => (Thrown, p')
               end.
Proof. reflexivity. Qed.

Lemma sortTransactions_returned (H : Host) (r : Cells) (data out : list Transaction)
    (p : Pending) :
  (1 < length data)%nat ->
  radixCore (preprocessForRadix data (sortBy r)) = Some out ->
  sortTransactions H r data p
  = (Returned (match sortMethod r with
               | Radix => out
               | Merge => sort (sortBy r) data
               end),
     mkPending (current (afterReads 4 p))
       (queue p
        ++ [fun _ _ => set_preprocessedData (firstn 20 (preprocessForRadix data (sortBy r)))]
        ++ [statsOfPass (fst (passTimes H (sortMethod r) p))
                        (snd (passTimes H (sortMethod r) p))])).
Proof.
  intros Hlen Hrun. unfold sortTransactions.
  destruct (sortMethod r).
  - rewrite !bind_run. rewrite radixSort_long by exact Hlen.
    rewrite Hrun. rewrite bind_run, mergeSort_run.
    unfold ret, enqueue. cbn. rewrite <- app_assoc. reflexivity.
  - rewrite !bind_run. rewrite mergeSort_run.
    rewrite bind_run. rewrite radixSort_long by exact Hlen.
    rewrite Hrun.
    unfold ret, enqueue. cbn. rewrite <- app_assoc. reflexivity.
Qed.

Lemma afterBatch_eq (H : Host) (r : Cells) (s : State) :
  set_transactionBuffer
    (transactionBuffer (refs (afterDraws (Z.to_nat (transactionRate r / 10)) s))
     ++ batchOf H s (Z.to_nat (transactionRate r / 10)))
    (afterDraws (Z.to_nat (transactionRate r / 10)) s)
  = afterBatch H r s.
Proof. reflexivity. Qed.

Lemma afterBatch_buffer (H : Host) (r : Cells) (s : State) :
  transactionBuffer (refs (afterBatch H r s)) = bufferAfter H r s.
Proof. reflexivity. Qed.

Lemma intervalCallback_small (H : Host) (r : Cells) (s : State) :
  (length (bufferAfter H r s) < 500)%nat ->
  intervalCallback H r (mkPending s [])
  = (Returned tt, mkPending (afterBatch H r s) [smallUpdate (transactionRate r / 10)]).
Proof.
  intros Hlen. unfold intervalCallback.
  rewrite bind_run, arrayFrom_generate.
  rewrite bind_run. unfold modifyState at 1. rewrite bind_run. unfold getState at 1.
  cbn [current queue].
  rewrite (afterBatch_eq H r s), (afterBatch_buffer H r s).
  destruct (Nat.leb_spec 500 (length (bufferAfter H r s))); [lia|].
  reflexivity.
Qed.

Lemma intervalCallback_flush (H : Host) (r : Cells) (s : State) (out : list Transaction) :
  (500 <= length (bufferAfter H r s))%nat ->
  radixCore (preprocessForRadix (bufferAfter H r s) (sortBy r)) = Some out ->
  intervalCallback H r (mkPending s [])
  = (Returned tt,
     mkPending
       (set_transactionBuffer [] (current (afterReads 4 (mkPending (afterBatch H r s) []))))
       [ (fun _ _ => set_preprocessedData
                       (firstn 20 (preprocessForRadix (bufferAfter H r s) (sortBy r))));
         statsOfPass
           (fst (passTimes H (sortMethod r) (mkPending (afterBatch H r s) [])))
           (snd (passTimes H (sortMethod r) (mkPending (afterBatch H r s) [])));
         (fun refs _ c =>
            set_transactions
              (sliceLast 2000 (sliceLast 1000 (transactions c) ++ transactionBuffer refs)) c);
         (fun _ _ =>
            set_sortedTransactions
              (sliceLast 500 (match sortMethod r with
                              | Radix => out
                              | Merge => sort (sortBy r) (bufferAfter H r s)
                              end)));
         flushUpdate r (Z.of_nat (length (bufferAfter H r s))) ]).
Proof.
  intros Hlen Hrun. unfold intervalCallback.
  rewrite bind_run, arrayFrom_generate.
  rewrite bind_run. unfold modifyState at 1. rewrite bind_run. unfold getState at 1.
  cbn [current queue].
  rewrite (afterBatch_eq H r s), (afterBatch_buffer H r s).
  destruct (Nat.leb_spec 500 (length (bufferAfter H r s))); [|lia].
  rewrite bind_run.
  rewrite (sortTransactions_returned H r _ out) by (try lia; exact Hrun).
  reflexivity.
Qed.

(** ** Renders *)

Lemma sameDeps_spec (a b : Cells) :
  sameDeps a b = true <->
  isRunning a = isRunning b
  /\ transactionRate a = transactionRate b
  /\ sortMethod a = sortMethod b
  /\ sortBy a = sortBy b
  /\ (radixTime (currentStats a) == radixTime (currentStats b))%Q
  /\ (mergeTime (currentStats a) == mergeTime (currentStats b))%Q.
Proof.
  unfold sameDeps. rewrite !andb_true_iff, !Qeq_bool_iff, Z.eqb_eq, Bool.eqb_true_iff.
  destruct (sortMethod a), (sortMethod b), (sortBy a), (sortBy b);
    intuition (try discriminate; try reflexivity).
Qed.

Lemma sameDeps_refl (a : Cells) : sameDeps a a = true.
Proof. apply sameDeps_spec. repeat split; reflexivity. Qed.

Lemma sameDeps_trans (a b c : Cells) :
  sameDeps a b = true -> sameDeps b c = true -> sameDeps a c = true.
Proof.
  rewrite !sameDeps_spec.
  intros (A1 & A2 & A3 & A4 & A5 & A6) (B1 & B2 & B3 & B4 & B5 & B6).
  repeat split; try congruence.
  - rewrite A5. exact B5.
  - rewrite A6. exact B6.
Qed.

Lemma render_cells (H : Host) (p : Pending) : cells (render H p) = renderedCells H p.
Proof.
  unfold render, renderedCells, effectBody, effectCleanup, clearCurrentInterval.
  destruct (sameDeps _ _); [reflexivity|]. cbn [cells set_cells refs].
  destruct (intervalRef (refs (current p))); cbn;
    destruct (isRunning _); try reflexivity;
    destruct (intervalRef (refs (current p))); reflexivity.
Qed.

Lemma render_buffer (H : Host) (p : Pending) :
  transactionBuffer (refs (render H p)) = transactionBuffer (refs (current p)).
Proof.
  unfold render, effectBody, effectCleanup, clearCurrentInterval.
  destruct (sameDeps _ _); [reflexivity|]. cbn [cells set_cells refs].
  destruct (intervalRef (refs (current p))) eqn:E; cbn;
    destruct (isRunning _); try reflexivity; cbn; rewrite ?E; reflexivity.
Qed.

Lemma render_clock (H : Host) (p : Pending) :
  clockReads (host (render H p)) = clockReads (host (current p)).
Proof.
  unfold render, effectBody, effectCleanup, clearCurrentInterval.
  destruct (sameDeps _ _); [reflexivity|]. cbn [cells set_cells refs].
  destruct (intervalRef (refs (current p))) eqn:E; cbn;
    destruct (isRunning _); try reflexivity; cbn; rewrite ?E; reflexivity.
Qed.

Lemma render_timersOk (H : Host) (p : Pending) :
  timersOk (current p) -> timersOk (render H p).
Proof.
  intros Hok. unfold render.
  set (c' := fold_left _ (queue p) (cells (current p))).
  destruct (sameDeps (cells (current p)) c') eqn:Hd.
  - unfold timersOk in *. cbn [set_cells host refs cells].
    destruct (timers (host (current p))) as [|[h r] [|? ?]]; try exact Hok.
    destruct Hok as (Href & Hsame & Hrun). split; [exact Href|]. split.
    + eapply sameDeps_trans; eassumption.
    + apply sameDeps_spec in Hd as (Hr & _). congruence.
  - assert (Hclean : timers (host (effectCleanup (set_cells c' (current p)))) = []).
    { unfold effectCleanup, clearCurrentInterval. cbn [set_cells refs].
      unfold timersOk in Hok.
      destruct (timers (host (current p))) as [|[h r] [|? ?]] eqn:Ht;
        try contradiction.
      - destruct (intervalRef (refs (current p))); cbn; rewrite ?Ht; reflexivity.
      - destruct Hok as (-> & _). cbn. rewrite Ht. cbn. rewrite Nat.eqb_refl.
        reflexivity. }
    unfold effectBody.
    assert (Hcells : cells (effectCleanup (set_cells c' (current p))) = c').
    { unfold effectCleanup, clearCurrentInterval. cbn [set_cells refs].
      destruct (intervalRef (refs (current p))); reflexivity. }
    rewrite Hcells. destruct (isRunning c') eqn:Hrun.
    + unfold timersOk. cbn. rewrite Hclean, Hcells. cbn.
      split; [reflexivity|]. split; [apply sameDeps_refl | exact Hrun].
    + unfold timersOk, clearCurrentInterval.
      destruct (intervalRef (refs (effectCleanup (set_cells c' (current p)))));
        cbn; rewrite Hclean; exact I.
Qed.

Lemma render_timers_none (H : Host) (p : Pending) :
  timers (host (current p)) = [] ->
  isRunning (renderedCells H p) = false ->
  timers (host (render H p)) = [].
Proof.
  intros Hnone Hstop. unfold render. fold (renderedCells H p).
  destruct (sameDeps _ _); [exact Hnone|].
  assert (Hclean : timers (host (effectCleanup (set_cells (renderedCells H p) (current p))))
                   = []).
  { unfold effectCleanup, clearCurrentInterval. cbn [set_cells refs].
    destruct (intervalRef (refs (current p))); cbn; rewrite ?Hnone; reflexivity. }
  assert (Hcells : cells (effectCleanup (set_cells (renderedCells H p) (current p)))
                   = renderedCells H p).
  { unfold effectCleanup, clearCurrentInterval. cbn [set_cells refs].
    destruct (intervalRef (refs (current p))); reflexivity. }
  unfold effectBody. rewrite Hcells, Hstop. unfold clearCurrentInterval.
  destruct (intervalRef _); cbn; rewrite ?Hclean; reflexivity.
Qed.

(** ** What the generator produces *)

Lemma good_encode_nonneg (k : SortKey) (t : Transaction) :
  goodTransaction t -> 0 <= encode k t.
Proof.
  intros [Hp Ht]. destruct k; cbn [encode].
  - apply Qfloor_nonneg, round64_nonneg.
    apply Qmult_le_0_compat; [exact Hp | discriminate].
  - apply encodeSymbol_nonneg.
  - exact Ht.
Qed.

(** Rounding keeps a number between two integers that are doubles. *)
Lemma round64_between (x : Q) (lo hi : Z) :
  Z.abs lo <= 2 ^ 53 -> Z.abs hi <= 2 ^ 53 ->
  (inject_Z lo <= x)%Q -> (x <= inject_Z hi)%Q ->
  (inject_Z lo <= round64 x)%Q /\ (round64 x <= inject_Z hi)%Q.
Proof.
  intros Hlo Hhi Hx1 Hx2. split.
  - rewrite <- (round64_Z_small lo Hlo). apply round64_mono. exact Hx1.
  - rewrite <- (round64_Z_small hi Hhi). apply round64_mono. exact Hx2.
Qed.

(** The price of a generated transaction is the double nearest to a
    number of cents from 5000 to 105000, divided by 100. *)
Lemma transactionOf_price (d : Draw) :
  validDraw d ->
  exists c,
    5000 <= c <= 105000
    /\ price (transactionOf d) = round64 (inject_Z c / 100)
    /\ (50 <= price (transactionOf d))%Q /\ (price (transactionOf d) <= 1050)%Q.
Proof.
  intros (_ & _ & Hp0 & Hp1 & _). cbn [transactionOf price].
  destruct (round64_between (randPrice d * 1000) 0 1000) as [H1 H2];
    [change (2 ^ 53) with 9007199254740992; lia ..
    | change (inject_Z 0) with 0%Q; lra | change (inject_Z 1000) with 1000%Q; lra |].
  set (t1 := round64 (randPrice d * 1000)) in *.
  change (inject_Z 0) with 0%Q in H1. change (inject_Z 1000) with 1000%Q in H2.
  destruct (round64_between (t1 + 50) 50 1050) as [H3 H4];
    [change (2 ^ 53) with 9007199254740992; lia ..
    | change (inject_Z 50) with 50%Q; lra | change (inject_Z 1050) with 1050%Q; lra |].
  set (t2 := round64 (t1 + 50)) in *.
  change (inject_Z 50) with 50%Q in H3. change (inject_Z 1050) with 1050%Q in H4.
  destruct (round64_between (t2 * 100) 5000 105000) as [H5 H6];
    [change (2 ^ 53) with 9007199254740992; lia ..
    | change (inject_Z 5000) with 5000%Q; lra
    | change (inject_Z 105000) with 105000%Q; lra |].
  set (t3 := round64 (t2 * 100)) in *.
  change (inject_Z 5000) with 5000%Q in H5. change (inject_Z 105000) with 105000%Q in H6.
  assert (Hc : 5000 <= Math_round t3 <= 105000).
  { unfold Math_round. split.
    - rewrite <- (Qfloor_Z 5000). apply Qfloor_resp_le.
      change (inject_Z 5000) with 5000%Q. lra.
    - assert (Qfloor (t3 + (1 # 2)) < 105001); [|lia].
      rewrite Zlt_Qlt. eapply Qle_lt_trans; [apply Qfloor_le|].
      change (inject_Z 105001) with 105001%Q. lra. }
  exists (Math_round t3). split; [exact Hc|]. split; [reflexivity|].
  set (c := Math_round t3) in *.
  assert (HcQ : (5000 <= inject_Z c)%Q /\ (inject_Z c <= 105000)%Q).
  { change 5000%Q with (inject_Z 5000). change 105000%Q with (inject_Z 105000).
    rewrite <- !Zle_Qle. exact Hc. }
  destruct (round64_between (inject_Z c / 100) 50 1050) as [H7 H8];
    [change (2 ^ 53) with 9007199254740992; lia ..
    | change (inject_Z 50) with 50%Q; apply Qle_shift_div_l; [reflexivity | lra]
    | change (inject_Z 1050) with 1050%Q; apply Qle_shift_div_r; [reflexivity | lra] |].
  split; assumption.
Qed.

Lemma transactionOf_good (d : Draw) : validDraw d -> goodTransaction (transactionOf d).
Proof.
  intros Hv. split.
  - destruct (transactionOf_price d Hv) as (c & _ & _ & Hlo & _). lra.
  - destruct Hv as (_ & _ & _ & _ & Hj0 & _ & Hnow). cbn [transactionOf timestamp].
    apply round64Z_nonneg.
    pose proof (round64Z_nonneg (dateNow d * 1000000) ltac:(lia)).
    assert (0 <= Qfloor (round64 (randJitter d * 1000000))).
    { apply Qfloor_nonneg, round64_nonneg.
      apply Qmult_le_0_compat; [exact Hj0 | discriminate]. }
    lia.
Qed.

Lemma batchOf_good (H : Host) (s : State) (n : nat) :
  validHost H -> Forall goodTransaction (batchOf H s n).
Proof.
  intros Hv. unfold batchOf. apply Forall_map, Forall_forall.
  intros i _. apply transactionOf_good, Hv.
Qed.

Lemma length_batchOf (H : Host) (s : State) (n : nat) : length (batchOf H s n) = n.
Proof. unfold batchOf. rewrite length_map, length_seq. reflexivity. Qed.

(** ** The state after a tick *)

Lemma tick_small_state (H : Host) (r : Cells) (s : State) :
  (length (bufferAfter H r s) < 500)%nat ->
  let s' := dispatch H (intervalCallback H r) s in
  cells s' = smallUpdate (transactionRate r / 10) (refs s) ""%string (cells s)
  /\ transactionBuffer (refs s') = bufferAfter H r s
  /\ clockReads (host s') = clockReads (host s).
Proof.
  intros Hlen s'. subst s'. unfold dispatch.
  rewrite intervalCallback_small by exact Hlen. cbn [snd].
  rewrite render_cells, render_buffer, render_clock. repeat split.
Qed.

Lemma tick_flush_state (H : Host) (r : Cells) (s : State) (out : list Transaction) :
  (500 <= length (bufferAfter H r s))%nat ->
  radixCore (preprocessForRadix (bufferAfter H r s) (sortBy r)) = Some out ->
  let s' := dispatch H (intervalCallback H r) s in
  let p := mkPending (afterBatch H r s) [] in
  cells s'
  = flushedCells r (toLocaleTimeString H (4 + clockReads (host s)))
      (bufferAfter H r s)
      (match sortMethod r with
       | Radix => out
       | Merge => sort (sortBy r) (bufferAfter H r s)
       end)
      (fst (passTimes H (sortMethod r) p)) (snd (passTimes H (sortMethod r) p))
      (cells s)
  /\ transactionBuffer (refs s') = []
  /\ clockReads (host s') = (4 + clockReads (host s))%nat.
Proof.
  intros Hlen Hrun s' p. subst s' p. unfold dispatch.
  rewrite (intervalCallback_flush H r s out) by assumption. cbn [snd].
  rewrite render_cells, render_buffer, render_clock.
  split; [|split; reflexivity].
  unfold renderedCells. cbn [queue fold_left current].
  destruct s as [[run txs srt m k rate perf pre [tot avg rt mt]] rf hs].
  reflexivity.
Qed.

(** ** What holds in every reachable state *)

(** The state split into its cells, its refs and what the host keeps. *)
Ltac destruct_state s := destruct s as [[? ? ? ? ? ? ? ? ?] [? ?] ?].

Lemma resetData_current (s : State) :
  current (snd (resetData (mkPending s [])))
  = clearCurrentInterval (set_transactionBuffer [] s).
Proof. reflexivity. Qed.

Lemma length_sliceLast {A} (n : nat) (l : list A) :
  length (sliceLast n l) = Nat.min n (length l).
Proof. unfold sliceLast. rewrite length_skipn. lia. Qed.

Lemma sliceLast_all {A} (n : nat) (l : list A) :
  (length l <= n)%nat -> sliceLast n l = l.
Proof.
  intros Hl. unfold sliceLast.
  replace (length l - n)%nat with 0%nat by lia. reflexivity.
Qed.

(** At capacity, the oldest entries are dropped. *)
Lemma sliceLast_drop {A} (n : nat) (old l : list A) :
  length l = n -> sliceLast n (old ++ l) = l.
Proof.
  intros Hl. unfold sliceLast. rewrite length_app.
  replace (length old + length l - n)%nat with (length old) by lia.
  rewrite skipn_app, skipn_all, Nat.sub_diag. reflexivity.
Qed.

Lemma clearCurrentInterval_cells (s : State) : cells (clearCurrentInterval s) = cells s.
Proof. unfold clearCurrentInterval. destruct (intervalRef (refs s)); reflexivity. Qed.

Lemma clearCurrentInterval_buffer (s : State) :
  transactionBuffer (refs (clearCurrentInterval s)) = transactionBuffer (refs s).
Proof. unfold clearCurrentInterval. destruct (intervalRef (refs s)); reflexivity. Qed.

Lemma timersOk_find (s : State) (h h' : nat) (r : Cells) :
  timersOk s ->
  find (fun t => (fst t =? h)%nat) (timers (host s)) = Some (h', r) ->
  timers (host s) = [(h', r)]
  /\ sameDeps r (cells s) = true
  /\ isRunning (cells s) = true.
Proof.
  unfold timersOk. intros Hok Hfind.
  destruct (timers (host s)) as [|[h0 r0] [|? ?]]; try contradiction; [discriminate|].
  cbn in Hfind. destruct (h0 =? h)%nat; [|discriminate].
  injection Hfind as <- <-. destruct Hok as (_ & Hsame & Hrun). auto.
Qed.

Lemma timersOk_cleared (s : State) (buffer : list Transaction) :
  timersOk s ->
  timers (host (clearCurrentInterval (set_transactionBuffer buffer s))) = [].
Proof.
  unfold timersOk, clearCurrentInterval. cbn [set_transactionBuffer refs intervalRef].
  destruct (timers (host s)) as [|[h r] [|? ?]] eqn:Ht; try contradiction.
  - intros _. destruct (intervalRef (refs s)); cbn; rewrite ?Ht; reflexivity.
  - intros (-> & _). cbn. rewrite Ht. cbn. rewrite Nat.eqb_refl. reflexivity.
Qed.

(** A tick on a state of the invariant: the sorters return. *)
Lemma tick_radix_returns (H : Host) (r : Cells) (s : State) :
  validHost H ->
  Forall goodTransaction (transactionBuffer (refs s)) ->
  Forall goodTransaction (bufferAfter H r s)
  /\ exists out,
       radixCore (preprocessForRadix (bufferAfter H r s) (sortBy r)) = Some out
       /\ Permutation out (preprocessForRadix (bufferAfter H r s) (sortBy r))
       /\ Forall keyNonneg out.
Proof.
  intros Hv Hbuf.
  assert (Hgood : Forall goodTransaction (bufferAfter H r s)).
  { unfold bufferAfter. apply Forall_app. split; [exact Hbuf|]. apply batchOf_good, Hv. }
  split; [exact Hgood|].
  assert (Hnn : Forall (fun item => 0 <= encode (sortBy r) item) (bufferAfter H r s)).
  { eapply Forall_impl; [|exact Hgood]. intros t. apply good_encode_nonneg. }
  pose proof (preprocess_keyNonneg _ _ Hnn) as Hkeys.
  destruct (radixCore_returns _ Hkeys) as (out & Hrun).
  exists out. split; [exact Hrun|].
  destruct (radixCore_returned _ _ Hrun) as [Hperm _]. split; [exact Hperm|].
  eapply Permutation_Forall; [|exact Hkeys]. symmetry. exact Hperm.
Qed.

Lemma step_preserves_Inv (H : Host) (e : Event) (s s' : State) :
  validHost H -> Inv s -> step H e s = Some s' -> Inv s'.
Proof.
  intros Hv (Hok & Hrate & Hbuf & Hperf) Hstep.
  destruct e as [| |m|k|rate|h]; cbn [step] in Hstep.
  - (* Toggle *)
    injection Hstep as <-. unfold dispatch, toggleSimulation, enqueue. cbn [snd].
    unfold Inv. rewrite render_cells, render_buffer.
    split; [apply render_timersOk; exact Hok|].
    destruct_state s. cbn in *. auto.
  - (* Reset *)
    injection Hstep as <-. unfold dispatch.
    unfold Inv. rewrite render_cells, render_buffer. unfold renderedCells.
    rewrite !resetData_current, !clearCurrentInterval_cells, !clearCurrentInterval_buffer.
    split; [|destruct_state s; cbn in *; repeat split; try lia; constructor].
    apply render_timersOk. unfold timersOk.
    rewrite resetData_current, timersOk_cleared by exact Hok. exact I.
  - (* SetSortMethod *)
    injection Hstep as <-. unfold dispatch, enqueue. cbn [snd].
    unfold Inv. rewrite render_cells, render_buffer.
    split; [apply render_timersOk; exact Hok|].
    destruct_state s. cbn in *. auto.
  - (* SetSortBy *)
    injection Hstep as <-. unfold dispatch, enqueue. cbn [snd].
    unfold Inv. rewrite render_cells, render_buffer.
    split; [apply render_timersOk; exact Hok|].
    destruct_state s. cbn in *. auto.
  - (* SetTransactionRate *)
    destruct ((100 <=? rate) && (rate <=? 10000)) eqn:Hr; [|discriminate].
    injection Hstep as <-. unfold dispatch, enqueue. cbn [snd].
    unfold Inv. rewrite render_cells, render_buffer.
    split; [apply render_timersOk; exact Hok|].
    apply andb_true_iff in Hr as [Hr1 Hr2].
    destruct_state s. cbn in *.
    repeat split; try lia; assumption.
  - (* Tick *)
    destruct (find _ (timers (host s))) as [[h' r]|] eqn:Hfind; [|discriminate].
    injection Hstep as <-.
    destruct (timersOk_find s h h' r Hok Hfind) as (_ & Hsame & _).
    apply sameDeps_spec in Hsame as (_ & Hsrate & _).
    destruct (tick_radix_returns H r s Hv Hbuf) as (Hgood & out & Hrun & _).
    destruct (le_lt_dec 500 (length (bufferAfter H r s))) as [Hflush|Hsmall].
    + destruct (tick_flush_state H r s out Hflush Hrun) as (Hc & Hb & _).
      unfold Inv. rewrite Hc, Hb. split.
      * unfold dispatch. rewrite (intervalCallback_flush H r s out) by assumption.
        apply render_timersOk. exact Hok.
      * cbn [flushedCells transactionRate performanceData].
        split; [exact Hrate|]. split; [constructor|].
        rewrite length_app, length_sliceLast. cbn [length]. lia.
    + destruct (tick_small_state H r s Hsmall) as (Hc & Hb & _).
      unfold Inv. rewrite Hc, Hb. split.
      * unfold dispatch. rewrite (intervalCallback_small H r s) by assumption.
        apply render_timersOk. exact Hok.
      * destruct_state s. cbn in *. auto.
Qed.

Lemma reachable_Inv (H : Host) (s : State) :
  validHost H -> reachable H s -> Inv s.
Proof.
  intros Hv Hr. induction Hr as [|s e s' Hr IH Hstep].
  - unfold Inv, timersOk. cbn. repeat split; try lia; constructor.
  - eapply step_preserves_Inv; eassumption.
Qed.

Lemma render_running (H : Host) (p : Pending) :
  (sameDeps (cells (current p)) (renderedCells H p) = true ->
   isRunning (cells (current p)) = true -> timers (host (current p)) <> []) ->
  isRunning (cells (render H p)) = true -> timers (host (render H p)) <> [].
Proof.
  intros Hpre Hrun. rewrite render_cells in Hrun.
  unfold render. fold (renderedCells H p).
  destruct (sameDeps (cells (current p)) (renderedCells H p)) eqn:Hd.
  - cbn [set_cells host]. apply Hpre; [reflexivity|].
    apply sameDeps_spec in Hd as (Hr & _). congruence.
  - unfold effectBody.
    assert (Hcells : cells (effectCleanup (set_cells (renderedCells H p) (current p)))
                     = renderedCells H p).
    { unfold effectCleanup. apply clearCurrentInterval_cells. }
    rewrite Hcells, Hrun. cbn. discriminate.
Qed.

(** The state in which the render after an event starts: the handler
    left the timers and the cells as they were, except for the reset. *)
Lemma step_render (H : Host) (e : Event) (s s' : State) :
  validHost H -> Inv s -> step H e s = Some s' ->
  exists p,
    s' = render H p
    /\ ((timers (host (current p)) = timers (host s) /\ cells (current p) = cells s)
        \/ isRunning (renderedCells H p) = false).
Proof.
  intros Hv (Hok & _ & Hbuf & _) Hstep.
  destruct e as [| |m|k|rate|h]; cbn [step] in Hstep.
  - injection Hstep as <-. eexists. split; [reflexivity|]. left. split; reflexivity.
  - injection Hstep as <-. eexists. split; [reflexivity|]. right.
    unfold renderedCells.
    rewrite resetData_current.
    rewrite clearCurrentInterval_cells.
    destruct_state s. reflexivity.
  - injection Hstep as <-. eexists. split; [reflexivity|]. left. split; reflexivity.
  - injection Hstep as <-. eexists. split; [reflexivity|]. left. split; reflexivity.
  - destruct ((100 <=? rate) && (rate <=? 10000)); [|discriminate].
    injection Hstep as <-. eexists. split; [reflexivity|]. left. split; reflexivity.
  - destruct (find _ (timers (host s))) as [[h' r]|] eqn:Hfind; [|discriminate].
    injection Hstep as <-.
    destruct (tick_radix_returns H r s Hv Hbuf) as (_ & out & Hrun & _).
    unfold dispatch.
    destruct (le_lt_dec 500 (length (bufferAfter H r s))) as [Hflush|Hsmall].
    + rewrite (intervalCallback_flush H r s out) by assumption.
      eexists. split; [reflexivity|]. left. split; reflexivity.
    + rewrite (intervalCallback_small H r s) by assumption.
      eexists. split; [reflexivity|]. left. split; reflexivity.
Qed.

(** While the simulation runs, its timer is set. *)
Lemma reachable_running (H : Host) (s : State) :
  validHost H -> reachable H s ->
  isRunning (cells s) = true -> timers (host s) <> [].
Proof.
  intros Hv Hr. induction Hr as [|s e s' Hr IH Hstep]; [discriminate|].
  destruct (step_render H e s s' Hv (reachable_Inv H s Hv Hr) Hstep)
    as (p & -> & [[Ht Hc] | Hstop]).
  - apply render_running. intros _ Hrun. rewrite Ht. apply IH. rewrite <- Hc. exact Hrun.
  - apply render_running. intros Hsame Hrun.
    apply sameDeps_spec in Hsame as (Hsame & _). congruence.
Qed.

Lemma run_reachable (H : Host) (es : list Event) :
  forall s s', reachable H s -> run H es s = Some s' -> reachable H s'.
Proof.
  induction es as [|e es IH]; intros s s' Hr Hrun; cbn [run] in Hrun.
  - injection Hrun as <-. exact Hr.
  - destruct (step H e s) as [s1|] eqn:Hstep; [|discriminate].
    apply (IH s1); [|exact Hrun]. eapply reachable_step; eassumption.
Qed.

Lemma demoHost_valid : validHost demoHost.
Proof.
  intros n. unfold validDraw, demoHost, demoDraw.
  cbn [draw randSymbol randPrice randJitter dateNow].
  pose proof (Z.mod_pos_bound (Z.of_nat n) 10 ltac:(lia)) as Ha.
  pose proof (Z.mod_pos_bound (Z.of_nat n * 37) 100 ltac:(lia)) as Hb.
  set (a := Z.of_nat n mod 10) in *. set (b := (Z.of_nat n * 37) mod 100) in *.
  clearbody a b.
  assert (Ha' : (0 <= a # 10)%Q /\ (a # 10 <= 9 # 10)%Q)
    by (unfold Qle; cbn [Qnum Qden]; lia).
  assert (Hb' : (0 <= b # 100)%Q /\ (b # 100 <= 99 # 100)%Q)
    by (unfold Qle; cbn [Qnum Qden]; lia).
  assert (H9 : (round64 (9 # 10) < 1)%Q) by (vm_compute; reflexivity).
  assert (H99 : (round64 (99 # 100) < 1)%Q) by (vm_compute; reflexivity).
  pose proof (round64_mono (a # 10) (9 # 10) (proj2 Ha')).
  pose proof (round64_mono (b # 100) (99 # 100) (proj2 Hb')).
  pose proof (round64_nonneg (a # 10) (proj1 Ha')).
  pose proof (round64_nonneg (b # 100) (proj1 Hb')).
  repeat split; try lra; try lia; vm_compute; (reflexivity || discriminate).
Qed.

(** ** Reset *)

(** C6. After the reset command, whatever the state was: the total is 0,
    the history and the buffer are empty, the two last durations and the
    average are 0, and the simulation is not running; and in a state
    whose timers are the ones the effect has set, as every reachable
    state is, no timer is left, so that no tick can happen. *)
Theorem reset_clears (H : Host) (s : State) :
  exists s',
    step H Reset s = Some s'
    /\ totalTransactions (currentStats (cells s')) = 0
    /\ performanceData (cells s') = []
    /\ transactionBuffer (refs s') = []
    /\ radixTime (currentStats (cells s')) = 0%Q
    /\ mergeTime (currentStats (cells s')) = 0%Q
    /\ avgSortTime (currentStats (cells s')) = 0%Q
    /\ transactions (cells s') = []
    /\ sortedTransactions (cells s') = []
    /\ isRunning (cells s') = false
    /\ (timersOk s ->
        timers (host s') = [] /\ forall h, step H (Tick h) s' = None)
    /\ (validHost H -> reachable H s ->
        timers (host s') = [] /\ forall h, step H (Tick h) s' = None).
Proof.
  eexists. split; [reflexivity|].
  unfold dispatch.
  assert (Hcells : cells (render H (snd (resetData (mkPending s []))))
                   = set_currentStats
                       {| totalTransactions := 0; avgSortTime := 0;
                          radixTime := 0; mergeTime := 0 |}
                       (set_performanceData []
                          (set_sortedTransactions []
                             (set_transactions [] (set_isRunning false (cells s)))))).
  { rewrite render_cells. unfold renderedCells.
    rewrite resetData_current.
    rewrite clearCurrentInterval_cells. reflexivity. }
  rewrite Hcells, render_buffer.
  rewrite resetData_current.
  rewrite clearCurrentInterval_buffer.
  destruct s as [[run txs srt m k rate perf pre st] rf hs] eqn:Es.
  cbn [cells set_isRunning set_transactions set_sortedTransactions set_performanceData
       set_currentStats currentStats totalTransactions performanceData radixTime
       mergeTime avgSortTime transactions sortedTransactions isRunning
       set_transactionBuffer refs transactionBuffer].
  repeat (split; [reflexivity|]).
  assert (Hidle : timersOk s ->
                  timers (host (render H (snd (resetData (mkPending s []))))) = []
                  /\ forall h, step H (Tick h)
                                 (render H (snd (resetData (mkPending s [])))) = None).
  { intros Hok.
    assert (Hnone : timers (host (render H (snd (resetData (mkPending s []))))) = []).
    { apply render_timers_none.
      - rewrite resetData_current. apply timersOk_cleared. exact Hok.
      - rewrite <- render_cells. rewrite Es, Hcells. reflexivity. }
    split; [exact Hnone|].
    intros h. cbn [step]. rewrite Hnone. reflexivity. }
  rewrite Es in Hidle. split.
  - intros Hok. apply Hidle. exact Hok.
  - intros Hv Hr. apply Hidle. apply (reachable_Inv H _ Hv Hr).
Qed.

Lemma reset_clears_witness :
  exists s s',
    run demoHost [Toggle; Tick 1; Tick 1] initialState = Some s
    /\ timers (host s) <> []
    /\ step demoHost Reset s = Some s'
    /\ totalTransactions (currentStats (cells s')) = 0
    /\ timers (host s') = [].
Proof.
  destruct (run demoHost [Toggle; Tick 1; Tick 1] initialState) as [s|] eqn:Hrun;
    [|vm_compute in Hrun; discriminate].
  destruct (reset_clears demoHost s) as (s' & Hstep & Htot & Hrest).
  exists s, s'. split; [reflexivity|].
  assert (Hinv : Inv s).
  { apply (reachable_Inv demoHost); [exact demoHost_valid|].
    apply (run_reachable demoHost [Toggle; Tick 1; Tick 1] initialState);
      [constructor | exact Hrun]. }
  split.
  - vm_compute in Hrun. injection Hrun as <-. discriminate.
  - split; [exact Hstep|]. split; [exact Htot|].
    destruct Hrest as (_ & _ & _ & _ & _ & _ & _ & _ & Hidle & _).
    apply Hidle. apply Hinv.
Defined.

(** ** Ticks *)

(** The statistics a flushing tick computes are those of the render that
    created its callback, that is the durations of the pass before. *)
Lemma flush_average_is_stale (H : Host) (s s' : State) (h : nat) :
  validHost H -> reachable H s ->
  step H (Tick h) s = Some s' ->
  (500 <= length (transactionBuffer (refs s)
                  ++ batchOf H s (Z.to_nat (transactionRate (cells s) / 10))))%nat ->
  (avgSortTime (currentStats (cells s'))
   == (radixTime (currentStats (cells s)) + mergeTime (currentStats (cells s))) / 2)%Q
  /\ exists x,
       performanceData (cells s') = sliceLast 20 (performanceData (cells s)) ++ [x]
       /\ (Sample.radixTime x == radixTime (currentStats (cells s)))%Q
       /\ (Sample.mergeTime x == mergeTime (currentStats (cells s)))%Q.
Proof.
  intros Hv Hr Hstep Hlen. cbn [step] in Hstep.
  destruct (reachable_Inv H s Hv Hr) as (Hok & _ & Hbuf & _).
  destruct (find _ (timers (host s))) as [[h' r]|] eqn:Hfind; [|discriminate].
  injection Hstep as <-.
  destruct (timersOk_find s h h' r Hok Hfind) as (_ & Hsame & _).
  apply sameDeps_spec in Hsame as (_ & Hrate & _ & _ & Hrt & Hmt).
  destruct (tick_radix_returns H r s Hv Hbuf) as (_ & out & Hrun & _).
  assert (Hflush : (500 <= length (bufferAfter H r s))%nat)
    by (unfold bufferAfter; rewrite Hrate; exact Hlen).
  destruct (tick_flush_state H r s out Hflush Hrun) as (Hc & _ & _).
  rewrite Hc. cbn [flushedCells currentStats avgSortTime performanceData].
  split.
  - rewrite Hrt, Hmt. reflexivity.
  - eexists. split; [reflexivity|]. split; assumption.
Qed.

(** C4, on the first pass of a run: the pass measures 1 ms for the radix
    sorter and reports 2.5 ms for the merge sorter, but the average is
    computed, and the sample is taken, from the values of the render
    before the pass, which are 0. *)
Theorem first_pass_statistics_stale :
  option_map
    (fun s =>
       (radixTime (currentStats (cells s)), mergeTime (currentStats (cells s)),
        Qred (avgSortTime (currentStats (cells s))),
        map sampleDurations (performanceData (cells s))))
    (run demoHost afterFirstFlush initialState)
  = Some (1%Q, (5 # 2)%Q, 0%Q, [(0%Q, 0%Q)]).
Proof. vm_compute. reflexivity. Qed.

(** The earlier variant computes them from the statistics as updated by
    the pass: on the same first pass (it flushes at 100 transactions, and
    does not amplify) both durations are 1 ms, and so are the average
    and the sample. *)
Lemma earlier_first_pass_statistics :
  let s := dispatch demoHost (Earlier.intervalCallback demoHost initialCells) initialState in
  (radixTime (currentStats (cells s)), mergeTime (currentStats (cells s)),
   Qred (avgSortTime (currentStats (cells s))),
   map sampleDurations (performanceData (cells s)))
  = (1%Q, 1%Q, 1%Q, [(1%Q, 1%Q)]).
Proof. vm_compute. reflexivity. Qed.

(** C5. On a tick of a reachable state, [batchSize] transactions are
    generated and appended to the buffer.  While the buffer stays below 500
    the last durations, the average, the history, the sorted output and
    the preview are unchanged, no sorter runs (the clock is not read), and
    the total grows by [batchSize].  When the buffer reaches 500, one pass
    runs over the whole buffer: each sorter is called once on it (four
    readings of the clock, two per sorter), its results become the sorted
    output and the last durations, one sample is appended for the whole
    buffer, and the buffer is emptied. *)
Theorem tick_threshold (H : Host) (s s' : State) (h : nat) :
  validHost H -> reachable H s ->
  step H (Tick h) s = Some s' ->
  let batchSize := transactionRate (cells s) / 10 in
  let batch := batchOf H s (Z.to_nat batchSize) in
  let buffer := transactionBuffer (refs s) ++ batch in
  Z.of_nat (length batch) = batchSize
  /\ ((length buffer < 500)%nat ->
      radixTime (currentStats (cells s')) = radixTime (currentStats (cells s))
      /\ mergeTime (currentStats (cells s')) = mergeTime (currentStats (cells s))
      /\ avgSortTime (currentStats (cells s')) = avgSortTime (currentStats (cells s))
      /\ performanceData (cells s') = performanceData (cells s)
      /\ sortedTransactions (cells s') = sortedTransactions (cells s)
      /\ preprocessedData (cells s') = preprocessedData (cells s)
      /\ clockReads (host s') = clockReads (host s)
      /\ totalTransactions (currentStats (cells s'))
         = totalTransactions (currentStats (cells s)) + batchSize
      /\ transactionBuffer (refs s') = buffer)
  /\ ((500 <= length buffer)%nat ->
      exists out x,
        radixCore (preprocessForRadix buffer (sortBy (cells s))) = Some out
        /\ Permutation out (preprocessForRadix buffer (sortBy (cells s)))
        /\ sortedTransactions (cells s')
           = sliceLast 500 (match sortMethod (cells s) with
                            | Radix => out
                            | Merge => sort (sortBy (cells s)) buffer
                            end)
        /\ clockReads (host s') = (4 + clockReads (host s))%nat
        /\ radixTime (currentStats (cells s'))
           = fst (passTimes H (sortMethod (cells s)) (mkPending s []))
        /\ mergeTime (currentStats (cells s'))
           = snd (passTimes H (sortMethod (cells s)) (mkPending s []))
        /\ performanceData (cells s') = sliceLast 20 (performanceData (cells s)) ++ [x]
        /\ Sample.transactions x = Z.of_nat (length buffer)
        /\ transactionBuffer (refs s') = []).
Proof.
  intros Hv Hr Hstep batchSize batch buffer. cbn [step] in Hstep.
  destruct (reachable_Inv H s Hv Hr) as (Hok & Hrange & Hbuf & _).
  destruct (find _ (timers (host s))) as [[h' r]|] eqn:Hfind; [|discriminate].
  injection Hstep as <-.
  destruct (timersOk_find s h h' r Hok Hfind) as (_ & Hsame & _).
  apply sameDeps_spec in Hsame as (_ & Hrate & Hmethod & Hby & _ & _).
  assert (Hbuffer : bufferAfter H r s = buffer)
    by (unfold bufferAfter; rewrite Hrate; reflexivity).
  split; [|split].
  - subst batch. rewrite length_batchOf. apply Z2Nat.id. subst batchSize.
    apply Z.div_pos; lia.
  - intros Hsmall. rewrite <- Hbuffer in Hsmall.
    destruct (tick_small_state H r s Hsmall) as (Hc & Hb & Hclock).
    rewrite Hc, Hb, Hclock, Hbuffer, Hrate.
    destruct_state s. cbn. repeat split.
  - intros Hflush. rewrite <- Hbuffer in Hflush.
    destruct (tick_radix_returns H r s Hv Hbuf) as (_ & out & Hrun & Hperm & _).
    destruct (tick_flush_state H r s out Hflush Hrun) as (Hc & Hb & Hclock).
    rewrite Hbuffer, Hby in Hrun, Hperm.
    exists out. eexists. split; [exact Hrun|]. split; [exact Hperm|].
    rewrite Hc, Hb, Hclock, Hbuffer, Hmethod, Hby.
    cbn [flushedCells sortedTransactions currentStats radixTime mergeTime
         performanceData].
    repeat split.
Qed.

Lemma tick_threshold_witness :
  exists s s',
    run demoHost [Toggle] initialState = Some s
    /\ step demoHost (Tick 1) s = Some s'
    /\ totalTransactions (currentStats (cells s')) = 100
    /\ performanceData (cells s') = []
    /\ length (transactionBuffer (refs s')) = 100%nat.
Proof.
  destruct (run demoHost [Toggle] initialState) as [s|] eqn:Hrun;
    [|vm_compute in Hrun; discriminate].
  destruct (step demoHost (Tick 1) s) as [s'|] eqn:Hstep;
    [|vm_compute in Hrun; injection Hrun as <-; vm_compute in Hstep; discriminate].
  exists s, s'. split; [reflexivity|]. split; [exact Hstep|].
  assert (Hreach : reachable demoHost s).
  { apply (run_reachable demoHost [Toggle] initialState); [constructor | exact Hrun]. }
  destruct (tick_threshold demoHost s s' 1 demoHost_valid Hreach Hstep)
    as (_ & Hsmall & _).
  vm_compute in Hrun. injection Hrun as <-.
  destruct Hsmall as (_ & _ & _ & Hperf & _ & _ & _ & Htotal & Hbuffer).
  - vm_compute. lia.
  - split; [exact Htotal|]. split; [exact Hperf|].
    rewrite Hbuffer. vm_compute. reflexivity.
Defined.

(** ** The history of samples *)

Lemma tick_history (H : Host) (s s' : State) (h : nat) :
  validHost H -> reachable H s ->
  step H (Tick h) s = Some s' ->
  performanceData (cells s') = performanceData (cells s)
  \/ exists x, performanceData (cells s') = sliceLast 20 (performanceData (cells s)) ++ [x].
Proof.
  intros Hv Hr Hstep. cbn [step] in Hstep.
  destruct (reachable_Inv H s Hv Hr) as (Hok & _ & Hbuf & _).
  destruct (find _ (timers (host s))) as [[h' r]|] eqn:Hfind; [|discriminate].
  injection Hstep as <-.
  destruct (tick_radix_returns H r s Hv Hbuf) as (_ & out & Hrun & _).
  destruct (le_lt_dec 500 (length (bufferAfter H r s))) as [Hflush|Hsmall].
  - right. destruct (tick_flush_state H r s out Hflush Hrun) as (Hc & _ & _).
    rewrite Hc. cbn [flushedCells performanceData]. eexists. reflexivity.
  - left. destruct (tick_small_state H r s Hsmall) as (Hc & _ & _).
    rewrite Hc. destruct_state s. reflexivity.
Qed.

(** C10 (as amended). In every reachable state the history holds at most
    21 samples.  A tick leaves it as it is or appends one sample to its
    last 20 samples: once it holds 21 samples, the oldest one is dropped
    and the 20 most recent ones are kept before the new one. *)
Theorem history_bounded (H : Host) (s : State) :
  validHost H -> reachable H s ->
  (length (performanceData (cells s)) <= 21)%nat
  /\ forall h s',
       step H (Tick h) s = Some s' ->
       performanceData (cells s') = performanceData (cells s)
       \/ exists x,
            performanceData (cells s') = sliceLast 20 (performanceData (cells s)) ++ [x]
            /\ (forall oldest kept,
                  performanceData (cells s) = oldest :: kept -> length kept = 20%nat ->
                  performanceData (cells s') = kept ++ [x])
            /\ ((length (performanceData (cells s)) <= 20)%nat ->
                performanceData (cells s') = performanceData (cells s) ++ [x]).
Proof.
  intros Hv Hr. split; [apply (reachable_Inv H s Hv Hr)|].
  intros h s' Hstep.
  destruct (tick_history H s s' h Hv Hr Hstep) as [Hsame | (x & Hx)];
    [left; exact Hsame | right].
  exists x. split; [exact Hx|]. split.
  - intros oldest kept Hperf Hlen. rewrite Hx, Hperf.
    change (oldest :: kept) with ([oldest] ++ kept).
    rewrite (sliceLast_drop 20 [oldest] kept Hlen). reflexivity.
  - intros Hlen. rewrite Hx, sliceLast_all by exact Hlen. reflexivity.
Qed.

Lemma history_bounded_witness :
  exists s,
    run demoHost [Toggle; Tick 1] initialState = Some s
    /\ (length (performanceData (cells s)) <= 21)%nat.
Proof.
  destruct (run demoHost [Toggle; Tick 1] initialState) as [s|] eqn:Hrun;
    [|vm_compute in Hrun; discriminate].
  exists s. split; [reflexivity|].
  apply (history_bounded demoHost s demoHost_valid).
  apply (run_reachable demoHost [Toggle; Tick 1] initialState); [constructor | exact Hrun].
Defined.

(** At the rate of 5000 every tick generates 500 transactions and
    flushes: from a running state there is one more pass. *)
Lemma one_more_pass (H : Host) (s : State) :
  validHost H -> reachable H s ->
  isRunning (cells s) = true -> transactionRate (cells s) = 5000 ->
  exists h s',
    step H (Tick h) s = Some s'
    /\ isRunning (cells s') = true
    /\ transactionRate (cells s') = 5000
    /\ length (performanceData (cells s'))
       = S (Nat.min 20 (length (performanceData (cells s)))).
Proof.
  intros Hv Hr Hrun Hrate.
  destruct (reachable_Inv H s Hv Hr) as (Hok & _ & Hbuf & _).
  pose proof (reachable_running H s Hv Hr Hrun) as Htimers.
  assert (Hone : exists h r, timers (host s) = [(h, r)]).
  { unfold timersOk in Hok.
    destruct (timers (host s)) as [|[h r] [|? ?]]; try contradiction; eauto. }
  destruct Hone as (h & r & Ht).
  assert (Hfind : find (fun t => (fst t =? h)%nat) (timers (host s)) = Some (h, r))
    by (rewrite Ht; cbn; rewrite Nat.eqb_refl; reflexivity).
  destruct (timersOk_find s h h r Hok Hfind) as (_ & Hsame & _).
  apply sameDeps_spec in Hsame as (_ & Hsrate & _).
  exists h. eexists. cbn [step]. rewrite Hfind. split; [reflexivity|].
  destruct (tick_radix_returns H r s Hv Hbuf) as (_ & out & Hout & _).
  assert (Hflush : (500 <= length (bufferAfter H r s))%nat).
  { unfold bufferAfter. rewrite length_app, length_batchOf, Hsrate, Hrate.
    change (Z.to_nat (5000 / 10)) with 500%nat. lia. }
  destruct (tick_flush_state H r s out Hflush Hout) as (Hc & _ & _).
  rewrite Hc. cbn [flushedCells isRunning transactionRate performanceData].
  split; [exact Hrun|]. split; [exact Hrate|].
  rewrite length_app, length_sliceLast. cbn [length]. lia.
Qed.

Lemma passes_reachable (H : Host) (n : nat) :
  validHost H ->
  exists s,
    reachable H s
    /\ isRunning (cells s) = true
    /\ transactionRate (cells s) = 5000
    /\ length (performanceData (cells s)) = Nat.min n 21.
Proof.
  intros Hv. induction n as [|n (s & Hr & Hrun & Hrate & Hlen)].
  - destruct (run H [Toggle; SetTransactionRate 5000] initialState) as [s|] eqn:E;
      [|discriminate].
    exists s. split.
    + apply (run_reachable H [Toggle; SetTransactionRate 5000] initialState);
        [constructor | exact E].
    + cbn in E. injection E as <-. repeat split.
  - destruct (one_more_pass H s Hv Hr Hrun Hrate) as (h & s' & Hstep & Hrun' & Hrate' & Hlen').
    exists s'. split; [eapply reachable_step; eassumption|].
    split; [exact Hrun'|]. split; [exact Hrate'|]. lia.
Qed.

(** Against C10 as stated: after twenty-one passes the history holds
    twenty-one samples. *)
Lemma history_reaches_21 :
  exists s,
    reachable demoHost s /\ length (performanceData (cells s)) = 21%nat.
Proof.
  destruct (passes_reachable demoHost 21 demoHost_valid) as (s & Hr & _ & _ & Hlen).
  exists s. split; [exact Hr | exact Hlen].
Qed.

(** Prices that differ below the cent have one key: the radix sorter
    leaves them in the order they came in. *)
Example radixSort_third_decimal :
  option_map (fun r => map id (sorted r))
             (returned (radixSort demoHost fineBatch Price start))
  = Some ["a"; "b"]%string
  /\ fieldLe Price (nth 0 fineBatch (mkTransaction "" "" 0 0 "" None))
                   (nth 1 fineBatch (mkTransaction "" "" 0 0 "" None)) = false.
Proof. split; vm_compute; reflexivity. Qed.

(** Against C9 as stated: the transactions [radixSort] returns carry the
    key of the pass, and so does the sorted output of the component after
    a pass with the radix sorter chosen for display. *)
Lemma sortKey_retained :
  (exists r,
     returned (radixSort demoHost priceBatch Price start) = Some r
     /\ map sortKey priceBatch = [None; None; None]
     /\ map sortKey (sorted r) = [Some 5000; Some 10000; Some 10000])
  /\ option_map
       (fun s =>
          (length (sortedTransactions (cells s)),
           forallb (fun t => match sortKey t with
                             | Some key => key =? encode Price t
                             | None => false
                             end)
                   (sortedTransactions (cells s))))
       (run demoHost afterFirstFlush initialState)
     = Some (500%nat, true).
Proof.
  split.
  - eexists. split; [vm_compute; reflexivity|]. split; reflexivity.
  - vm_compute. reflexivity.
Qed.

(** * Further properties of the code *)

(** ** The stable sorted arrangement is unique *)

Lemma fieldLe_refl (k : SortKey) (a : Transaction) : fieldLe k a a = true.
Proof.
  pose proof (fieldLe_total k a a) as Ht.
  destruct (fieldLe k a a); [reflexivity | apply Ht; reflexivity].
Qed.

Lemma sameField_refl (k : SortKey) (a : Transaction) : sameField k a a = true.
Proof. rewrite sameField_fieldLe, fieldLe_refl. reflexivity. Qed.

Lemma filter_cons_cancel {A} (P : A -> bool) (a : A) (l1 l2 : list A) :
  filter P (a :: l1) = filter P (a :: l2) -> filter P l1 = filter P l2.
Proof.
  cbn [filter]. destruct (P a); intros E; [injection E as E|]; exact E.
Qed.

Lemma filter_head_in {A} (P : A -> bool) (a : A) (l rest : list A) :
  filter P l = a :: rest -> In a l /\ P a = true.
Proof.
  intros E. apply filter_In. rewrite E. left. reflexivity.
Qed.

(** Two arrangements that are both in the order of the field, and in
    which the transactions of each value of the field come in the same
    order, are the same arrangement. *)
Lemma sorted_stable_unique (k : SortKey) (l1 : list Transaction) :
  forall l2,
    StronglySorted (fieldOrder k) l1 -> StronglySorted (fieldOrder k) l2 ->
    (forall x, filter (sameField k x) l1 = filter (sameField k x) l2) ->
    l1 = l2.
Proof.
  induction l1 as [|a l1 IH]; intros l2 Hs1 Hs2 Hf.
  - destruct l2 as [|b l2]; [reflexivity|].
    specialize (Hf b). cbn [filter] in Hf. rewrite sameField_refl in Hf. discriminate.
  - destruct l2 as [|b l2].
    + specialize (Hf a). cbn [filter] in Hf. rewrite sameField_refl in Hf. discriminate.
    + inversion Hs1 as [|? ? Hs1' Ha]; subst. inversion Hs2 as [|? ? Hs2' Hb]; subst.
      rewrite Forall_forall in Ha, Hb.
      assert (Hab : a = b).
      { pose proof (Hf a) as Hfa. pose proof (Hf b) as Hfb. cbn [filter] in Hfa, Hfb.
        rewrite sameField_refl in Hfa, Hfb.
        destruct (sameField k a b) eqn:Eab; [injection Hfa as Hfa _; exact Hfa|].
        exfalso.
        destruct (sameField k b a) eqn:Eba.
        { rewrite sameField_fieldLe in Eab, Eba. rewrite andb_comm in Eba. congruence. }
        symmetry in Hfa. apply filter_head_in in Hfa as [Hina _].
        apply filter_head_in in Hfb as [Hinb _].
        rewrite sameField_fieldLe in Eab.
        rewrite (Hb a Hina), (Ha b Hinb) in Eab. discriminate. }
      subst b. f_equal. apply IH; [exact Hs1' | exact Hs2' |].
      intros x. eapply filter_cons_cancel. apply Hf.
Qed.

Lemma sort_of_sorted (k : SortKey) (l : list Transaction) :
  StronglySorted (fieldOrder k) l -> sort k l = l.
Proof.
  intros Hs. apply sorted_stable_unique with (k := k);
    [apply sort_sorted | exact Hs | intros x; apply sort_stable].
Qed.

(** X2. [mergeSort] returns an input that is already in the order of the
    field as it is; hence sorting what it returned changes nothing. *)
Theorem mergeSort_idempotent (H : Host) (arr : list Transaction) (k : SortKey)
    (p p' : Pending) :
  (StronglySorted (fieldOrder k) arr ->
   exists r, returned (mergeSort H arr k p) = Some r /\ sorted r = arr)
  /\ (exists r r',
        returned (mergeSort H arr k p) = Some r
        /\ returned (mergeSort H (sorted r) k p') = Some r'
        /\ sorted r' = sorted r).
Proof.
  split.
  - intros Hs. rewrite mergeSort_run. eexists. split; [reflexivity|].
    apply sort_of_sorted. exact Hs.
  - rewrite mergeSort_run. eexists. eexists. split; [reflexivity|].
    rewrite mergeSort_run. split; [reflexivity|].
    apply sort_of_sorted, sort_sorted.
Qed.

Lemma mergeSort_idempotent_witness :
  exists r,
    returned (mergeSort demoHost
                (sort Price priceBatch) Price start) = Some r
    /\ sorted r = sort Price priceBatch.
Proof.
  apply (mergeSort_idempotent demoHost (sort Price priceBatch) Price start start).
  vm_compute. repeat constructor.
Defined.

(** ** The two sorters against each other *)

Lemma preprocess_sorted (k k' : SortKey) (l : list Transaction) :
  StronglySorted (fieldOrder k) l ->
  StronglySorted (fieldOrder k) (preprocessForRadix l k').
Proof.
  unfold preprocessForRadix.
  induction 1 as [|a l Hs IH Ha]; cbn [map]; constructor; [exact IH|].
  apply Forall_map. eapply Forall_impl; [|exact Ha].
  intros b Hab. unfold fieldOrder in *. rewrite fieldLe_withSortKey. exact Hab.
Qed.

(** X3. Where the keys are not negative and below 2^53, and their order
    is the order of the field, the two sorters return the same
    arrangement: what [radixSort] returns is what [mergeSort] returns,
    with the keys filled in. *)
Theorem sorters_agree (H : Host) (arr : list Transaction) (k : SortKey)
    (p p' : Pending) :
  Forall (fun item => 0 <= encode k item < 2 ^ 53) arr ->
  encodedExactly k arr ->
  exists rr rm,
    returned (radixSort H arr k p) = Some rr
    /\ returned (mergeSort H arr k p') = Some rm
    /\ map payload (sorted rr) = map payload (sorted rm)
    /\ ((1 < length arr)%nat -> sorted rr = preprocessForRadix (sorted rm) k).
Proof.
  intros Hsm Hex. rewrite mergeSort_run.
  destruct (le_lt_dec (length arr) 1) as [Hs|Hl].
  - rewrite radixSort_short by exact Hs. eexists. eexists.
    split; [reflexivity|]. split; [reflexivity|]. cbn [sorted].
    rewrite sort_short by exact Hs. split; [reflexivity | lia].
  - rewrite radixSort_long by exact Hl.
    destruct (radixCore_sorted _ (preprocess_keySmall k arr Hsm)) as (out & Hrun & _).
    rewrite Hrun. eexists. eexists. split; [reflexivity|]. split; [reflexivity|].
    cbn [sorted].
    destruct (radixCore_preprocess k arr out Hsm Hrun) as (_ & _ & Hfield).
    destruct (radixCore_returned _ _ Hrun) as [_ Hst].
    assert (Hout : out = preprocessForRadix (sort k arr) k).
    { apply sorted_stable_unique with (k := k).
      - apply Hfield. exact Hex.
      - apply preprocess_sorted, sort_sorted.
      - intros x. rewrite (Hst (sameField k x) (encode k x)).
        + rewrite !preprocess_filter by (intros a w; apply sameField_withSortKey).
          rewrite sort_stable. reflexivity.
        + intros y Hy HPy. apply in_preprocess in Hy as (a & _ & ->).
          rewrite sortKeyOr0_withSortKey. apply sameField_encode.
          rewrite <- (sameField_withSortKey k x a (encode k a)). exact HPy. }
    split; [|intros _; exact Hout].
    rewrite Hout. apply preprocess_payload.
Qed.

Lemma sorters_agree_witness :
  exists rr rm,
    returned (radixSort demoHost priceBatch Timestamp start) = Some rr
    /\ returned (mergeSort demoHost priceBatch Timestamp start) = Some rm
    /\ map payload (sorted rr) = map payload (sorted rm).
Proof.
  destruct (sorters_agree demoHost priceBatch Timestamp start start)
    as (rr & rm & Hrr & Hrm & Hsame & _).
  - repeat constructor; vm_compute; (reflexivity || discriminate).
  - exact I.
  - exists rr, rm. auto.
Defined.

(** X4. Sorted by price, with keys that are not negative and below 2^53,
    what [radixSort] returns is in the order of the prices except between
    prices that have one key: a transaction comes before another one only
    if its price is not above, or if the two prices have the same key. *)
Theorem radixSort_price_up_to_key (H : Host) (arr : list Transaction) (p : Pending) :
  Forall (fun item => 0 <= encode Price item < 2 ^ 53) arr ->
  exists r,
    returned (radixSort H arr Price p) = Some r
    /\ StronglySorted priceOrKey (sorted r).
Proof.
  intros Hsm. destruct (le_lt_dec (length arr) 1) as [Hs|Hl].
  - rewrite radixSort_short by exact Hs. eexists. split; [reflexivity|].
    apply short_StronglySorted. exact Hs.
  - rewrite radixSort_long by exact Hl.
    destruct (radixCore_sorted _ (preprocess_keySmall Price arr Hsm)) as (out & Hrun & _).
    rewrite Hrun. eexists. split; [reflexivity|]. cbn [sorted].
    destruct (radixCore_preprocess Price arr out Hsm Hrun) as (_ & Henc & _).
    apply StronglySorted_impl_in with (R := encodedOrder Price); [exact Henc|].
    intros a b _ _. unfold encodedOrder, priceOrKey. intros Hle.
    destruct (Z.eq_dec (encode Price a) (encode Price b)) as [E|N]; [right; exact E|].
    left. destruct (Qlt_le_dec (price b) (price a)) as [L|L]; [|exact L].
    pose proof (encode_price_mono b a (Qlt_le_weak _ _ L)). lia.
Qed.

Lemma radixSort_price_up_to_key_witness :
  exists r,
    returned (radixSort demoHost centBatch Price start) = Some r
    /\ StronglySorted priceOrKey (sorted r).
Proof.
  apply (radixSort_price_up_to_key demoHost centBatch start).
  repeat constructor; vm_compute; (reflexivity || discriminate).
Defined.

(** ** The radix sorter on a negative key *)

(** X5. A key that is negative and not a multiple of 10 has no bucket on
    the first pass: [radixSort] throws, whatever the other transactions
    are.  The key is a double, as every number of the program is; the
    division by 1 of the first pass then leaves it as it is. *)
Theorem radixSort_negative_key_throws (H : Host) (arr : list Transaction) (k : SortKey)
    (p : Pending) (x : Transaction) :
  (1 < length arr)%nat ->
  In x arr -> round64Z (encode k x) = encode k x ->
  encode k x < 0 -> Z.rem (encode k x) 10 <> 0 ->
  returned (radixSort H arr k p) = None.
Proof.
  intros Hl Hx Hdouble Hneg Hrem. rewrite radixSort_long by exact Hl.
  assert (Hcore : radixCore (preprocessForRadix arr k) = None).
  { unfold radixCore.
    pose proof (toString_nonempty (Math_max (map sortKeyOr0 (preprocessForRadix arr k))))
      as Hdigits.
    destruct (String.length _) as [|m]; [lia|]. cbn [radixLoop].
    pose proof (radixPass_spec 0 (preprocessForRadix arr k)) as Hs.
    destruct (radixPass 0 (preprocessForRadix arr k)) as [next|]; [|reflexivity].
    exfalso. destruct Hs as [Hall _]. rewrite Forall_forall in Hall.
    specialize (Hall (withSortKey x (encode k x))).
    unfold digitInRange, digitValueOf in Hall.
    rewrite sortKeyOr0_withSortKey in Hall.
    assert (Hq : (inject_Z (encode k x) / Math_pow10 0 == inject_Z (encode k x))%Q).
    { rewrite (Math_pow10_exact 0) by lia. change (inject_Z (10 ^ Z.of_nat 0)) with 1%Q.
      unfold Qdiv. change (/ 1)%Q with 1%Q. ring. }
    rewrite (round64_compat _ _ Hq) in Hall.
    fold (round64Z (encode k x)) in Hall. rewrite Hdouble in Hall.
    pose proof (Z.rem_nonpos (encode k x) 10 ltac:(lia) ltac:(lia)).
    assert (In (withSortKey x (encode k x)) (preprocessForRadix arr k))
      by (unfold preprocessForRadix;
          apply (in_map (fun item => withSortKey item (encode k item))); exact Hx).
    specialize (Hall ltac:(assumption)). lia. }
  rewrite Hcore. reflexivity.
Qed.

Lemma radixSort_negative_key_throws_witness :
  returned (radixSort demoHost
              [mkTransaction "a" "AAPL" 100 (-5) "" None;
               mkTransaction "b" "MSFT" 100 3 "" None] Timestamp start) = None.
Proof.
  apply (radixSort_negative_key_throws demoHost _ Timestamp start
           (mkTransaction "a" "AAPL" 100 (-5) "" None)).
  - simpl. lia.
  - simpl. left. reflexivity.
  - vm_compute. reflexivity.
  - simpl. lia.
  - vm_compute. discriminate.
Defined.

(** ** The encoder applied to a whole array *)

(** X6. [preprocessForRadix] keeps the length, the order and every field
    but [sortKey], which it sets to the key of the requested field, also
    when a key was there: encoding for one field and then for another is
    encoding for the second. *)
Theorem preprocessForRadix_overwrites (arr : list Transaction) (k k' : SortKey) :
  preprocessForRadix (preprocessForRadix arr k) k' = preprocessForRadix arr k'
  /\ length (preprocessForRadix arr k) = length arr
  /\ map payload (preprocessForRadix arr k) = map payload arr
  /\ map sortKey (preprocessForRadix arr k) = map (fun item => Some (encode k item)) arr.
Proof.
  unfold preprocessForRadix. rewrite !map_map, length_map.
  split; [|repeat split].
  apply map_ext. intros a. rewrite encode_withSortKey. reflexivity.
Qed.

(** ** The generator *)

Lemma Qfloor_bounds (x : Q) (lo hi : Z) :
  (inject_Z lo <= x)%Q -> (x < inject_Z hi)%Q -> lo <= Qfloor x < hi.
Proof.
  intros Hlo Hhi. split.
  - rewrite <- (Qfloor_Z lo). apply Qfloor_resp_le. exact Hlo.
  - rewrite Zlt_Qlt. eapply Qle_lt_trans; [apply Qfloor_le | exact Hhi].
Qed.

(** A double below 1, multiplied by an integer [n] up to 2^53 and
    rounded, stays below [n]: its integer part is at most [n - 1]. *)
Lemma random_index (r : Q) (n : Z) :
  isDouble r -> (0 <= r)%Q -> (r < 1)%Q -> 0 <= n ->
  (round64 (inject_Z n - inject_Z n * 2 ^ (-53)) < inject_Z n)%Q ->
  0 <= Qfloor (round64 (r * inject_Z n)) < n.
Proof.
  intros Hd H0 H1 Hn0 Hn.
  pose proof (double_below_one r Hd H1) as Hr.
  rewrite (Zle_Qle 0) in Hn0. change (inject_Z 0) with 0%Q in Hn0.
  apply Qfloor_bounds.
  - change (inject_Z 0) with 0%Q. apply round64_nonneg. apply Qmult_le_0_compat; assumption.
  - eapply Qle_lt_trans; [|exact Hn]. apply round64_mono.
    assert (r * inject_Z n <= (1 - 2 ^ (-53)) * inject_Z n)%Q
      by (apply Qmult_le_compat_r; assumption).
    lra.
Qed.

(** The two roundings of the timestamp, the one of the product and the
    one of the sum, keep it within [2^-51] of the exact value. *)
Lemma timestamp_error (now jitter : Z) :
  0 <= now -> 0 <= jitter ->
  Z.abs (round64Z (round64Z now + jitter) - (now + jitter)) * 2 ^ 51 <= now + jitter.
Proof.
  intros Hnow Hj.
  pose proof (round64Z_error now Hnow) as H1.
  pose proof (round64Z_nonneg now Hnow) as Ha.
  pose proof (round64Z_error (round64Z now + jitter) ltac:(lia)) as H2.
  change (2 ^ 53) with 9007199254740992 in *. change (2 ^ 51) with 2251799813685248. lia.
Qed.

(** X1. With values of [Math.random()] that are doubles of [[0, 1)] and
    [Date.now()] not negative, a generated transaction has a symbol of the
    list; a price from 50 to 1050 (both included) that is the double
    nearest to a number of cents divided by 100; a timestamp that is
    [Date.now() * 1000000] plus a jitter below 1000000, up to a relative
    error of [2^-51] (the product and the sum are rounded); and no
    [sortKey].  The call consumes one draw. *)
Theorem generateTransaction_wellformed (H : Host) (p : Pending) :
  validHost H ->
  let d := draw H (generated (host (current p))) in
  doubleDraw d ->
  exists t p',
    generateTransaction H p = (Returned t, p')
    /\ In (symbol t) stockSymbols
    /\ (50 <= price t)%Q /\ (price t <= 1050)%Q
    /\ (exists c, 5000 <= c <= 105000 /\ price t = round64 (inject_Z c / 100))
    /\ (exists jitter,
          0 <= jitter < 1000000
          /\ Z.abs (timestamp t - (dateNow d * 1000000 + jitter)) * 2 ^ 51
             <= dateNow d * 1000000 + jitter)
    /\ 0 <= timestamp t
    /\ sortKey t = None
    /\ id t = randId d
    /\ generated (host (current p')) = S (generated (host (current p)))
    /\ queue p' = queue p.
Proof.
  intros Hv d (Hds & Hdp & Hdj). specialize (Hv (generated (host (current p)))).
  fold d in Hv.
  pose proof (transactionOf_price d Hv) as (c & Hc & Hprice & Hlo & Hhi).
  pose proof (transactionOf_good d Hv) as [_ Hts].
  destruct Hv as (Hs0 & Hs1 & Hp0 & Hp1 & Hj0 & Hj1 & Hnow).
  exists (transactionOf d). eexists. split; [reflexivity|].
  split; [|split; [exact Hlo|split; [exact Hhi|split; [|split; [|split; [exact Hts|]]]]]].
  - cbn [transactionOf symbol]. apply nth_In.
    pose proof (random_index (randSymbol d) 10 Hds Hs0 Hs1 ltac:(lia)
                  ltac:(vm_compute; reflexivity)) as Hfl.
    change (inject_Z (Z.of_nat (length stockSymbols))) with (inject_Z 10).
    cbn [length stockSymbols]. lia.
  - exists c. split; [exact Hc | exact Hprice].
  - exists (Qfloor (round64 (randJitter d * 1000000))). split.
    + apply (random_index (randJitter d) 1000000 Hdj Hj0 Hj1); [lia|].
      vm_compute. reflexivity.
    + cbn [transactionOf timestamp].
      pose proof (random_index (randJitter d) 1000000 Hdj Hj0 Hj1 ltac:(lia)
                    ltac:(vm_compute; reflexivity)) as Hfl.
      change (inject_Z 1000000) with 1000000%Q in Hfl.
      apply timestamp_error; lia.
  - repeat split.
Qed.

Lemma dyadicHost_valid : validHost dyadicHost.
Proof.
  intros n. unfold validDraw, dyadicHost, dyadicDraw. cbn [draw randSymbol randPrice
    randJitter dateNow].
  pose proof (Z.mod_pos_bound (Z.of_nat n) 16 ltac:(lia)).
  pose proof (Z.mod_pos_bound (Z.of_nat n * 37) 128 ltac:(lia)).
  unfold Qle, Qlt. cbn [Qnum Qden]. repeat split; lia.
Qed.

Lemma generateTransaction_wellformed_witness :
  exists t p',
    generateTransaction dyadicHost start = (Returned t, p')
    /\ In (symbol t) stockSymbols
    /\ (50 <= price t)%Q /\ (price t <= 1050)%Q.
Proof.
  destruct (generateTransaction_wellformed dyadicHost start dyadicHost_valid)
    as (t & p' & Hrun & Hsym & Hlo & Hhi & _).
  - repeat split; vm_compute; reflexivity.
  - exists t, p'. auto.
Defined.

(** The rounding can take the timestamp below [Date.now() * 1000000]:
    around 1.7e18 the doubles are 256 apart. *)
Example timestamp_below_now :
  let d := {| randSymbol := 0; randPrice := 0; randJitter := 0; randId := "tx";
              dateNow := 1700000000001; localeTime := "10:00:00" |} in
  timestamp (transactionOf d) = 1700000000000999936
  /\ timestamp (transactionOf d) < dateNow d * 1000000.
Proof. split; vm_compute; reflexivity. Qed.

(** ** What each event does to the cells and to the buffer *)

Lemma reset_cells (H : Host) (s : State) :
  cells (dispatch H resetData s)
  = set_currentStats
      {| totalTransactions := 0; avgSortTime := 0; radixTime := 0; mergeTime := 0 |}
      (set_performanceData []
         (set_sortedTransactions []
            (set_transactions [] (set_isRunning false (cells s)))))
  /\ transactionBuffer (refs (dispatch H resetData s)) = [].
Proof.
  unfold dispatch. rewrite render_cells, render_buffer. unfold renderedCells.
  rewrite !resetData_current, clearCurrentInterval_cells, clearCurrentInterval_buffer.
  split; reflexivity.
Qed.

Lemma step_effect (H : Host) (e : Event) (s s' : State) :
  validHost H -> Inv s -> step H e s = Some s' ->
  match e with
  | Toggle =>
      cells s' = set_isRunning (negb (isRunning (cells s))) (cells s)
      /\ transactionBuffer (refs s') = transactionBuffer (refs s)
  | Reset =>
      cells s'
      = set_currentStats
          {| totalTransactions := 0; avgSortTime := 0; radixTime := 0; mergeTime := 0 |}
          (set_performanceData []
             (set_sortedTransactions []
                (set_transactions [] (set_isRunning false (cells s)))))
      /\ transactionBuffer (refs s') = []
  | SetSortMethod m =>
      cells s' = set_sortMethod m (cells s)
      /\ transactionBuffer (refs s') = transactionBuffer (refs s)
  | SetSortBy k =>
      cells s' = set_sortBy k (cells s)
      /\ transactionBuffer (refs s') = transactionBuffer (refs s)
  | SetTransactionRate rate =>
      cells s' = set_transactionRate rate (cells s)
      /\ transactionBuffer (refs s') = transactionBuffer (refs s)
  | Tick h =>
      exists r,
        sameDeps r (cells s) = true
        /\ (((length (bufferAfter H r s) < 500)%nat
             /\ cells s' = smallUpdate (transactionRate r / 10) (refs s) ""%string (cells s)
             /\ transactionBuffer (refs s') = bufferAfter H r s)
            \/ ((500 <= length (bufferAfter H r s))%nat
                /\ transactionBuffer (refs s') = []
                /\ exists out,
                     radixCore (preprocessForRadix (bufferAfter H r s) (sortBy r)) = Some out
                     /\ cells s'
                        = flushedCells r (toLocaleTimeString H (4 + clockReads (host s)))
                            (bufferAfter H r s)
                            (match sortMethod r with
                             | Radix => out
                             | Merge => sort (sortBy r) (bufferAfter H r s)
                             end)
                            (fst (passTimes H (sortMethod r) (mkPending s [])))
                            (snd (passTimes H (sortMethod r) (mkPending s [])))
                            (cells s)))
  end.
Proof.
  intros Hv (Hok & _ & Hbuf & _) Hstep.
  destruct e as [| |m|k|rate|h]; cbn [step] in Hstep.
  - injection Hstep as <-. unfold dispatch. rewrite render_cells, render_buffer.
    split; reflexivity.
  - injection Hstep as <-. apply reset_cells.
  - injection Hstep as <-. unfold dispatch. rewrite render_cells, render_buffer.
    split; reflexivity.
  - injection Hstep as <-. unfold dispatch. rewrite render_cells, render_buffer.
    split; reflexivity.
  - destruct ((100 <=? rate) && (rate <=? 10000)); [|discriminate].
    injection Hstep as <-. unfold dispatch. rewrite render_cells, render_buffer.
    split; reflexivity.
  - destruct (find _ (timers (host s))) as [[h' r]|] eqn:Hfind; [|discriminate].
    injection Hstep as <-.
    destruct (timersOk_find s h h' r Hok Hfind) as (_ & Hsame & _).
    exists r. split; [exact Hsame|].
    destruct (tick_radix_returns H r s Hv Hbuf) as (_ & out & Hrun & _).
    destruct (le_lt_dec 500 (length (bufferAfter H r s))) as [Hflush|Hsmall].
    + right. destruct (tick_flush_state H r s out Hflush Hrun) as (Hc & Hb & _).
      split; [exact Hflush|]. split; [exact Hb|]. exists out. split; [exact Hrun|].
      exact Hc.
    + left. destruct (tick_small_state H r s Hsmall) as (Hc & Hb & _). auto.
Qed.

(** ** Sizes *)

Lemma step_preserves_Bounded (H : Host) (e : Event) (s s' : State) :
  validHost H -> Inv s -> Bounded s -> step H e s = Some s' -> Bounded s'.
Proof.
  intros Hv Hinv (Hbuf & Hsorted & Hpre & Htx & Htotal) Hstep.
  pose proof (step_effect H e s s' Hv Hinv Hstep) as Heff.
  destruct Hinv as (_ & Hrate & _). unfold Bounded.
  destruct e as [| |m|k|rate|h].
  - destruct Heff as [-> ->]. destruct_state s. cbn in *. auto.
  - destruct Heff as [-> ->]. destruct_state s. cbn in *. repeat split; lia.
  - destruct Heff as [-> ->]. destruct_state s. cbn in *. auto.
  - destruct Heff as [-> ->]. destruct_state s. cbn in *. auto.
  - destruct Heff as [-> ->]. destruct_state s. cbn in *. auto.
  - destruct Heff as (r & Hsame & [(Hsmall & -> & ->) | (Hflush & -> & out & _ & ->)]).
    + apply sameDeps_spec in Hsame as (_ & Hr & _).
      assert (0 <= transactionRate r / 10) by (apply Z.div_pos; lia).
      destruct_state s. cbn in *. repeat split; try assumption; lia.
    + unfold Bounded.
      cbn [flushedCells sortedTransactions preprocessedData transactions currentStats
           totalTransactions length].
      rewrite Htx. rewrite length_sliceLast, length_firstn.
      repeat split; lia.
Qed.

Lemma reachable_Bounded (H : Host) (s : State) :
  validHost H -> reachable H s -> Bounded s.
Proof.
  intros Hv Hr. induction Hr as [|s e s' Hr IH Hstep].
  - unfold Bounded. cbn. repeat split; lia.
  - eapply step_preserves_Bounded; try eassumption.
    apply (reachable_Inv H s Hv Hr).
Qed.

(** X9. In every reachable state the buffer holds fewer than 500
    transactions, the sorted output at most 500, and the preview of the
    encoded transactions at most 20. *)
Theorem sizes_bounded (H : Host) (s : State) :
  validHost H -> reachable H s ->
  (length (transactionBuffer (refs s)) < 500)%nat
  /\ (length (sortedTransactions (cells s)) <= 500)%nat
  /\ (length (preprocessedData (cells s)) <= 20)%nat.
Proof.
  intros Hv Hr. destruct (reachable_Bounded H s Hv Hr) as (Hb & Hs & Hp & _). auto.
Qed.

Lemma sizes_bounded_witness :
  exists s,
    run demoHost [Toggle; Tick 1] initialState = Some s
    /\ (length (transactionBuffer (refs s)) < 500)%nat
    /\ (length (sortedTransactions (cells s)) <= 500)%nat
    /\ (length (preprocessedData (cells s)) <= 20)%nat.
Proof.
  destruct (run demoHost [Toggle; Tick 1] initialState) as [s|] eqn:Hrun;
    [|vm_compute in Hrun; discriminate].
  exists s. split; [reflexivity|].
  apply (sizes_bounded demoHost s demoHost_valid).
  apply (run_reachable demoHost [Toggle; Tick 1] initialState); [constructor | exact Hrun].
Defined.

(** X10. The cell [transactions] is empty in every reachable state: its
    update reads the buffer when the component renders, after the tick
    has emptied it. *)
Theorem transactions_never_filled (H : Host) (s : State) :
  validHost H -> reachable H s -> transactions (cells s) = [].
Proof.
  intros Hv Hr. destruct (reachable_Bounded H s Hv Hr) as (_ & _ & _ & Ht & _).
  exact Ht.
Qed.

Lemma transactions_never_filled_witness :
  exists s,
    run demoHost [Toggle; Tick 1] initialState = Some s
    /\ transactions (cells s) = [].
Proof.
  destruct (run demoHost [Toggle; Tick 1] initialState) as [s|] eqn:Hrun;
    [|vm_compute in Hrun; discriminate].
  exists s. split; [reflexivity|].
  apply (transactions_never_filled demoHost s demoHost_valid).
  apply (run_reachable demoHost [Toggle; Tick 1] initialState); [constructor | exact Hrun].
Defined.

(** ** The timer *)

(** X7. In every reachable state at most one interval timer is set; one
    is set exactly while the simulation is running; it is the one whose
    handle [intervalRef] holds, and its callback was created by a render
    with the rate, the sort method, the sort field and the two last
    durations of the current state. *)
Theorem timer_discipline (H : Host) (s : State) :
  validHost H -> reachable H s ->
  (length (timers (host s)) <= 1)%nat
  /\ (isRunning (cells s) = true <-> timers (host s) <> [])
  /\ forall h r,
       In (h, r) (timers (host s)) ->
       intervalRef (refs s) = Some h
       /\ transactionRate r = transactionRate (cells s)
       /\ sortMethod r = sortMethod (cells s)
       /\ sortBy r = sortBy (cells s)
       /\ (radixTime (currentStats r) == radixTime (currentStats (cells s)))%Q
       /\ (mergeTime (currentStats r) == mergeTime (currentStats (cells s)))%Q.
Proof.
  intros Hv Hr. destruct (reachable_Inv H s Hv Hr) as (Hok & _).
  pose proof (reachable_running H s Hv Hr) as Hrun.
  unfold timersOk in Hok.
  destruct (timers (host s)) as [|[h0 r0] [|? ?]]; try contradiction.
  - split; [cbn; lia|]. split.
    + split; [exact Hrun | intros Hne; contradiction].
    + intros h r [].
  - destruct Hok as (Href & Hsame & Hrunning). split; [cbn; lia|]. split.
    + split; [intros _; discriminate | intros _; exact Hrunning].
    + intros h r [E | []]. injection E as <- <-.
      apply sameDeps_spec in Hsame as (_ & H1 & H2 & H3 & H4 & H5).
      repeat split; assumption.
Qed.

Lemma timer_discipline_witness :
  exists s,
    run demoHost [Toggle; SetSortBy Symbol] initialState = Some s
    /\ (length (timers (host s)) <= 1)%nat
    /\ (isRunning (cells s) = true <-> timers (host s) <> []).
Proof.
  destruct (run demoHost [Toggle; SetSortBy Symbol] initialState) as [s|] eqn:Hrun;
    [|vm_compute in Hrun; discriminate].
  exists s. split; [reflexivity|].
  assert (Hreach : reachable demoHost s).
  { apply (run_reachable demoHost [Toggle; SetSortBy Symbol] initialState);
      [constructor | exact Hrun]. }
  destruct (timer_discipline demoHost s demoHost_valid Hreach) as (Hlen & Hiff & _).
  split; [exact Hlen | exact Hiff].
Defined.

(** ** The counter *)

(** X11. The total is never negative and only the reset lowers it.  A
    tick that does not flush adds its batch size; a tick that flushes
    adds the length of the whole buffer, in which the batches of the
    ticks since the last flush were already counted once. *)
Theorem total_counts (H : Host) (e : Event) (s s' : State) :
  validHost H -> reachable H s -> step H e s = Some s' ->
  0 <= totalTransactions (currentStats (cells s'))
  /\ (e <> Reset ->
      totalTransactions (currentStats (cells s))
      <= totalTransactions (currentStats (cells s')))
  /\ (forall h, e = Tick h ->
        let batchSize := transactionRate (cells s) / 10 in
        let buffer := transactionBuffer (refs s) ++ batchOf H s (Z.to_nat batchSize) in
        totalTransactions (currentStats (cells s'))
        = totalTransactions (currentStats (cells s))
          + (if (500 <=? length buffer)%nat then Z.of_nat (length buffer) else batchSize)).
Proof.
  intros Hv Hr Hstep.
  pose proof (reachable_Inv H s Hv Hr) as Hinv.
  destruct (reachable_Bounded H s Hv Hr) as (_ & _ & _ & _ & Htotal).
  pose proof (step_effect H e s s' Hv Hinv Hstep) as Heff.
  destruct Hinv as (_ & Hrate & _).
  destruct e as [| |m|k|rate|h].
  - destruct Heff as [-> _]. destruct_state s. cbn in *.
    split; [lia|]. split; [intros _; lia | intros h' Hh; discriminate].
  - destruct Heff as [-> _]. destruct_state s. cbn in *.
    split; [lia|]. split; [congruence | intros h' Hh; discriminate].
  - destruct Heff as [-> _]. destruct_state s. cbn in *.
    split; [lia|]. split; [intros _; lia | intros h' Hh; discriminate].
  - destruct Heff as [-> _]. destruct_state s. cbn in *.
    split; [lia|]. split; [intros _; lia | intros h' Hh; discriminate].
  - destruct Heff as [-> _]. destruct_state s. cbn in *.
    split; [lia|]. split; [intros _; lia | intros h' Hh; discriminate].
  - destruct Heff as (r & Hsame & Hcases).
    apply sameDeps_spec in Hsame as (_ & Hr' & _).
    assert (Hbuffer : bufferAfter H r s
                      = transactionBuffer (refs s)
                        ++ batchOf H s (Z.to_nat (transactionRate (cells s) / 10)))
      by (unfold bufferAfter; rewrite Hr'; reflexivity).
    assert (Hbatch : 0 <= transactionRate (cells s) / 10) by (apply Z.div_pos; lia).
    assert (Hnew : totalTransactions (currentStats (cells s'))
                   = totalTransactions (currentStats (cells s))
                     + (if (500 <=? length (bufferAfter H r s))%nat
                        then Z.of_nat (length (bufferAfter H r s))
                        else transactionRate (cells s) / 10)).
    { destruct Hcases as [(Hsmall & -> & _) | (Hflush & _ & out & _ & ->)].
      - destruct (Nat.leb_spec 500 (length (bufferAfter H r s))); [lia|].
        rewrite Hr'. destruct_state s. reflexivity.
      - destruct (Nat.leb_spec 500 (length (bufferAfter H r s))); [|lia].
        reflexivity. }
    rewrite Hbuffer in Hnew.
    assert (Hinc : 0 <= (if (500 <=? length (transactionBuffer (refs s)
                          ++ batchOf H s (Z.to_nat (transactionRate (cells s) / 10))))%nat
                        then Z.of_nat (length (transactionBuffer (refs s)
                          ++ batchOf H s (Z.to_nat (transactionRate (cells s) / 10))))
                        else transactionRate (cells s) / 10))
      by (destruct (_ <=? _)%nat; lia).
    split; [lia|]. split; [intros _; lia|].
    intros h0 _. exact Hnew.
Qed.

Lemma total_counts_witness :
  exists s s',
    run demoHost [Toggle] initialState = Some s
    /\ step demoHost (Tick 1) s = Some s'
    /\ totalTransactions (currentStats (cells s))
       <= totalTransactions (currentStats (cells s')).
Proof.
  destruct (run demoHost [Toggle] initialState) as [s|] eqn:Hrun;
    [|vm_compute in Hrun; discriminate].
  destruct (step demoHost (Tick 1) s) as [s'|] eqn:Hstep;
    [|vm_compute in Hrun; injection Hrun as <-; vm_compute in Hstep; discriminate].
  exists s, s'. split; [reflexivity|]. split; [exact Hstep|].
  assert (Hreach : reachable demoHost s).
  { apply (run_reachable demoHost [Toggle] initialState); [constructor | exact Hrun]. }
  apply (total_counts demoHost (Tick 1) s s' demoHost_valid Hreach Hstep).
  discriminate.
Defined.

(** ** What the reset keeps *)

(** X12. The reset leaves the sort method, the sort field and the rate
    as they were, and does not clear the preview of the encoded
    transactions, whatever the state was. *)
Theorem reset_keeps_configuration (H : Host) (s : State) :
  exists s',
    step H Reset s = Some s'
    /\ sortMethod (cells s') = sortMethod (cells s)
    /\ sortBy (cells s') = sortBy (cells s)
    /\ transactionRate (cells s') = transactionRate (cells s)
    /\ preprocessedData (cells s') = preprocessedData (cells s).
Proof.
  eexists. split; [reflexivity|].
  destruct (reset_cells H s) as [-> _]. destruct_state s. repeat split.
Qed.

(** ** Durations *)

Lemma passTimes_nonneg (H : Host) (m : SortMethod) (p : Pending) :
  monotoneClock H ->
  (0 <= fst (passTimes H m p))%Q /\ (0 <= snd (passTimes H m p))%Q.
Proof.
  intros Hmono. unfold passTimes, readingAt.
  set (c := clockReads (host (current p))).
  pose proof (Hmono c) as H01. pose proof (Hmono (S (S c))) as H23.
  cbn [Nat.add].
  set (t0 := performance_now H c) in *. set (t1 := performance_now H (S c)) in *.
  set (t2 := performance_now H (S (S c))) in *.
  set (t3 := performance_now H (S (S (S c)))) in *.
  destruct m; cbn [fst snd]; split; lra.
Qed.

(** X8. With a clock that never goes back, the two last durations and
    the average are never negative, in any reachable state. *)
Theorem durations_nonneg (H : Host) (s : State) :
  validHost H -> monotoneClock H -> reachable H s -> durationsNonneg (cells s).
Proof.
  intros Hv Hmono Hr. induction Hr as [|s e s' Hr IH Hstep].
  - unfold durationsNonneg. cbn. repeat split; discriminate.
  - pose proof (step_effect H e s s' Hv (reachable_Inv H s Hv Hr) Hstep) as Heff.
    destruct IH as (Hrt & Hmt & Havg). unfold durationsNonneg.
    destruct e as [| |m|k|rate|h].
    + destruct Heff as [-> _]. destruct_state s. cbn in *. auto.
    + destruct Heff as [-> _]. destruct_state s. cbn. repeat split; discriminate.
    + destruct Heff as [-> _]. destruct_state s. cbn in *. auto.
    + destruct Heff as [-> _]. destruct_state s. cbn in *. auto.
    + destruct Heff as [-> _]. destruct_state s. cbn in *. auto.
    + destruct Heff as (r & Hsame & [(_ & -> & _) | (_ & _ & out & _ & ->)]).
      * destruct_state s. cbn in *. auto.
      * apply sameDeps_spec in Hsame as (_ & _ & _ & _ & Ert & Emt).
        destruct (passTimes_nonneg H (sortMethod r) (mkPending s []) Hmono) as [Htr Htm].
        cbn [flushedCells currentStats radixTime mergeTime avgSortTime].
        split; [exact Htr|]. split; [exact Htm|].
        apply Qle_shift_div_l; [reflexivity|]. rewrite Ert, Emt. lra.
Qed.

Lemma demoHost_monotone : monotoneClock demoHost.
Proof.
  intros n. unfold demoHost. cbn [performance_now]. rewrite <- Zle_Qle. lia.
Qed.

Lemma durations_nonneg_witness :
  exists s,
    run demoHost [Toggle; Tick 1] initialState = Some s
    /\ durationsNonneg (cells s).
Proof.
  destruct (run demoHost [Toggle; Tick 1] initialState) as [s|] eqn:Hrun;
    [|vm_compute in Hrun; discriminate].
  exists s. split; [reflexivity|].
  apply (durations_nonneg demoHost s demoHost_valid demoHost_monotone).
  apply (run_reachable demoHost [Toggle; Tick 1] initialState); [constructor | exact Hrun].
Defined.

(** ** The earlier variant: a flushing tick *)

Lemma earlier_radixSort_long (H : Host) (arr : list Transaction) (k : SortKey)
    (p : Pending) (out : list Transaction) :
  (1 < length arr)%nat ->
  radixCore (preprocessForRadix arr k) = Some out ->
  Earlier.parallelRadixSort H arr k p
  = (Returned {| sorted := out; time := readingAt H p 1 - readingAt H p 0 |},
     afterReads 2 p).
Proof.
  intros Hlen Hrun. unfold Earlier.parallelRadixSort.
  destruct (Nat.leb_spec (length arr) 1); [lia|].
  rewrite bind_run. unfold performanceNow at 1. rewrite bind_run. rewrite Hrun.
  reflexivity.
Qed.

Lemma earlier_sortTransactions_returned (H : Host) (r : Cells)
    (data out : list Transaction) (p : Pending) :
  (1 < length data)%nat ->
  radixCore (preprocessForRadix data (sortBy r)) = Some out ->
  Earlier.sortTransactions H r data p
  = (Returned (match sortMethod r with
               | Radix => out
               | Merge => sort (sortBy r) data
               end),
     mkPending (current (afterReads 4 p))
       (queue p ++ [statsOfPass (fst (earlierPassTimes H (sortMethod r) p))
                                (snd (earlierPassTimes H (sortMethod r) p))])).
Proof.
  intros Hlen Hrun. unfold Earlier.sortTransactions.
  destruct (sortMethod r).
  - rewrite !bind_run. rewrite (earlier_radixSort_long H data _ p out) by assumption.
    rewrite bind_run, earlier_mergeSort_run. reflexivity.
  - rewrite !bind_run. rewrite earlier_mergeSort_run.
    rewrite bind_run.
    rewrite (earlier_radixSort_long H data _ (afterReads 2 p) out) by assumption.
    reflexivity.
Qed.

(** The two callbacks start in the same way, so the buffer of the
    earlier variant after the batch is appended is [bufferAfter] too. *)
Lemma earlier_intervalCallback_flush (H : Host) (r : Cells) (s : State)
    (out : list Transaction) :
  (100 <= length (bufferAfter H r s))%nat ->
  radixCore (preprocessForRadix (bufferAfter H r s) (sortBy r)) = Some out ->
  Earlier.intervalCallback H r (mkPending s [])
  = (Returned tt,
     mkPending
       (set_transactionBuffer [] (current (afterReads 4 (mkPending (afterBatch H r s) []))))
       [ statsOfPass
           (fst (earlierPassTimes H (sortMethod r) (mkPending (afterBatch H r s) [])))
           (snd (earlierPassTimes H (sortMethod r) (mkPending (afterBatch H r s) [])));
         (fun refs _ c =>
            set_transactions
              (sliceLast 2000 (sliceLast 1000 (transactions c) ++ transactionBuffer refs)) c);
         (fun _ _ =>
            set_sortedTransactions
              (sliceLast 500 (match sortMethod r with
                              | Radix => out
                              | Merge => sort (sortBy r) (bufferAfter H r s)
                              end)));
         earlierFlushUpdate (Z.of_nat (length (bufferAfter H r s))) ]).
Proof.
  intros Hlen Hrun. unfold Earlier.intervalCallback.
  rewrite bind_run, arrayFrom_generate.
  rewrite bind_run. unfold modifyState at 1. rewrite bind_run. unfold getState at 1.
  cbn [current queue].
  rewrite (afterBatch_eq H r s), (afterBatch_buffer H r s).
  destruct (Nat.leb_spec 100 (length (bufferAfter H r s))); [|lia].
  rewrite bind_run.
  rewrite (earlier_sortTransactions_returned H r _ out) by (try lia; exact Hrun).
  reflexivity.
Qed.

Lemma earlier_tick_flush (H : Host) (r : Cells) (s : State) (out : list Transaction) :
  (100 <= length (bufferAfter H r s))%nat ->
  radixCore (preprocessForRadix (bufferAfter H r s) (sortBy r)) = Some out ->
  let s' := dispatch H (Earlier.intervalCallback H r) s in
  let times := earlierPassTimes H (sortMethod r) (mkPending (afterBatch H r s) []) in
  let total := totalTransactions (currentStats (cells s))
               + Z.of_nat (length (bufferAfter H r s)) in
  transactionBuffer (refs s') = []
  /\ currentStats (cells s')
     = {| totalTransactions := total;
          avgSortTime := (fst times + snd times) / 2;
          radixTime := fst times;
          mergeTime := snd times |}
  /\ performanceData (cells s')
     = sliceLast 20 (performanceData (cells s))
       ++ [ {| Sample.time := toLocaleTimeString H (4 + clockReads (host s));
               Sample.radixTime := fst times;
               Sample.mergeTime := snd times;
               Sample.transactions := Z.of_nat (length (bufferAfter H r s));
               Sample.totalTransactions := total |} ]
  /\ sortedTransactions (cells s')
     = sliceLast 500 (match sortMethod r with
                      | Radix => out
                      | Merge => sort (sortBy r) (bufferAfter H r s)
                      end).
Proof.
  intros Hlen Hrun s' times total. subst s' times total. unfold dispatch.
  rewrite (earlier_intervalCallback_flush H r s out) by assumption. cbn [snd].
  rewrite render_cells, render_buffer.
  unfold renderedCells. cbn [queue fold_left current].
  destruct s as [[run txs srt m k rate perf pre [tot avg rt mt]] rf hs].
  repeat split.
Qed.

(** X13. In the earlier variant, a tick that flushes (at 100 buffered
    transactions) stores the two durations of the pass it ran, their mean
    as the average, and appends a sample that records these same two
    durations and the length of the whole buffer; the buffer is then
    empty. *)
Theorem earlier_flush_statistics (H : Host) (r : Cells) (s : State) :
  validHost H ->
  Forall goodTransaction (transactionBuffer (refs s)) ->
  (100 <= length (bufferAfter H r s))%nat ->
  let s' := dispatch H (Earlier.intervalCallback H r) s in
  let times := earlierPassTimes H (sortMethod r) (mkPending (afterBatch H r s) []) in
  radixTime (currentStats (cells s')) = fst times
  /\ mergeTime (currentStats (cells s')) = snd times
  /\ avgSortTime (currentStats (cells s'))
     = ((radixTime (currentStats (cells s')) + mergeTime (currentStats (cells s'))) / 2)%Q
  /\ (exists x,
        performanceData (cells s') = sliceLast 20 (performanceData (cells s)) ++ [x]
        /\ Sample.radixTime x = radixTime (currentStats (cells s'))
        /\ Sample.mergeTime x = mergeTime (currentStats (cells s'))
        /\ Sample.transactions x = Z.of_nat (length (bufferAfter H r s)))
  /\ totalTransactions (currentStats (cells s'))
     = totalTransactions (currentStats (cells s)) + Z.of_nat (length (bufferAfter H r s))
  /\ transactionBuffer (refs s') = [].
Proof.
  intros Hv Hbuf Hlen s' times.
  destruct (tick_radix_returns H r s Hv Hbuf) as (_ & out & Hrun & _).
  destruct (earlier_tick_flush H r s out Hlen Hrun) as (Hb & Hstats & Hperf & _).
  subst s'. rewrite Hstats, Hperf, Hb. cbn [radixTime mergeTime avgSortTime totalTransactions].
  repeat split. eexists. repeat split.
Qed.

Lemma earlier_flush_statistics_witness :
  let s' := dispatch demoHost (Earlier.intervalCallback demoHost initialCells) initialState in
  avgSortTime (currentStats (cells s'))
  = ((radixTime (currentStats (cells s')) + mergeTime (currentStats (cells s'))) / 2)%Q.
Proof.
  apply (earlier_flush_statistics demoHost initialCells initialState demoHost_valid).
  - constructor.
  - vm_compute. lia.
Defined.

(** ** The two variants of the sorters *)

(** X14. The sorters of the earlier variant and the current ones agree on
    every input: the radix sort returns (or throws) the same, with the
    same duration and the same readings of the clock, the only difference
    being that the earlier one queues no update of the preview; the merge
    sort returns the same array, and the current one reports 2.5 times the
    duration the earlier one reports. *)
Theorem variants_agree (H : Host) (arr : list Transaction) (k : SortKey) (p : Pending) :
  fst (Earlier.parallelRadixSort H arr k p) = fst (radixSort H arr k p)
  /\ current (snd (Earlier.parallelRadixSort H arr k p)) = current (snd (radixSort H arr k p))
  /\ queue (snd (Earlier.parallelRadixSort H arr k p)) = queue p
  /\ exists a b,
       Earlier.mergeSort H arr k p = (Returned a, afterReads 2 p)
       /\ mergeSort H arr k p = (Returned b, afterReads 2 p)
       /\ sorted a = sort k arr
       /\ sorted b = sort k arr
       /\ time b = (time a * (5 # 2))%Q.
Proof.
  split; [|split; [|split]].
  - unfold Earlier.parallelRadixSort, radixSort.
    destruct (length arr <=? 1)%nat; [reflexivity|].
    rewrite !bind_run. unfold performanceNow at 1 3. rewrite !bind_run.
    unfold enqueue at 1. rewrite bind_run.
    destruct (radixCore (preprocessForRadix arr k)); reflexivity.
  - unfold Earlier.parallelRadixSort, radixSort.
    destruct (length arr <=? 1)%nat; [reflexivity|].
    rewrite !bind_run. unfold performanceNow at 1 3. rewrite !bind_run.
    unfold enqueue at 1. rewrite bind_run.
    destruct (radixCore (preprocessForRadix arr k)); reflexivity.
  - unfold Earlier.parallelRadixSort.
    destruct (length arr <=? 1)%nat; [reflexivity|].
    rewrite !bind_run. unfold performanceNow at 1. rewrite !bind_run.
    destruct (radixCore (preprocessForRadix arr k)); reflexivity.
  - eexists _, _. rewrite earlier_mergeSort_run, mergeSort_run.
    repeat split.
Qed.
